(** * Host-side firmware of the FPGA inference accelerator: a shallow embedding

    The development follows the C++ sources file by file:
    [config_struct.hpp] (ConfigIn, StatusOut), [queue.hpp] (Queue),
    [weight_loader.hpp] (INT4Weights, WeightLoader), [accelerator.hpp]
    (Accelerator) and [inference_engine.cpp] (the engine thread).

    Fixed-width integers are integers of [Z] kept in their range, with the
    wrap-around of the C++ arithmetic written out.  Arrays and vectors are
    lists, read with [!!] and updated with [<[ _ := _ ]>]. *)

From Stdlib Require Import ZArith Lia Ascii String DecimalString.
From stdpp Require Import base list.

Local Open Scope Z_scope.

(** ** Machine integers *)

Definition wrap8 (x : Z) : Z := x mod 2 ^ 8.
Definition wrap16 (x : Z) : Z := x mod 2 ^ 16.
Definition wrap32 (x : Z) : Z := x mod 2 ^ 32.
Definition wrap64 (x : Z) : Z := x mod 2 ^ 64.

(** Conversion to a signed type of [w] bits (two's complement). *)
Definition to_signed (w : Z) (x : Z) : Z :=
  let r := x mod 2 ^ w in
  if r <? 2 ^ (w - 1) then r else r - 2 ^ w.

Definition int8 (x : Z) : Z := to_signed 8 x.
Definition int16 (x : Z) : Z := to_signed 16 x.

Definition is_u8 (x : Z) : Prop := 0 <= x < 2 ^ 8.
Definition is_u32 (x : Z) : Prop := 0 <= x < 2 ^ 32.
Definition is_u64 (x : Z) : Prop := 0 <= x < 2 ^ 64.
Definition is_i8 (x : Z) : Prop := - 2 ^ 7 <= x < 2 ^ 7.

(** ** Object representation: what [memcpy] sees

    [memcpy] moves the bytes of an object; which byte of an integer comes
    first is the host's byte order. *)

Inductive endianness : Set := LittleEndian | BigEndian.

Fixpoint le_bytes (n : nat) (v : Z) : list Z :=
  match n with
  | O => []
  | S k => v mod 256 :: le_bytes k (v / 256)
  end.

Fixpoint le_value (bs : list Z) : Z :=
  match bs with
  | [] => 0
  | b :: rest => b + 256 * le_value rest
  end.

(** The [n] bytes of an unsigned integer object, and the integer read back
    from its bytes. *)
Definition store (host : endianness) (n : nat) (v : Z) : list Z :=
  match host with
  | LittleEndian => le_bytes n v
  | BigEndian => rev (le_bytes n v)
  end.

Definition load (host : endianness) (bs : list Z) : Z :=
  match host with
  | LittleEndian => le_value bs
  | BigEndian => le_value (rev bs)
  end.

(** A [uint32_t] array as bytes, and [k] words read from a run of bytes. *)
Fixpoint bytes_of_words (host : endianness) (ws : list Z) : list Z :=
  match ws with
  | [] => []
  | w :: rest => store host 4 w ++ bytes_of_words host rest
  end.

Fixpoint words_of_bytes (host : endianness) (k : nat) (bs : list Z) : list Z :=
  match k with
  | O => []
  | S k' => load host (take 4 bs) :: words_of_bytes host k' (drop 4 bs)
  end.

(** [memcpy (dst, src, n)] on object representations: the first [n] bytes
    of [dst] are replaced by the first [n] bytes of [src]. *)
Definition memcpy (dst src : list Z) (n : nat) : list Z :=
  take n src ++ drop n dst.

(** ** config_struct.hpp *)

Module ConfigIn.

Record t : Type := mk {
  input_buffer_addr : Z;    (* uint64_t, bits 0-63 *)
  output_buffer_addr : Z;   (* uint64_t, bits 64-127 *)
  kv_cache_addr : Z;        (* uint64_t, bits 128-191 *)
  stride : Z;               (* uint32_t *)
  max_tokens : Z;
  batch_size : Z;
  sequence_length : Z;
  num_layers : Z;
  hidden_size : Z;
  num_heads : Z;
  vocab_size : Z;
  prompt_length : Z;
  task_id : Z;
  task_type : Z;
  flags : Z;
  reserved : list Z         (* uint32_t reserved[20] *)
}.

(** The values a C++ [ConfigIn] object can hold. *)
Record wf (c : t) : Prop := {
  wf_input : is_u64 (input_buffer_addr c);
  wf_output : is_u64 (output_buffer_addr c);
  wf_kv : is_u64 (kv_cache_addr c);
  wf_stride : is_u32 (stride c);
  wf_max_tokens : is_u32 (max_tokens c);
  wf_batch_size : is_u32 (batch_size c);
  wf_sequence_length : is_u32 (sequence_length c);
  wf_num_layers : is_u32 (num_layers c);
  wf_hidden_size : is_u32 (hidden_size c);
  wf_num_heads : is_u32 (num_heads c);
  wf_vocab_size : is_u32 (vocab_size c);
  wf_prompt_length : is_u32 (prompt_length c);
  wf_task_id : is_u32 (task_id c);
  wf_task_type : is_u32 (task_type c);
  wf_flags : is_u32 (flags c);
  wf_reserved_len : length (reserved c) = 20%nat;
  wf_reserved : Forall is_u32 (reserved c)
}.

(** ConfigIn(): memset (this, 0, sizeof (ConfigIn)). *)
Definition init : t :=
  mk 0 0 0 0 0 0 0 0 0 0 0 0 0 0 0 (replicate 20 0).

(** sizeof (ConfigIn): three 8-byte and thirty-two 4-byte members, no
    padding. *)
Definition sizeof : nat := 152.

(** The bytes of the object, members in declaration order. *)
Definition object_bytes (host : endianness) (c : t) : list Z :=
  store host 8 (input_buffer_addr c) ++
  store host 8 (output_buffer_addr c) ++
  store host 8 (kv_cache_addr c) ++
  store host 4 (stride c) ++
  store host 4 (max_tokens c) ++
  store host 4 (batch_size c) ++
  store host 4 (sequence_length c) ++
  store host 4 (num_layers c) ++
  store host 4 (hidden_size c) ++
  store host 4 (num_heads c) ++
  store host 4 (vocab_size c) ++
  store host 4 (prompt_length c) ++
  store host 4 (task_id c) ++
  store host 4 (task_type c) ++
  store host 4 (flags c) ++
  bytes_of_words host (reserved c).

(** The object whose bytes are [bs]. *)
Definition of_bytes (host : endianness) (bs : list Z) : t :=
  {| input_buffer_addr := load host (take 8 bs);
     output_buffer_addr := load host (take 8 (drop 8 bs));
     kv_cache_addr := load host (take 8 (drop 16 bs));
     stride := load host (take 4 (drop 24 bs));
     max_tokens := load host (take 4 (drop 28 bs));
     batch_size := load host (take 4 (drop 32 bs));
     sequence_length := load host (take 4 (drop 36 bs));
     num_layers := load host (take 4 (drop 40 bs));
     hidden_size := load host (take 4 (drop 44 bs));
     num_heads := load host (take 4 (drop 48 bs));
     vocab_size := load host (take 4 (drop 52 bs));
     prompt_length := load host (take 4 (drop 56 bs));
     task_id := load host (take 4 (drop 60 bs));
     task_type := load host (take 4 (drop 64 bs));
     flags := load host (take 4 (drop 68 bs));
     reserved := words_of_bytes host 20 (drop 72 bs) |}.

(** void pack (uint32_t words[38]) const:
    memcpy (words, this, 38 * sizeof (uint32_t)).
    [words] is the caller's array before the call; the result is the
    array after it. *)
Definition pack (host : endianness) (self : t) (words : list Z) : list Z :=
  words_of_bytes host 38
    (memcpy (bytes_of_words host words) (object_bytes host self) (38 * 4)).

(** void unpack (const uint32_t words[38]):
    memcpy (this, words, 38 * sizeof (uint32_t)).
    The result is the object after the call. *)
Definition unpack (host : endianness) (self : t) (words : list Z) : t :=
  of_bytes host
    (memcpy (object_bytes host self) (bytes_of_words host words) (38 * 4)).

(** static void setAddress (uint32_t words[38], int start_word, uint64_t addr) *)
Definition setAddress (words : list Z) (start_word : nat) (addr : Z) : list Z :=
  <[S start_word := wrap32 (Z.shiftr addr 32)]>
    (<[start_word := wrap32 (Z.land addr 0xFFFFFFFF)]> words).

(** static uint64_t getAddress (const uint32_t words[38], int start_word) *)
Definition getAddress (words : list Z) (start_word : nat) : option Z :=
  match words !! start_word, words !! S start_word with
  | Some low, Some high => Some (Z.lor (wrap64 (Z.shiftl high 32)) low)
  | _, _ => None
  end.

End ConfigIn.

Module StatusOut.

Record t : Type := mk {
  current_token : Z;      (* uint32_t, bits 0-31 *)
  tokens_generated : Z;   (* bits 32-63 *)
  error_code : Z;         (* bits 64-95 *)
  flags : Z               (* bits 96-127 *)
}.

(** StatusOut() : current_token(0), tokens_generated(0), error_code(0), flags(0) *)
Definition init : t := mk 0 0 0 0.

Definition isValid (s : t) : bool := negb (Z.land (flags s) 0x01 =? 0).
Definition isDone (s : t) : bool := negb (Z.land (flags s) 0x02 =? 0).
Definition hasError (s : t) : bool := negb (Z.land (flags s) 0x04 =? 0).

(** void unpack (const uint32_t words[4]); [None] when the array is
    shorter than four words. *)
Definition unpack (words : list Z) : option t :=
  match words !! 0%nat, words !! 1%nat, words !! 2%nat, words !! 3%nat with
  | Some w0, Some w1, Some w2, Some w3 => Some (mk w0 w1 w2 w3)
  | _, _, _, _ => None
  end.

(** void pack_to_words (): the body is empty. *)
Definition pack_to_words (s : t) : t := s.

End StatusOut.

(** ** weight_loader.hpp *)

(** Out-of-bounds accesses of the C++ code are undefined behaviour; the
    operations below return [None] there. *)

Module INT4Weights.

Record t : Type := mk {
  data : list Z;        (* uint8_t* data: the allocated bytes, [] for nullptr *)
  num_weights : Z;      (* size_t *)
  data_size : Z;        (* size_t *)
  scale : Z;            (* float, as its bit pattern *)
  zero_point : Z        (* int8_t *)
}.

(** INT4Weights() : data(nullptr), num_weights(0), data_size(0),
    scale(1.0f), zero_point(0) *)
Definition init : t := mk [] 0 0 0x3F800000 0.

Definition with_data (b : t) (d : list Z) : t :=
  mk d (num_weights b) (data_size b) (scale b) (zero_point b).

(** int8_t getWeight (size_t idx) const *)
Definition getWeight (b : t) (idx : Z) : option Z :=
  if idx >=? num_weights b then Some 0
  else
    let byte_idx := idx / 2 in
    let is_upper := idx mod 2 =? 1 in
    match data b !! Z.to_nat byte_idx with
    | None => None
    | Some byte =>
        let value :=
          if is_upper then int8 (Z.land (Z.shiftr byte 4) 0x0F)
          else int8 (Z.land byte 0x0F) in
        let value :=
          if negb (Z.land value 0x08 =? 0) then int8 (Z.lor value 0xF0)
          else value in
        Some value
    end.

(** void setWeight (size_t idx, int8_t value) *)
Definition setWeight (b : t) (idx : Z) (value : Z) : option t :=
  if idx >=? num_weights b then Some b
  else
    let value := if value >? 7 then 7 else value in
    let value := if value <? -8 then -8 else value in
    let byte_idx := idx / 2 in
    let is_upper := idx mod 2 =? 1 in
    let masked_value := wrap8 (Z.land value 0x0F) in
    match data b !! Z.to_nat byte_idx with
    | None => None
    | Some old =>
        let byte :=
          if is_upper
          then wrap8 (Z.lor (Z.land old 0x0F) (Z.shiftl masked_value 4))
          else wrap8 (Z.lor (Z.land old 0xF0) masked_value) in
        Some (with_data b (<[Z.to_nat byte_idx := byte]> (data b)))
    end.

(** bool allocate (size_t num_weights_); [new] does not return null, so
    the result is always true and only the block is kept. *)
Definition allocate (b : t) (num_weights_ : Z) : t :=
  let size := wrap64 (num_weights_ + 1) / 2 in
  mk (replicate (Z.to_nat size) 0) num_weights_ size (scale b) (zero_point b).

(** The 4-bit value stored at [idx], as the data model gives it: nibble
    2k is bytes[k] & 0x0F, nibble 2k+1 is (bytes[k] >> 4) & 0x0F. *)
Definition nibble (b : t) (idx : Z) : option Z :=
  match data b !! Z.to_nat (idx / 2) with
  | None => None
  | Some byte =>
      Some (if idx mod 2 =? 1 then Z.land (Z.shiftr byte 4) 0x0F
            else Z.land byte 0x0F)
  end.

(** A block as [allocate] leaves it (whatever was stored since): the
    packed bytes are a run of ceil (num_weights / 2) bytes. *)
Record allocated (b : t) : Prop := {
  allocated_num : 0 <= num_weights b;
  allocated_size : data_size b = (num_weights b + 1) / 2;
  allocated_len : Z.of_nat (length (data b)) = data_size b;
  allocated_bytes : Forall is_u8 (data b)
}.

End INT4Weights.

(** The exponent field of an FP32 pattern (bits 30:23) rebiased from 127
    to 15. *)
Definition rebiased_exponent (bits : Z) : Z :=
  Z.land (Z.shiftr bits 23) 0xFF - 127 + 15.

(** What getWeight makes of the 4-bit value it has read: the value as an
    int8_t, with the upper four bits set when bit 3 is. *)
Definition sign_extend4 (n : Z) : Z :=
  let value := int8 n in
  if negb (Z.land value 0x08 =? 0) then int8 (Z.lor value 0xF0) else value.

(** [v] clamped to the signed 4-bit range. *)
Definition clamp4 (v : Z) : Z := Z.max (-8) (Z.min 7 v).

(** std::vector::resize on a vector of value-initialised elements. *)
Definition resize {A} (dflt : A) (n : nat) (l : list A) : list A :=
  take n l ++ replicate (n - length l) dflt.

Module LayerWeights.

Record t : Type := mk {
  name : string;
  q_weights : INT4Weights.t;
  k_weights : INT4Weights.t;
  v_weights : INT4Weights.t;
  o_weights : INT4Weights.t;
  ffn_up : INT4Weights.t;
  ffn_down : INT4Weights.t;
  ln1_weight : list Z;        (* std::vector<float>, bit patterns *)
  ln1_bias : list Z;
  ln2_weight : list Z;
  ln2_bias : list Z;
  layer_idx : Z;
  hidden_size : Z;
  intermediate_size : Z
}.

Definition init : t :=
  mk EmptyString INT4Weights.init INT4Weights.init INT4Weights.init
     INT4Weights.init INT4Weights.init INT4Weights.init [] [] [] [] 0 0 0.

End LayerWeights.

Module ModelWeights.

Record t : Type := mk {
  token_embeddings : list Z;
  position_embeddings : list Z;
  layers : list LayerWeights.t;
  lm_head : list Z;
  num_layers : Z;
  hidden_size : Z;
  num_heads : Z;
  vocab_size : Z;
  max_seq_len : Z
}.

Definition init : t := mk [] [] [] [] 0 0 0 0 0.

End ModelWeights.

(** vector::size () as a size_t. *)
Definition vsize {A} (l : list A) : Z := Z.of_nat (length l).

Module WeightLoader.

Record t : Type := mk {
  weights : ModelWeights.t;
  loaded : bool;
  ddr_weights_phys : Z;     (* uint64_t *)
  ddr_weights_virt : Z;     (* void*, 0 for nullptr *)
  ddr_weights_size : Z      (* size_t *)
}.

(** WeightLoader() : loaded(false), ddr_weights_phys(0),
    ddr_weights_virt(nullptr), ddr_weights_size(0) *)
Definition init : t := mk ModelWeights.init false 0 0 0.

(** One iteration of the loop over the layers in calculateDDRSize (and
    in getLayerAddress): ten additions to a size_t. *)
Definition add_layer_size (total : Z) (layer : LayerWeights.t) : Z :=
  let total := wrap64 (total + INT4Weights.data_size (LayerWeights.q_weights layer)) in
  let total := wrap64 (total + INT4Weights.data_size (LayerWeights.k_weights layer)) in
  let total := wrap64 (total + INT4Weights.data_size (LayerWeights.v_weights layer)) in
  let total := wrap64 (total + INT4Weights.data_size (LayerWeights.o_weights layer)) in
  let total := wrap64 (total + INT4Weights.data_size (LayerWeights.ffn_up layer)) in
  let total := wrap64 (total + INT4Weights.data_size (LayerWeights.ffn_down layer)) in
  let total := wrap64 (total + wrap64 (vsize (LayerWeights.ln1_weight layer) * 2)) in
  let total := wrap64 (total + wrap64 (vsize (LayerWeights.ln1_bias layer) * 2)) in
  let total := wrap64 (total + wrap64 (vsize (LayerWeights.ln2_weight layer) * 2)) in
  let total := wrap64 (total + wrap64 (vsize (LayerWeights.ln2_bias layer) * 2)) in
  total.

(** size_t calculateDDRSize () const *)
Definition calculateDDRSize (self : t) : Z :=
  let w := weights self in
  let total := 0 in
  let total := wrap64 (total + wrap64 (vsize (ModelWeights.token_embeddings w) * 2)) in
  let total := wrap64 (total + wrap64 (vsize (ModelWeights.position_embeddings w) * 2)) in
  let total := fold_left add_layer_size (ModelWeights.layers w) total in
  let total := wrap64 (total + wrap64 (vsize (ModelWeights.lm_head w) * 2)) in
  total.

(** uint16_t float_to_fp16 (float value), on the bit pattern of
    [value]. *)
Definition float_to_fp16 (bits : Z) : Z :=
  let sign := Z.land (Z.shiftr bits 31) 0x1 in
  let exp := Z.land (Z.shiftr bits 23) 0xFF in
  let mantissa := Z.land bits 0x7FFFFF in
  let new_exp := int16 (wrap32 (wrap32 (exp - 127) + 15)) in
  if new_exp <=? 0 then 0
  else if new_exp >=? 31 then wrap16 (Z.lor (wrap32 (Z.shiftl sign 15)) 0x7C00)
  else
    wrap16 (Z.lor (Z.lor (wrap32 (Z.shiftl sign 15))
                         (wrap32 (Z.shiftl new_exp 10)))
                  (Z.shiftr mantissa 13)).

(** std::ifstream on the bytes of a file that was opened, as
    loadFromBinary uses it: the read position and failbit.  A read that
    finds fewer bytes than it asks for stores the bytes there are and sets
    failbit; once failbit is set a read stores nothing and a seek does
    nothing.  A seek beyond the end of the file succeeds, and the read
    that follows finds no byte. *)
Record ifstream : Type := mkStream {
  bytes : list Z;
  tellg : Z;
  failbit : bool
}.

Definition ifstream_open (file : list Z) : ifstream := mkStream file 0 false.

(** file.read (buf, n): the bytes stored in [buf], and the stream. *)
Definition ifstream_read (n : Z) (f : ifstream) : list Z * ifstream :=
  if failbit f then ([], f)
  else
    let got :=
      if (0 <=? tellg f) && (tellg f <? Z.of_nat (length (bytes f)))
      then take (Z.to_nat n) (drop (Z.to_nat (tellg f)) (bytes f))
      else [] in
    (got, mkStream (bytes f) (tellg f + Z.of_nat (length got))
            (Z.of_nat (length got) <? n)).

(** file.seekg (off, std::ios::cur) *)
Definition seekg_cur (off : Z) (f : ifstream) : ifstream :=
  if failbit f then f else mkStream (bytes f) (tellg f + off) false.

(** file.seekg (pos) *)
Definition seekg (pos : Z) (f : ifstream) : ifstream :=
  if failbit f then f else mkStream (bytes f) pos false.

(** file.read (reinterpret_cast<char*> (&x), sizeof (x)) for a uint32_t
    local [x]: its value when the four bytes were read. *)
Definition read_u32 (host : endianness) (f : ifstream) : option Z * ifstream :=
  let '(got, f) := ifstream_read 4 f in
  (if (length got =? 4)%nat then Some (load host got) else None, f).

(** The header of the binary container, as [loadFromBinary] reads it. *)
Record Header : Type := mkHeader {
  magic : Z;
  version : Z;
  h_num_layers : Z;
  h_hidden_size : Z;
  h_num_heads : Z;
  h_vocab_size : Z;
  h_max_seq_len : Z;
  h_intermediate_size : Z
}.

(** The uint32_t that a read of four bytes at [pos] stores, when the
    bytes [bs] reach that far; otherwise the variable is not filled. *)
Definition word_at (host : endianness) (bs : list Z) (pos : nat) : option Z :=
  let w := take 4 (drop pos bs) in
  if (length w =? 4)%nat then Some (load host w) else None.

(** file.read (&header, sizeof (header)) stores the bytes the file has:
    member [i] of the header is read when [got], the bytes stored,
    cover it.  A member that is not read keeps the indeterminate value of
    the uninitialised local. *)
Definition header_member (host : endianness) (got : list Z) (i : nat) : option Z :=
  word_at host got (4 * i).

(** The header when the read filled all of it. *)
Definition read_header (host : endianness) (got : list Z) : option Header :=
  m ← header_member host got 0;
  v ← header_member host got 1;
  nl ← header_member host got 2;
  hs ← header_member host got 3;
  nh ← header_member host got 4;
  vs ← header_member host got 5;
  ms ← header_member host got 6;
  im ← header_member host got 7;
  Some (mkHeader m v nl hs nh vs ms im).

(** The body of the loop over the layers in loadFromBinary. *)
Definition load_layer (h : Header) (i : nat) (layer : LayerWeights.t) : LayerWeights.t :=
  let qkv_size := wrap32 (h_hidden_size h * h_hidden_size h) in
  let ffn_up_size := wrap32 (h_hidden_size h * h_intermediate_size h) in
  let ffn_down_size := wrap32 (h_intermediate_size h * h_hidden_size h) in
  let hidden := Z.to_nat (h_hidden_size h) in
  {| LayerWeights.name := LayerWeights.name layer;
     LayerWeights.q_weights := INT4Weights.allocate (LayerWeights.q_weights layer) qkv_size;
     LayerWeights.k_weights := INT4Weights.allocate (LayerWeights.k_weights layer) qkv_size;
     LayerWeights.v_weights := INT4Weights.allocate (LayerWeights.v_weights layer) qkv_size;
     LayerWeights.o_weights := INT4Weights.allocate (LayerWeights.o_weights layer) qkv_size;
     LayerWeights.ffn_up := INT4Weights.allocate (LayerWeights.ffn_up layer) ffn_up_size;
     LayerWeights.ffn_down := INT4Weights.allocate (LayerWeights.ffn_down layer) ffn_down_size;
     LayerWeights.ln1_weight := resize 0 hidden (LayerWeights.ln1_weight layer);
     LayerWeights.ln1_bias := resize 0 hidden (LayerWeights.ln1_bias layer);
     LayerWeights.ln2_weight := resize 0 hidden (LayerWeights.ln2_weight layer);
     LayerWeights.ln2_bias := resize 0 hidden (LayerWeights.ln2_bias layer);
     LayerWeights.layer_idx := Z.of_nat i;
     LayerWeights.hidden_size := h_hidden_size h;
     LayerWeights.intermediate_size := h_intermediate_size h |}.

(** One pass of for (int w = 0; w < 6; w++): scale, zero_point and
    data_size are read and the data are skipped.  The values read for
    scale and zero_point are not used.  data_size is left unread only
    when the stream has failed, and seekg then does nothing, whatever it
    is given. *)
Definition skip_block (host : endianness) (f : ifstream) : ifstream :=
  let '(_, f) := ifstream_read 4 f in
  let '(_, f) := ifstream_read 1 f in
  let '(data_size, f) := read_u32 host f in
  seekg_cur (default 0 data_size) f.

(** for (uint32_t i = 0; i < num_checksums; i++): name_len, the name and
    the 32 bytes of the checksum are read.  The name goes to char
    name_buf[256] and name_buf[name_len] is set to 0, which is inside the
    buffer for name_len < 256 only.  [None]: name_len was not read, or is
    256 or more.  What is printed of the name and the checksum is not
    part of the model. *)
Fixpoint verify_checksums (host : endianness) (num_checksums : nat) (f : ifstream)
  : option ifstream :=
  match num_checksums with
  | O => Some f
  | S n =>
      let '(name_len, f) := read_u32 host f in
      match name_len with
      | None => None
      | Some len =>
          if len >=? 256 then None
          else
            let '(_, f) := ifstream_read len f in
            let '(_, f) := ifstream_read 32 f in
            verify_checksums host n f
      end
  end.

(** bool loadFromBinary (const std::string& bin_file), on the bytes of
    the file it has opened.  The loader skips the tensor data ([seekg])
    and only prints the checksums, so the header decides the loaded
    model.  [None], no defined result: the magic number, the rest of the
    header, checksum_offset, num_checksums or a name_len is used without
    having been read, or a name does not fit its buffer. *)
Definition loadFromBinary (host : endianness) (self : t) (file : list Z)
  : option (bool * t) :=
  let f := ifstream_open file in
  let '(got, f) := ifstream_read 32 f in
  match header_member host got 0 with
  | None => None
  | Some header_magic =>
      if negb (header_magic =? 0x57544E54) then Some (false, self)
      else
        match read_header host got with
        | None => None
        | Some h =>
            let w := weights self in
            let '(checksum_offset, f) := read_u32 host f in
            let embed_size := wrap32 (h_vocab_size h * h_hidden_size h) in
            let f := seekg_cur (embed_size * 2) f in
            let pos_embed_size := wrap32 (h_max_seq_len h * h_hidden_size h) in
            let f := seekg_cur (pos_embed_size * 2) f in
            let w' :=
              {| ModelWeights.token_embeddings :=
                   resize 0 (Z.to_nat embed_size) (ModelWeights.token_embeddings w);
                 ModelWeights.position_embeddings :=
                   resize 0 (Z.to_nat pos_embed_size) (ModelWeights.position_embeddings w);
                 ModelWeights.layers :=
                   imap (load_layer h)
                     (resize LayerWeights.init (Z.to_nat (h_num_layers h))
                        (ModelWeights.layers w));
                 ModelWeights.lm_head := ModelWeights.lm_head w;
                 ModelWeights.num_layers := h_num_layers h;
                 ModelWeights.hidden_size := h_hidden_size h;
                 ModelWeights.num_heads := h_num_heads h;
                 ModelWeights.vocab_size := h_vocab_size h;
                 ModelWeights.max_seq_len := h_max_seq_len h |} in
            let f := Nat.iter (Z.to_nat (h_num_layers h)) (Nat.iter 6 (skip_block host)) f in
            let self' := mk w' true (ddr_weights_phys self)
                           (ddr_weights_virt self) (ddr_weights_size self) in
            match checksum_offset with
            | None => None
            | Some offset =>
                if offset >? 0 then
                  let f := seekg offset f in
                  let '(num_checksums, f) := read_u32 host f in
                  match num_checksums with
                  | None => None
                  | Some n =>
                      match verify_checksums host (Z.to_nat n) f with
                      | None => None
                      | Some _ => Some (true, self')
                      end
                  end
                else Some (true, self')
            end
        end
  end.

(** bool allocateDDR (uint64_t phys_addr, void* virt_addr, size_t size) *)
Definition allocateDDR (self : t) (phys_addr virt_addr size : Z) : bool * t :=
  let self := mk (weights self) (loaded self) phys_addr virt_addr size in
  let required := calculateDDRSize self in
  if required >? size then (false, self) else (true, self).

(** The DDR region behind [ddr_weights_virt], and the running [offset]
    of copyToDDR. *)
Definition staging : Type := list Z * Z.

(** memcpy (ddr_ptr + offset, src, n); offset += n. *)
Definition stage_bytes (src : list Z) (n : Z) (st : staging) : option staging :=
  let '(ddr, offset) := st in
  if (Z.of_nat (length src) <? n) || (Z.of_nat (length ddr) <? offset + n)
  then None
  else
    let k := Z.to_nat offset in
    let bs := take (Z.to_nat n) src in
    Some (take k ddr ++ bs ++ drop (k + length bs) ddr, wrap64 (offset + n)).

(** for (float val : v) { fp16 = float_to_fp16 (val);
      memcpy (ddr_ptr + offset, &fp16, 2); offset += 2; } *)
Fixpoint stage_fp16 (host : endianness) (v : list Z) (st : staging) : option staging :=
  match v with
  | [] => Some st
  | val :: rest =>
      match stage_bytes (store host 2 (float_to_fp16 val)) 2 st with
      | None => None
      | Some st' => stage_fp16 host rest st'
      end
  end.

Definition stage_block (b : INT4Weights.t) (st : staging) : option staging :=
  stage_bytes (INT4Weights.data b) (INT4Weights.data_size b) st.

(** The body of the loop over the layers in copyToDDR. *)
Definition stage_layer (host : endianness) (layer : LayerWeights.t) (st : staging)
  : option staging :=
  st ← stage_block (LayerWeights.q_weights layer) st;
  st ← stage_block (LayerWeights.k_weights layer) st;
  st ← stage_block (LayerWeights.v_weights layer) st;
  st ← stage_block (LayerWeights.o_weights layer) st;
  st ← stage_block (LayerWeights.ffn_up layer) st;
  st ← stage_block (LayerWeights.ffn_down layer) st;
  stage_fp16 host (LayerWeights.ln1_weight layer) st.

Fixpoint stage_layers (host : endianness) (ls : list LayerWeights.t) (st : staging)
  : option staging :=
  match ls with
  | [] => Some st
  | layer :: rest =>
      match stage_layer host layer st with
      | None => None
      | Some st' => stage_layers host rest st'
      end
  end.

(** The state of copyToDDR when its loop over the layers reaches index
    [i]: the embeddings and the layers before [i] are staged. *)
Definition staged_before (host : endianness) (self : t) (ddr : list Z) (i : nat)
  : option staging :=
  st ← stage_fp16 host (ModelWeights.token_embeddings (weights self)) (ddr, 0);
  stage_layers host (take i (ModelWeights.layers (weights self))) st.

(** bool copyToDDR (): the result, the DDR region and the total the
    function reports as copied. *)
Definition copyToDDR (host : endianness) (self : t) (ddr : list Z)
  : option (bool * staging) :=
  if negb (loaded self) then Some (false, (ddr, 0))
  else if ddr_weights_virt self =? 0 then Some (false, (ddr, 0))
  else
    st ← staged_before host self ddr (length (ModelWeights.layers (weights self)));
    Some (true, st).

(** uint64_t getLayerAddress (size_t layer_idx) *)
Definition getLayerAddress (self : t) (layer_idx : Z) : Z :=
  let w := weights self in
  if layer_idx >=? vsize (ModelWeights.layers w) then 0
  else
    let offset := 0 in
    let offset := wrap64 (offset + wrap64 (vsize (ModelWeights.token_embeddings w) * 2)) in
    let offset := wrap64 (offset + wrap64 (vsize (ModelWeights.position_embeddings w) * 2)) in
    let offset :=
      fold_left add_layer_size (take (Z.to_nat layer_idx) (ModelWeights.layers w)) offset in
    wrap64 (ddr_weights_phys self + offset).

(** The serialized size of a layer as the staging order lists it: the
    six packed blocks and the four layer-norm vectors as f16. *)
Definition layer_serialized_size (layer : LayerWeights.t) : Z :=
  INT4Weights.data_size (LayerWeights.q_weights layer)
  + INT4Weights.data_size (LayerWeights.k_weights layer)
  + INT4Weights.data_size (LayerWeights.v_weights layer)
  + INT4Weights.data_size (LayerWeights.o_weights layer)
  + INT4Weights.data_size (LayerWeights.ffn_up layer)
  + INT4Weights.data_size (LayerWeights.ffn_down layer)
  + 2 * vsize (LayerWeights.ln1_weight layer)
  + 2 * vsize (LayerWeights.ln1_bias layer)
  + 2 * vsize (LayerWeights.ln2_weight layer)
  + 2 * vsize (LayerWeights.ln2_bias layer).

(** The required size in the words of the staging contract: embeddings
    and lm_head after f16 conversion, raw INT4 blocks and f16 layer
    norms for every layer. *)
Definition required_ddr (w : ModelWeights.t) : Z :=
  2 * vsize (ModelWeights.token_embeddings w)
  + 2 * vsize (ModelWeights.position_embeddings w)
  + foldr (fun layer acc => layer_serialized_size layer + acc) 0 (ModelWeights.layers w)
  + 2 * vsize (ModelWeights.lm_head w).

End WeightLoader.

(** ** queue.hpp *)

Module Queue.

Record t (T : Type) : Type := mk {
  buffer : list T;    (* T buffer[MAX_SIZE] *)
  head : Z;           (* size_t *)
  tail : Z;
  count : Z
}.
Arguments mk {T} _ _ _ _.
Arguments buffer {T} _.
Arguments head {T} _.
Arguments tail {T} _.
Arguments count {T} _.

Section Operations.

Context {T : Type}.
(** The template parameter. *)
Variable MAX_SIZE : Z.

(** Queue() : head(0), tail(0), count(0); the buffer holds
    default-constructed elements. *)
Definition init (dflt : T) : t T :=
  mk (replicate (Z.to_nat MAX_SIZE) dflt) 0 0 0.

(** bool push (const T& item).  An index outside the buffer does not
    arise (see the invariant below); the list update leaves the
    buffer alone there. *)
Definition push (q : t T) (item : T) : bool * t T :=
  if count q >=? MAX_SIZE then (false, q)
  else
    (true,
     mk (<[Z.to_nat (tail q) := item]> (buffer q))
        (head q)
        (wrap64 (tail q + 1) mod MAX_SIZE)
        (wrap64 (count q + 1))).

(** bool pop (T& item): the result, [item] after the call and the
    queue after the call. *)
Definition pop (q : t T) (item : T) : bool * T * t T :=
  if count q =? 0 then (false, item, q)
  else
    (true,
     default item (buffer q !! Z.to_nat (head q)),
     mk (buffer q)
        (wrap64 (head q + 1) mod MAX_SIZE)
        (tail q)
        (wrap64 (count q - 1))).

(** bool tryPop (T& item) { return pop (item); } *)
Definition tryPop (q : t T) (item : T) : bool * T * t T := pop q item.

Definition size (q : t T) : Z := count q.
Definition empty (q : t T) : bool := count q =? 0.
Definition full (q : t T) : bool := count q >=? MAX_SIZE.

(** A producer pushing and a consumer popping, one operation at a
    time. *)
Inductive op : Type :=
| Push (item : T)
| TryPop.

(** The queue after a sequence of operations, with the items whose
    push returned true and the items whose tryPop returned true, both
    in order. *)
Record history : Type := mkHistory {
  queue : t T;
  pushed : list T;
  popped : list T
}.

Definition run_op (dflt : T) (h : history) (o : op) : history :=
  match o with
  | Push item =>
      let '(ok, q) := push (queue h) item in
      mkHistory q (if ok then pushed h ++ [item] else pushed h) (popped h)
  | TryPop =>
      let '(ok, item, q) := tryPop (queue h) dflt in
      mkHistory q (pushed h) (if ok then popped h ++ [item] else popped h)
  end.

Definition run (dflt : T) (ops : list op) : history :=
  fold_left (run_op dflt) ops (mkHistory (init dflt) [] []).

(** The ring: [count] items stored from [head] on, modulo the
    capacity; [tail] is where the next item goes. *)
Record ring (q : t T) : Prop := {
  ring_len : Z.of_nat (length (buffer q)) = MAX_SIZE;
  ring_count : 0 <= count q <= MAX_SIZE;
  ring_head : 0 <= head q < MAX_SIZE;
  ring_tail : tail q = (head q + count q) mod MAX_SIZE
}.

(** The ring holds [items], oldest first. *)
Definition holds (q : t T) (items : list T) : Prop :=
  ring q
  /\ Z.of_nat (length items) = count q
  /\ forall k, (k < length items)%nat ->
       buffer q !! Z.to_nat ((head q + Z.of_nat k) mod MAX_SIZE) = items !! k.

End Operations.

End Queue.

(** ** xaccelerator_hw.h *)

Definition XACCELERATOR_BASEADDR : Z := 0x43C00000.
Definition XACCELERATOR_CTRL_ADDR_AP_CTRL : Z := 0x00.
Definition XACCELERATOR_AP_CTRL_START : Z := 0x01.
Definition XACCELERATOR_AP_CTRL_DONE : Z := 0x02.
Definition XACCELERATOR_AP_CTRL_IDLE : Z := 0x04.
Definition XACCELERATOR_CONFIG_IN_BASE : Z := 0x10.
Definition XACCELERATOR_CONFIG_IN_WORDS : Z := 38.
Definition XACCELERATOR_STATUS_OUT_BASE : Z := 0xAC.
Definition XACCELERATOR_STATUS_OUT_WORDS : Z := 4.
Definition XACCELERATOR_STATUS_OUT_CTRL : Z := 0xBC.
Definition XACCELERATOR_STATUS_OUT_AP_VLD : Z := 0x01.
Definition XACCELERATOR_IRQ_CLEAR_IN : Z := 0xD4.
Definition XACCELERATOR_CONFIG_IN_OFFSET (n : Z) : Z := XACCELERATOR_CONFIG_IN_BASE + n * 4.
Definition XACCELERATOR_STATUS_OUT_OFFSET (n : Z) : Z := XACCELERATOR_STATUS_OUT_BASE + n * 4.

(** ** types.hpp *)

Inductive TaskType : Set := GENERATE.

Module Task.
Record t : Type := mk {
  id : Z;               (* int *)
  type : TaskType;
  prompt : string
}.
(** Task() : id(0), type(TaskType::GENERATE), prompt("") *)
Definition init : t := mk 0 GENERATE EmptyString.
End Task.

Inductive CommandType : Set := STOP_CURRENT | RESET | SHUTDOWN.

Module Command.
Record t : Type := mk { type : CommandType }.
(** Command() : type(CommandType::STOP_CURRENT) *)
Definition init : t := mk STOP_CURRENT.
End Command.

Inductive EngineStatus : Set := IDLE | GENERATING | SHUTTING_DOWN.

Module EngineState.
Record t : Type := mk {
  status : EngineStatus;
  currentTaskId : Z;      (* int, -1 means null *)
  cancelCurrent : bool;
  resetRequested : bool
}.
(** EngineState() : status(IDLE), currentTaskId(-1), cancelCurrent(false),
    resetRequested(false) *)
Definition init : t := mk IDLE (-1) false false.
End EngineState.

Definition EOS_TOKEN : Z := 0xFFFFFFFF.

(** ** accelerator.hpp

    The register file is simulated in the source: [writeReg] only prints,
    and [readReg] answers from the object's own [status_words].  The
    printed diagnostics are not part of the model. *)

Module Accelerator.

Record t : Type := mk {
  base_addr : Z;
  config : ConfigIn.t;
  status : StatusOut.t;
  config_words : list Z;    (* uint32_t config_words[38] *)
  status_words : list Z;    (* uint32_t status_words[4] *)
  input_buffer : list Z;
  output_buffer : list Z;
  kv_cache : list Z;
  token_counter : Z         (* static int token_counter of getNextToken *)
}.

Definition with_config (a : t) (c : ConfigIn.t) (ws : list Z) : t :=
  mk (base_addr a) c (status a) ws (status_words a) (input_buffer a)
     (output_buffer a) (kv_cache a) (token_counter a).

Definition with_status (a : t) (s : StatusOut.t) : t :=
  mk (base_addr a) (config a) s (config_words a) (status_words a)
     (input_buffer a) (output_buffer a) (kv_cache a) (token_counter a).

Definition with_status_words (a : t) (ws : list Z) : t :=
  mk (base_addr a) (config a) (status a) (config_words a) ws
     (input_buffer a) (output_buffer a) (kv_cache a) (token_counter a).

Definition with_input_buffer (a : t) (b : list Z) : t :=
  mk (base_addr a) (config a) (status a) (config_words a) (status_words a)
     b (output_buffer a) (kv_cache a) (token_counter a).

Definition with_kv_cache (a : t) (kv : list Z) : t :=
  mk (base_addr a) (config a) (status a) (config_words a) (status_words a)
     (input_buffer a) (output_buffer a) kv (token_counter a).

Definition with_token_counter (a : t) (n : Z) : t :=
  mk (base_addr a) (config a) (status a) (config_words a) (status_words a)
     (input_buffer a) (output_buffer a) (kv_cache a) n.

(** Accelerator() *)
Definition init : t :=
  mk XACCELERATOR_BASEADDR ConfigIn.init StatusOut.init
     (replicate 38 0) (replicate 4 0)
     (replicate (Z.to_nat 4096) 0) (replicate (Z.to_nat 1024) 0)
     (replicate (Z.to_nat 65536) 0) 0.

(** void writeReg (uint32_t offset, uint32_t value): prints and
    sleeps. *)
Definition writeReg (a : t) (offset value : Z) : t := a.

(** uint32_t readReg (uint32_t offset) *)
Definition readReg (a : t) (offset : Z) : Z :=
  if offset =? XACCELERATOR_CTRL_ADDR_AP_CTRL
  then Z.lor XACCELERATOR_AP_CTRL_IDLE XACCELERATOR_AP_CTRL_DONE
  else if (offset >=? XACCELERATOR_STATUS_OUT_BASE)
          && (offset <? XACCELERATOR_STATUS_OUT_BASE + 16)
  then
    let word_idx := (offset - XACCELERATOR_STATUS_OUT_BASE) / 4 in
    if word_idx <? 4 then default 0 (status_words a !! Z.to_nat word_idx) else 0
  else if offset =? XACCELERATOR_STATUS_OUT_CTRL
  then XACCELERATOR_STATUS_OUT_AP_VLD
  else 0.

Section Host.

Variable host : endianness.

(** void configure (input_addr, output_addr, kv_cache_addr, stride,
    max_tokens) *)
Definition configure (a : t) (input_addr output_addr kv_cache_addr stride max_tokens : Z)
  : t :=
  let c := config a in
  let c :=
    ConfigIn.mk input_addr output_addr kv_cache_addr stride max_tokens
      (ConfigIn.batch_size c) (ConfigIn.sequence_length c)
      (ConfigIn.num_layers c) (ConfigIn.hidden_size c) (ConfigIn.num_heads c)
      (ConfigIn.vocab_size c) (ConfigIn.prompt_length c) (ConfigIn.task_id c)
      (ConfigIn.task_type c) (ConfigIn.flags c) (ConfigIn.reserved c) in
  with_config a c (ConfigIn.pack host c (config_words a)).

(** void setTaskConfig (int task_id, uint32_t prompt_len) *)
Definition setTaskConfig (a : t) (task_id prompt_len : Z) : t :=
  let c := config a in
  let c :=
    ConfigIn.mk (ConfigIn.input_buffer_addr c) (ConfigIn.output_buffer_addr c)
      (ConfigIn.kv_cache_addr c) (ConfigIn.stride c) (ConfigIn.max_tokens c)
      (ConfigIn.batch_size c) (ConfigIn.sequence_length c)
      (ConfigIn.num_layers c) (ConfigIn.hidden_size c) (ConfigIn.num_heads c)
      (ConfigIn.vocab_size c) prompt_len (wrap32 task_id) 0
      (ConfigIn.flags c) (ConfigIn.reserved c) in
  with_config a c (ConfigIn.pack host c (config_words a)).

(** for (i = 0; i < tokens.size () && i < input_buffer.size (); i++)
      input_buffer[i] = tokens[i]; *)
Definition fill_input (tokens buffer : list Z) : list Z :=
  take (length buffer) tokens ++ drop (length tokens) buffer.

(** void startInference (int task_id, const std::vector<uint32_t>& tokens) *)
Definition startInference (a : t) (task_id : Z) (tokens : list Z) : t :=
  let a := setTaskConfig a task_id (wrap32 (vsize tokens)) in
  let a := with_input_buffer a (fill_input tokens (input_buffer a)) in
  let a := writeReg a XACCELERATOR_CTRL_ADDR_AP_CTRL XACCELERATOR_AP_CTRL_START in
  let s := status a in
  let s := StatusOut.mk (StatusOut.current_token s) 0
             (StatusOut.error_code s) 0x01 in
  with_status a (StatusOut.pack_to_words s).

End Host.

(** status_words[i] = readReg (XACCELERATOR_STATUS_OUT_OFFSET (i)) *)
Definition read_status_word (a : t) (i : nat) : t :=
  with_status_words a
    (<[i := readReg a (XACCELERATOR_STATUS_OUT_OFFSET (Z.of_nat i))]> (status_words a)).

(** void readStatus () *)
Definition readStatus (a : t) : t :=
  let ctrl := readReg a XACCELERATOR_STATUS_OUT_CTRL in
  if Z.land ctrl XACCELERATOR_STATUS_OUT_AP_VLD =? 0 then a
  else
    let a := fold_left read_status_word (seq 0 4) a in
    match StatusOut.unpack (status_words a) with
    | Some s => with_status a s
    | None => a
    end.

(** bool getNextToken (uint32_t& token): the result, [token] after the
    call and the object after the call. *)
Definition getNextToken (a : t) (token : Z) : bool * Z * t :=
  let a := readStatus a in
  let s := status a in
  if StatusOut.isValid s && negb (StatusOut.isDone s) then
    let old_counter := token_counter a in
    let a := with_token_counter a (old_counter + 1) in
    let '(token, s, a) :=
      if old_counter >? 10 then
        (EOS_TOKEN,
         StatusOut.mk (StatusOut.current_token s) (StatusOut.tokens_generated s)
           (StatusOut.error_code s) (Z.lor (StatusOut.flags s) 0x02),
         with_token_counter a 0)
      else
        (wrap32 (100 + token_counter a),
         StatusOut.mk (StatusOut.current_token s)
           (wrap32 (StatusOut.tokens_generated s + 1))
           (StatusOut.error_code s) (StatusOut.flags s),
         a) in
    let s := StatusOut.mk token (StatusOut.tokens_generated s)
               (StatusOut.error_code s) (StatusOut.flags s) in
    (true, token, with_status a (StatusOut.pack_to_words s))
  else (false, token, a).

Definition isDone (a : t) : bool :=
  negb (Z.land (readReg a XACCELERATOR_CTRL_ADDR_AP_CTRL) XACCELERATOR_AP_CTRL_DONE =? 0).

Definition isIdle (a : t) : bool :=
  negb (Z.land (readReg a XACCELERATOR_CTRL_ADDR_AP_CTRL) XACCELERATOR_AP_CTRL_IDLE =? 0).

(** void reset () *)
Definition reset (a : t) : t :=
  let a := writeReg a XACCELERATOR_IRQ_CLEAR_IN 0xFFFFFFFF in
  let a := writeReg a XACCELERATOR_CTRL_ADDR_AP_CTRL 0x00 in
  with_kv_cache a (map (fun _ => 0) (kv_cache a)).

(** StatusOut getStatus () *)
Definition getStatus (a : t) : StatusOut.t * t :=
  let a := readStatus a in (status a, a).

(** The objects the public interface leads to from a fresh
    Accelerator. *)
Inductive reachable (host : endianness) : t -> Prop :=
| reach_init : reachable host init
| reach_configure a i o k s m :
    reachable host a -> reachable host (configure host a i o k s m)
| reach_setTaskConfig a id len :
    reachable host a -> reachable host (setTaskConfig host a id len)
| reach_startInference a id tokens :
    reachable host a -> reachable host (startInference host a id tokens)
| reach_readStatus a :
    reachable host a -> reachable host (readStatus a)
| reach_getNextToken a token :
    reachable host a -> reachable host (getNextToken a token).2
| reach_reset a :
    reachable host a -> reachable host (reset a)
| reach_getStatus a :
    reachable host a -> reachable host (getStatus a).2.

(** What one call of getNextToken shows: whether it yielded, and the
    tokens_generated the status read of that call reported. *)
Definition observe (a : t) : bool * Z :=
  ((getNextToken a 0).1.1, StatusOut.tokens_generated (status (readStatus a))).

(** [n] successive calls. *)
Fixpoint calls (n : nat) (a : t) : list (bool * Z) :=
  match n with
  | O => []
  | S k => observe a :: calls k (getNextToken a 0).2
  end.

(** No token is counted twice: a call yields only when tokens_generated
    is beyond the value it had at the last call that yielded. *)
Fixpoint no_double_count (last : option Z) (trace : list (bool * Z)) : bool :=
  match trace with
  | [] => true
  | (yielded, generated) :: rest =>
      if yielded then
        match last with
        | None => true
        | Some l => l <? generated
        end
        && no_double_count (Some generated) rest
      else no_double_count last rest
  end.

End Accelerator.

(** ** inference_engine.cpp *)

Module Engine.

Definition nl : string := String "010"%char EmptyString.

(** The texts the engine passes to sendOutputToUI. *)
Definition msg_generating : string := (nl ++ "[Generating] ")%string.
Definition msg_aborted_shutdown : string :=
  (nl ++ "[Aborted: shutdown requested]" ++ nl)%string.
Definition msg_aborted : string := (nl ++ "[Aborted]" ++ nl)%string.
Definition msg_memory_cleared : string := ("[Memory cleared]" ++ nl)%string.
Definition msg_eos : string := (nl ++ "[EOS]" ++ nl)%string.
Definition msg_max_tokens : string := (nl ++ "[Max tokens reached]" ++ nl)%string.

(** The three terminal markers: EOS, Aborted, Max tokens reached. *)
Definition is_terminal_marker (text : string) : bool :=
  String.eqb text msg_eos || String.eqb text msg_aborted
  || String.eqb text msg_max_tokens.

(** The text of the shutdown path. *)
Definition is_shutdown_marker (text : string) : bool :=
  String.eqb text msg_aborted_shutdown.

Fixpoint count_markers (is_marker : string -> bool) (out : list string) : nat :=
  match out with
  | [] => 0
  | text :: rest =>
      ((if is_marker text then 1 else 0) + count_markers is_marker rest)%nat
  end.

(** Queue<Task, 100> taskQueue; Queue<Command, 10> commandQueue; and
    what the engine owns or writes: the accelerator and the texts sent
    to the UI, oldest first. *)
Record world : Type := mkWorld {
  taskQueue : Queue.t Task.t;
  commandQueue : Queue.t Command.t;
  accel : Accelerator.t;
  ui : list string
}.

Definition TASK_QUEUE_SIZE : Z := 100.
Definition COMMAND_QUEUE_SIZE : Z := 10.

(** (uint32_t) c for a char c: plain char is signed or unsigned with
    the platform. *)
Definition char_to_u32 (char_is_signed : bool) (c : ascii) : Z :=
  let n := Z.of_nat (nat_of_ascii c) in
  if char_is_signed then wrap32 (int8 n) else n.

Fixpoint tokenize (char_is_signed : bool) (text : string) : list Z :=
  match text with
  | EmptyString => []
  | String c rest => char_to_u32 char_is_signed c :: tokenize char_is_signed rest
  end.

(** std::to_string of an unsigned value. *)
Definition to_string (n : Z) : string :=
  NilZero.string_of_uint (N.to_uint (Z.to_N n)).

Definition detokenize (token : Z) : string :=
  if token <? 128 then String (ascii_of_nat (Z.to_nat token)) EmptyString
  else ("[T" ++ to_string token ++ "]")%string.

Definition sendOutputToUI (text : string) (w : world) : world :=
  mkWorld (taskQueue w) (commandQueue w) (accel w) (ui w ++ [text])%list.

Definition clearKvCache (w : world) : world :=
  mkWorld (taskQueue w) (commandQueue w) (Accelerator.reset (accel w)) (ui w).

Definition with_accel (w : world) (a : Accelerator.t) : world :=
  mkWorld (taskQueue w) (commandQueue w) a (ui w).

Definition with_commandQueue (w : world) (q : Queue.t Command.t) : world :=
  mkWorld (taskQueue w) q (accel w) (ui w).

Definition with_taskQueue (w : world) (q : Queue.t Task.t) : world :=
  mkWorld q (commandQueue w) (accel w) (ui w).

Definition set_status (st : EngineState.t) (s : EngineStatus) : EngineState.t :=
  EngineState.mk s (EngineState.currentTaskId st) (EngineState.cancelCurrent st)
    (EngineState.resetRequested st).

Definition set_currentTaskId (st : EngineState.t) (id : Z) : EngineState.t :=
  EngineState.mk (EngineState.status st) id (EngineState.cancelCurrent st)
    (EngineState.resetRequested st).

Definition set_cancelCurrent (st : EngineState.t) (b : bool) : EngineState.t :=
  EngineState.mk (EngineState.status st) (EngineState.currentTaskId st) b
    (EngineState.resetRequested st).

Definition set_resetRequested (st : EngineState.t) (b : bool) : EngineState.t :=
  EngineState.mk (EngineState.status st) (EngineState.currentTaskId st)
    (EngineState.cancelCurrent st) b.

(** void handleTopLevelCommand (const Command& cmd, EngineState& state,
    Accelerator& accel) *)
Definition handleTopLevelCommand (cmd : Command.t) (st : EngineState.t) (w : world)
  : EngineState.t * world :=
  match Command.type cmd with
  | SHUTDOWN => (set_status st SHUTTING_DOWN, w)
  | RESET => (st, sendOutputToUI (nl ++ msg_memory_cleared)%string (clearKvCache w))
  | STOP_CURRENT => (st, w)
  end.

Definition MAX_TOKENS : Z := 50.

(** What the shell thread does to the queues. *)
Inductive shell_event : Type :=
| PushTask (task : Task.t)          (* pushTask (task) *)
| PushCommand (cmd : Command.t).    (* commandQueue.push (cmd) *)

(** bool pushTask (const Task& task); the warning goes to std::cout. *)
Definition pushTask (task : Task.t) (w : world) : bool * world :=
  if Queue.full TASK_QUEUE_SIZE (taskQueue w) then (false, w)
  else
    let '(ok, q) := Queue.push TASK_QUEUE_SIZE (taskQueue w) task in
    (ok, with_taskQueue w q).

Definition shell_push (w : world) (ev : shell_event) : world :=
  match ev with
  | PushTask task => (pushTask task w).2
  | PushCommand cmd =>
      with_commandQueue w (Queue.push COMMAND_QUEUE_SIZE (commandQueue w) cmd).2
  end.

(** Where one pass of the generation loop leaves the function. *)
Inductive progress : Type :=
| Continue (st : EngineState.t) (w : world) (token_count : Z)
| Return (st : EngineState.t) (w : world).

Section Host.

Variable host : endianness.
Variable char_is_signed : bool.

(** runGeneration up to the loop. *)
Definition runGeneration_enter (task : Task.t) (st : EngineState.t) (w : world)
  : EngineState.t * world :=
  let st := set_cancelCurrent st false in
  let st := set_resetRequested st false in
  let promptTokens := tokenize char_is_signed (Task.prompt task) in
  let w := sendOutputToUI msg_generating w in
  let w := with_accel w
             (Accelerator.startInference host (accel w) (Task.id task) promptTokens) in
  (st, w).

(** The body of while (token_count < MAX_TOKENS), entered with the
    condition true. *)
Definition runGeneration_body (st : EngineState.t) (w : world) (token_count : Z)
  : progress :=
  let '(popped, cmd, q) :=
    Queue.tryPop COMMAND_QUEUE_SIZE (commandQueue w) Command.init in
  let w := with_commandQueue w q in
  let shutdown := popped && match Command.type cmd with SHUTDOWN => true | _ => false end in
  if shutdown then
    let st := set_cancelCurrent st true in
    let st := set_status st SHUTTING_DOWN in
    Return st (sendOutputToUI msg_aborted_shutdown w)
  else
    let st :=
      if popped then
        match Command.type cmd with
        | RESET => set_resetRequested (set_cancelCurrent st true) true
        | _ => set_cancelCurrent st true
        end
      else st in
    if EngineState.cancelCurrent st then
      let w := sendOutputToUI msg_aborted w in
      if EngineState.resetRequested st then
        let w := sendOutputToUI msg_memory_cleared (clearKvCache w) in
        Return (set_resetRequested st false) w
      else Return st w
    else
      let '(yielded, nextToken, a) := Accelerator.getNextToken (accel w) 0 in
      let w := with_accel w a in
      if yielded then
        if nextToken =? EOS_TOKEN then Return st (sendOutputToUI msg_eos w)
        else Continue st (sendOutputToUI (detokenize nextToken) w) (token_count + 1)
      else Continue st w token_count.

(** One pass of the loop of runGeneration, the condition included. *)
Definition runGeneration_pass (st : EngineState.t) (w : world) (token_count : Z)
  : progress :=
  if token_count <? MAX_TOKENS then runGeneration_body st w token_count
  else Return st (sendOutputToUI msg_max_tokens w).

(** The loop with the shell running beside it: [arrivals k] is what
    the shell pushes before pass [k] polls the command queue.  After
    [fuel] passes the loop is reported as it stands. *)
Fixpoint runGeneration_loop (fuel : nat) (arrivals : nat -> list shell_event)
    (k : nat) (st : EngineState.t) (w : world) (token_count : Z) : progress :=
  match fuel with
  | O => Continue st w token_count
  | S fuel' =>
      match runGeneration_pass st (fold_left shell_push (arrivals k) w) token_count with
      | Continue st' w' token_count' =>
          runGeneration_loop fuel' arrivals (S k) st' w' token_count'
      | Return st' w' => Return st' w'
      end
  end.

(** void runGeneration (const Task& task, EngineState& state,
    Accelerator& accel) *)
Definition runGeneration (fuel : nat) (arrivals : nat -> list shell_event)
    (task : Task.t) (st : EngineState.t) (w : world) : progress :=
  let '(st, w) := runGeneration_enter task st w in
  runGeneration_loop fuel arrivals 0 st w 0.

(** After runGeneration in inferenceEngineThread:
    if (state.status == GENERATING) { status = IDLE; currentTaskId = -1; } *)
Definition after_generation (st : EngineState.t) : EngineState.t :=
  match EngineState.status st with
  | GENERATING => set_currentTaskId (set_status st IDLE) (-1)
  | _ => st
  end.

(** *** The engine thread, step by step

    A step of the thread is one pass of the loop of
    inferenceEngineThread that starts no generation, the start of a
    generation (the task is popped and runGeneration runs up to its
    loop), one pass of the loop of runGeneration (with what follows
    the return when it returns), or the exit of the thread.  The
    operations of the queues are taken as atomic. *)

Inductive pc : Type :=
| AtLoopHead
| InGeneration (task : Task.t) (token_count : Z)
| Exited.

(** main's loop: the next task id and whether the loop was left. *)
Record shell_state : Type := mkShell {
  nextTaskId : Z;      (* int *)
  quit : bool
}.

Record system : Type := mkSystem {
  at_pc : pc;
  state : EngineState.t;
  the_world : world;
  shell : shell_state
}.

(** inferenceEngineThread up to its loop, and main up to its loop. *)
Definition boot : system :=
  let w := mkWorld (Queue.init TASK_QUEUE_SIZE Task.init)
             (Queue.init COMMAND_QUEUE_SIZE Command.init)
             (Accelerator.configure host Accelerator.init
                0x10000000 0x20000000 0x30000000 128 2048)
             [] in
  mkSystem AtLoopHead EngineState.init w (mkShell 1 false).

Definition engine_step (s : system) : option system :=
  let st := state s in
  let w := the_world s in
  match at_pc s with
  | Exited => None
  | AtLoopHead =>
      match EngineState.status st with
      | SHUTTING_DOWN => Some (mkSystem Exited st (clearKvCache w) (shell s))
      | GENERATING => Some s
      | IDLE =>
          let '(popped, cmd, q) :=
            Queue.tryPop COMMAND_QUEUE_SIZE (commandQueue w) Command.init in
          if popped then
            let '(st, w) := handleTopLevelCommand cmd st (with_commandQueue w q) in
            Some (mkSystem AtLoopHead st w (shell s))
          else
            let w := with_commandQueue w q in
            let '(popped, task, q) :=
              Queue.tryPop TASK_QUEUE_SIZE (taskQueue w) Task.init in
            if popped then
              let w := with_taskQueue w q in
              let st := set_currentTaskId st (Task.id task) in
              let st := set_status st GENERATING in
              let '(st, w) := runGeneration_enter task st w in
              Some (mkSystem (InGeneration task 0) st w (shell s))
            else Some (mkSystem AtLoopHead st (with_taskQueue w q) (shell s))
      end
  | InGeneration task token_count =>
      match runGeneration_pass st w token_count with
      | Continue st w token_count =>
          Some (mkSystem (InGeneration task token_count) st w (shell s))
      | Return st w =>
          Some (mkSystem AtLoopHead (after_generation st) w (shell s))
      end
  end.

(** One line read by main's loop.  No step when the loop was left, or
    when nextTaskId++ would overflow an int. *)
Definition shell_step (line : string) (s : system) : option system :=
  let sh := shell s in
  let push ev quit' next :=
    Some (mkSystem (at_pc s) (state s) (shell_push (the_world s) ev)
            (mkShell next quit')) in
  if quit sh then None
  else if String.eqb line EmptyString then Some s
  else if String.eqb line "/quit"%string then
    push (PushCommand (Command.mk SHUTDOWN)) true (nextTaskId sh)
  else if String.eqb line "/stop"%string then
    push (PushCommand (Command.mk STOP_CURRENT)) false (nextTaskId sh)
  else if String.eqb line "/reset"%string then
    push (PushCommand (Command.mk RESET)) false (nextTaskId sh)
  else if nextTaskId sh >=? 2 ^ 31 - 1 then None
  else
    push (PushTask (Task.mk (nextTaskId sh) GENERATE line)) false
      (nextTaskId sh + 1).

Inductive step : system -> system -> Prop :=
| step_engine s s' : engine_step s = Some s' -> step s s'
| step_shell line s s' : shell_step line s = Some s' -> step s s'.

(** A schedule: lines typed at the shell ([Some line]) between steps
    of the engine ([None]). *)
Fixpoint run_schedule (sched : list (option string)) (s : system) : option system :=
  match sched with
  | [] => Some s
  | Some line :: rest =>
      match shell_step line s with
      | Some s' => run_schedule rest s'
      | None => None
      end
  | None :: rest =>
      match engine_step s with
      | Some s' => run_schedule rest s'
      | None => None
      end
  end.

(** What the steps keep: task ids count up from 1, the task queue is
    a ring of tasks with such ids, and the state of the engine goes
    with the place the thread is at. *)
Definition system_inv (s : system) : Prop :=
  let st := state s in
  1 <= nextTaskId (shell s)
  /\ (exists items,
        Queue.holds TASK_QUEUE_SIZE (taskQueue (the_world s)) items
        /\ Forall (fun task => 1 <= Task.id task) items)
  /\ match at_pc s with
     | AtLoopHead =>
         (EngineState.status st = IDLE
          /\ EngineState.currentTaskId st = -1
          /\ EngineState.resetRequested st = false)
         \/ EngineState.status st = SHUTTING_DOWN
     | InGeneration task _ =>
         EngineState.status st = GENERATING
         /\ EngineState.currentTaskId st = Task.id task
         /\ 1 <= Task.id task
         /\ EngineState.cancelCurrent st = false
         /\ EngineState.resetRequested st = false
     | Exited => EngineState.status st = SHUTTING_DOWN
     end.

Inductive reachable : system -> Prop :=
| reachable_boot : reachable boot
| reachable_step s s' : reachable s -> step s s' -> reachable s'.

End Host.

End Engine.


(** *** The return of runGeneration as a place of its own

    [Engine.engine_step] takes the pass of the generation loop that
    returns together with the statement that follows the call in
    inferenceEngineThread,
    if (state.status == GENERATING) { status = IDLE; currentTaskId = -1; }.
    Here the thread is also seen between the two: [returned] says that
    runGeneration has returned to inferenceEngineThread and that the if
    has not run yet.  The place kept in [sys] is then still the one of the
    generation. *)

Module Thread.

Record t : Type := mk {
  sys : Engine.system;
  returned : bool
}.

Section Host.

Variable host : endianness.
Variable char_is_signed : bool.

Definition boot : t := mk (Engine.boot host) false.

Definition engine_step (th : t) : option t :=
  let s := sys th in
  if returned th then
    Some (mk (Engine.mkSystem Engine.AtLoopHead
                (Engine.after_generation (Engine.state s))
                (Engine.the_world s) (Engine.shell s))
             false)
  else
    match Engine.at_pc s with
    | Engine.InGeneration task token_count =>
        match Engine.runGeneration_pass (Engine.state s) (Engine.the_world s)
                token_count with
        | Engine.Continue st w token_count' =>
            Some (mk (Engine.mkSystem (Engine.InGeneration task token_count') st w
                        (Engine.shell s))
                     false)
        | Engine.Return st w =>
            Some (mk (Engine.mkSystem (Engine.InGeneration task token_count) st w
                        (Engine.shell s))
                     true)
        end
    | _ =>
        match Engine.engine_step host char_is_signed s with
        | Some s' => Some (mk s' false)
        | None => None
        end
    end.

(** main's loop runs beside the thread wherever the thread is. *)
Definition shell_step (line : string) (th : t) : option t :=
  match Engine.shell_step line (sys th) with
  | Some s' => Some (mk s' (returned th))
  | None => None
  end.

Inductive step : t -> t -> Prop :=
| step_engine th th' : engine_step th = Some th' -> step th th'
| step_shell line th th' : shell_step line th = Some th' -> step th th'.

Inductive reachable : t -> Prop :=
| reachable_boot : reachable boot
| reachable_step th th' : reachable th -> step th th' -> reachable th'.

Fixpoint run_schedule (sched : list (option string)) (th : t) : option t :=
  match sched with
  | [] => Some th
  | Some line :: rest =>
      match shell_step line th with
      | Some th' => run_schedule rest th'
      | None => None
      end
  | None :: rest =>
      match engine_step th with
      | Some th' => run_schedule rest th'
      | None => None
      end
  end.

(** What the steps keep.  Where runGeneration has just returned the
    status is Generating or ShuttingDown, the task is still the current
    one, and the if that follows leads to a state of the loop. *)
Definition inv (th : t) : Prop :=
  let s := sys th in
  if returned th then
    Engine.system_inv
      (Engine.mkSystem Engine.AtLoopHead (Engine.after_generation (Engine.state s))
         (Engine.the_world s) (Engine.shell s))
    /\ (EngineState.status (Engine.state s) = GENERATING
        \/ EngineState.status (Engine.state s) = SHUTTING_DOWN)
    /\ EngineState.resetRequested (Engine.state s) = false
    /\ exists task token_count,
         Engine.at_pc s = Engine.InGeneration task token_count
         /\ EngineState.currentTaskId (Engine.state s) = Task.id task
         /\ 1 <= Task.id task
  else Engine.system_inv s.

End Host.

End Thread.
(** ** Further descriptions of the code, used by the later properties *)

(** The two 32-bit words a 64-bit member occupies, in memory order. *)
Definition address_words (host : endianness) (addr : Z) : list Z :=
  match host with
  | LittleEndian => [addr mod 2 ^ 32; addr / 2 ^ 32]
  | BigEndian => [addr / 2 ^ 32; addr mod 2 ^ 32]
  end.

(** The 38 words of a ConfigIn, member by member. *)
Definition config_layout (host : endianness) (c : ConfigIn.t) : list Z :=
  address_words host (ConfigIn.input_buffer_addr c)
  ++ address_words host (ConfigIn.output_buffer_addr c)
  ++ address_words host (ConfigIn.kv_cache_addr c)
  ++ [ConfigIn.stride c; ConfigIn.max_tokens c; ConfigIn.batch_size c;
      ConfigIn.sequence_length c; ConfigIn.num_layers c; ConfigIn.hidden_size c;
      ConfigIn.num_heads c; ConfigIn.vocab_size c; ConfigIn.prompt_length c;
      ConfigIn.task_id c; ConfigIn.task_type c; ConfigIn.flags c]
  ++ ConfigIn.reserved c.

(** The bytes copyToDDR stages for one layer: the six packed blocks and
    ln1_weight as f16. *)
Definition staged_layer_size (layer : LayerWeights.t) : Z :=
  INT4Weights.data_size (LayerWeights.q_weights layer)
  + INT4Weights.data_size (LayerWeights.k_weights layer)
  + INT4Weights.data_size (LayerWeights.v_weights layer)
  + INT4Weights.data_size (LayerWeights.o_weights layer)
  + INT4Weights.data_size (LayerWeights.ffn_up layer)
  + INT4Weights.data_size (LayerWeights.ffn_down layer)
  + 2 * vsize (LayerWeights.ln1_weight layer).

(** The total copyToDDR reports as copied. *)
Definition copied_bytes (w : ModelWeights.t) : Z :=
  2 * vsize (ModelWeights.token_embeddings w)
  + foldr (fun layer acc => staged_layer_size layer + acc) 0 (ModelWeights.layers w).

(** A block whose data_size bytes can be read from its data. *)
Definition block_readable (b : INT4Weights.t) : Prop :=
  0 <= INT4Weights.data_size b <= Z.of_nat (length (INT4Weights.data b)).

Definition layer_readable (layer : LayerWeights.t) : Prop :=
  block_readable (LayerWeights.q_weights layer)
  /\ block_readable (LayerWeights.k_weights layer)
  /\ block_readable (LayerWeights.v_weights layer)
  /\ block_readable (LayerWeights.o_weights layer)
  /\ block_readable (LayerWeights.ffn_up layer)
  /\ block_readable (LayerWeights.ffn_down layer).



(** A stage of copyToDDR that writes exactly [n] bytes: wherever [n]
    bytes fit it succeeds, moves the offset by [n], keeps the length of the
    region and touches nothing before the old offset or from the new
    offset on. *)
Definition stages (f : WeightLoader.staging -> option WeightLoader.staging) (n : Z) : Prop :=
  forall (ddr : list Z) (offset : Z),
    0 <= offset ->
    offset + n <= Z.of_nat (length ddr) ->
    Z.of_nat (length ddr) < 2 ^ 64 ->
    exists ddr',
      f (ddr, offset) = Some (ddr', offset + n)
      /\ length ddr' = length ddr
      /\ drop (Z.to_nat (offset + n)) ddr' = drop (Z.to_nat (offset + n)) ddr
      /\ take (Z.to_nat offset) ddr' = take (Z.to_nat offset) ddr.

(** A text of 7-bit characters. *)
Fixpoint is_ascii (text : string) : bool :=
  match text with
  | EmptyString => true
  | String c rest => (nat_of_ascii c <? 128)%nat && is_ascii rest
  end.

(** What the UI shows for a stream of tokens. *)
Definition render (tokens : list Z) : string :=
  foldr (fun token acc => (Engine.detokenize token ++ acc)%string) EmptyString tokens.

(** The ways runGeneration closes its output. *)
Definition closing_texts : list (list string) :=
  [[Engine.msg_eos]; [Engine.msg_aborted];
   [Engine.msg_aborted; Engine.msg_memory_cleared];
   [Engine.msg_aborted_shutdown]; [Engine.msg_max_tokens]].

(** Task ids that count up: each at least [lo], each above the one
    before, all below [hi]. *)
Fixpoint ids_increasing (lo : Z) (items : list Task.t) (hi : Z) : Prop :=
  match items with
  | [] => lo <= hi
  | task :: rest => lo <= Task.id task /\ ids_increasing (Task.id task + 1) rest hi
  end.

(** The least id a waiting task can have: above the id of the task being
    generated. *)
Definition least_waiting_id (s : Engine.system) : Z :=
  match Engine.at_pc s with
  | Engine.InGeneration task _ => Task.id task + 1
  | _ => 1
  end.

(** What the steps keep of the task ids: the task being generated, if
    any, has an id from 1 on, and the waiting tasks have increasing ids
    between it and the next id main gives out. *)
Definition task_ids_inv (s : Engine.system) : Prop :=
  match Engine.at_pc s with
  | Engine.InGeneration task _ => 1 <= Task.id task
  | _ => True
  end
  /\ exists items,
       Queue.holds Engine.TASK_QUEUE_SIZE (Engine.taskQueue (Engine.the_world s)) items
       /\ ids_increasing (least_waiting_id s) items (Engine.nextTaskId (Engine.shell s)).

Definition is_shutdown (cmd : Command.t) : Prop := Command.type cmd = SHUTDOWN.

(** main has left its loop, the engine thread runs, and no Shutdown
    command waits. *)
Definition no_shutdown_pending (s : Engine.system) : Prop :=
  Engine.quit (Engine.shell s) = true
  /\ EngineState.status (Engine.state s) <> SHUTTING_DOWN
  /\ Engine.at_pc s <> Engine.Exited
  /\ exists cmds,
       Queue.holds Engine.COMMAND_QUEUE_SIZE
         (Engine.commandQueue (Engine.the_world s)) cmds
       /\ Forall (fun cmd => ~ is_shutdown cmd) cmds.




(** ** interrupt_handler.hpp

    The build without REAL_HARDWARE: [readISR] answers from its static
    counter, [clearISR] and the two manual enables only print or do
    nothing, and [init] opens no device.  The callbacks are
    std::function objects, possibly empty; what they act on is a state
    [U] of the caller.  What [poll] and [read] report comes from
    outside. *)

Inductive InterruptType : Set := NONE | AP_DONE | AP_READY | TOKEN_READY | ERROR.

Definition InterruptType_value (ty : InterruptType) : Z :=
  match ty with
  | NONE => 0 | AP_DONE => 1 | AP_READY => 2 | TOKEN_READY => 4 | ERROR => 8
  end.

Module InterruptHandler.

Section Callbacks.

Context {U : Type}.

(** using InterruptCallback = std::function<void(InterruptType)> *)
Definition InterruptCallback : Type := option (InterruptType -> U -> U).

Record t : Type := mk {
  uio_fd : Z;                         (* int *)
  enabled : bool;
  running : bool;
  reg_base : option Z;                (* volatile uint32_t*, None for nullptr *)
  on_done_callback : InterruptCallback;
  on_ready_callback : InterruptCallback;
  on_token_callback : InterruptCallback;
  on_error_callback : InterruptCallback;
  total_interrupts : Z;               (* std::atomic<uint64_t> *)
  done_count : Z;
  ready_count : Z;
  token_count : Z;
  error_count : Z;
  sim_counter : Z                     (* static int sim_counter of readISR *)
}.

(** InterruptHandler (); the static counter of readISR starts at 0. *)
Definition new : t :=
  mk (-1) false false None None None None None 0 0 0 0 0 0.

Definition with_lifecycle (h : t) (fd : Z) (en run : bool) (regs : option Z) : t :=
  mk fd en run regs (on_done_callback h) (on_ready_callback h) (on_token_callback h)
     (on_error_callback h) (total_interrupts h) (done_count h) (ready_count h)
     (token_count h) (error_count h) (sim_counter h).

Definition with_callbacks (h : t) (d r k e : InterruptCallback) : t :=
  mk (uio_fd h) (enabled h) (running h) (reg_base h) d r k e
     (total_interrupts h) (done_count h) (ready_count h) (token_count h)
     (error_count h) (sim_counter h).

Definition with_counts (h : t) (total d r k e sim : Z) : t :=
  mk (uio_fd h) (enabled h) (running h) (reg_base h) (on_done_callback h)
     (on_ready_callback h) (on_token_callback h) (on_error_callback h)
     total d r k e sim.

(** if (cb) { cb (ty); } *)
Definition invoke (cb : InterruptCallback) (ty : InterruptType) (u : U) : U :=
  match cb with
  | Some f => f ty u
  | None => u
  end.

Definition bit_set (isr mask : Z) : bool := negb (Z.land isr mask =? 0).

(** void handleInterrupt (uint32_t isr) *)
Definition handleInterrupt (h : t) (isr : Z) (u : U) : t * U :=
  let '(h, u) :=
    if bit_set isr 0x01 then
      (with_counts h (total_interrupts h) (wrap64 (done_count h + 1)) (ready_count h)
         (token_count h) (error_count h) (sim_counter h),
       invoke (on_done_callback h) AP_DONE u)
    else (h, u) in
  let '(h, u) :=
    if bit_set isr 0x02 then
      (with_counts h (total_interrupts h) (done_count h) (wrap64 (ready_count h + 1))
         (token_count h) (error_count h) (sim_counter h),
       invoke (on_ready_callback h) AP_READY u)
    else (h, u) in
  let '(h, u) :=
    if bit_set isr 0x04 then
      (with_counts h (total_interrupts h) (done_count h) (ready_count h)
         (wrap64 (token_count h + 1)) (error_count h) (sim_counter h),
       invoke (on_token_callback h) TOKEN_READY u)
    else (h, u) in
  if bit_set isr 0x08 then
    (with_counts h (total_interrupts h) (done_count h) (ready_count h)
       (token_count h) (wrap64 (error_count h + 1)) (sim_counter h),
     invoke (on_error_callback h) ERROR u)
  else (h, u).

(** uint32_t readISR (): sim_counter++ % 10 == 0.  None where the
    increment would overflow the int. *)
Definition readISR (h : t) : option (Z * t) :=
  let c := sim_counter h in
  if c >=? 2 ^ 31 - 1 then None
  else
    Some (if Z.rem c 10 =? 0 then 0x01 else 0,
          with_counts h (total_interrupts h) (done_count h) (ready_count h)
            (token_count h) (error_count h) (c + 1)).

(** void clearISR (uint32_t mask): prints. *)
Definition clearISR (h : t) (mask : Z) : t := h.

(** What one pass of the service loop gets from poll and read. *)
Inductive poll_event : Type :=
| PollError                              (* ret < 0 *)
| PollTimeout                            (* ret == 0 *)
| PollReady (pollin : bool) (nb_ok : bool).
                                         (* revents & POLLIN; nb == sizeof (irq_count) *)

(** The body of if (nb == sizeof (irq_count)). *)
Definition service (h : t) (u : U) : option (t * U) :=
  let h := with_counts h (wrap64 (total_interrupts h + 1)) (done_count h) (ready_count h)
             (token_count h) (error_count h) (sim_counter h) in
  match readISR h with
  | None => None
  | Some (isr, h) =>
      let '(h, u) := handleInterrupt h isr u in
      Some (clearISR h isr, u)
  end.

(** void irqServiceThread (): the loop while (running), one event per
    pass; the events left over when the loop ends are not looked at. *)
Fixpoint irqServiceThread (events : list poll_event) (h : t) (u : U) : option (t * U) :=
  match events with
  | [] => Some (h, u)
  | ev :: rest =>
      if running h then
        match ev with
        | PollError => Some (h, u)
        | PollTimeout => irqServiceThread rest h u
        | PollReady pollin nb_ok =>
            if pollin && nb_ok then
              match service h u with
              | Some (h, u) => irqServiceThread rest h u
              | None => None
              end
            else irqServiceThread rest h u
        end
      else Some (h, u)
  end.

(** bool init (const char* uio_device, volatile uint32_t* registers) *)
Definition init (h : t) (registers : option Z) : bool * t :=
  (true, with_lifecycle h 0 true (running h) registers).

(** bool start () *)
Definition start (h : t) : bool * t :=
  if negb (enabled h) then (false, h)
  else if running h then (true, h)
  else (true, with_lifecycle h (uio_fd h) (enabled h) true (reg_base h)).

(** void stop () *)
Definition stop (h : t) : t :=
  let h := if running h then with_lifecycle h (uio_fd h) (enabled h) false (reg_base h)
           else h in
  with_lifecycle h (uio_fd h) false (running h) (reg_base h).

Definition onDone (h : t) (cb : InterruptCallback) : t :=
  with_callbacks h cb (on_ready_callback h) (on_token_callback h) (on_error_callback h).
Definition onReady (h : t) (cb : InterruptCallback) : t :=
  with_callbacks h (on_done_callback h) cb (on_token_callback h) (on_error_callback h).
Definition onToken (h : t) (cb : InterruptCallback) : t :=
  with_callbacks h (on_done_callback h) (on_ready_callback h) cb (on_error_callback h).
Definition onError (h : t) (cb : InterruptCallback) : t :=
  with_callbacks h (on_done_callback h) (on_ready_callback h) (on_token_callback h) cb.

Definition getTotalInterrupts (h : t) : Z := total_interrupts h.
Definition getDoneCount (h : t) : Z := done_count h.
Definition getReadyCount (h : t) : Z := ready_count h.
Definition getTokenCount (h : t) : Z := token_count h.
Definition getErrorCount (h : t) : Z := error_count h.

(** void enableInterrupt (uint32_t mask), void disableInterrupt
    (uint32_t mask): empty without REAL_HARDWARE. *)
Definition enableInterrupt (h : t) (mask : Z) : t := h.
Definition disableInterrupt (h : t) (mask : Z) : t := h.

Definition isRunning (h : t) : bool := running h.

(** The calls of the owner of the handler. *)
Inductive call : Type :=
| CallInit (registers : option Z)
| CallStart
| CallStop
| CallOnDone (cb : InterruptCallback)
| CallOnReady (cb : InterruptCallback)
| CallOnToken (cb : InterruptCallback)
| CallOnError (cb : InterruptCallback)
| CallEnableInterrupt (mask : Z)
| CallDisableInterrupt (mask : Z).

Definition run_call (h : t) (c : call) : t :=
  match c with
  | CallInit registers => (init h registers).2
  | CallStart => (start h).2
  | CallStop => stop h
  | CallOnDone cb => onDone h cb
  | CallOnReady cb => onReady h cb
  | CallOnToken cb => onToken h cb
  | CallOnError cb => onError h cb
  | CallEnableInterrupt mask => enableInterrupt h mask
  | CallDisableInterrupt mask => disableInterrupt h mask
  end.

Definition run_calls (calls : list call) : t := fold_left run_call calls new.

(** The interrupts a run of events has serviced: those of the passes
    before the first poll error where POLLIN was set and the read was
    complete. *)
Fixpoint serviced (events : list poll_event) : Z :=
  match events with
  | [] => 0
  | PollError :: _ => 0
  | PollTimeout :: rest => serviced rest
  | PollReady pollin nb_ok :: rest =>
      (if pollin && nb_ok then 1 else 0) + serviced rest
  end.

(** How many status words of a run have bit [k] set. *)
Definition count_bit (k : Z) (isrs : list Z) : Z :=
  Z.of_nat (length (filter (fun isr => Z.testbit isr k = true) isrs)).

Definition handleInterrupts (h : t) (isrs : list Z) (u : U) : t * U :=
  fold_left (fun hu isr => handleInterrupt hu.1 isr hu.2) isrs (h, u).

End Callbacks.

Arguments t : clear implicits.
Arguments InterruptCallback : clear implicits.
Arguments call : clear implicits.

End InterruptHandler.
(** ** Concrete inputs used below *)

(** The configuration of the round-trip scenario. *)
Definition config_roundtrip_example : ConfigIn.t :=
  ConfigIn.mk 0x1122334455667788 0 0 128 2048 0 0 0 0 0 0 0 42 0 0 (replicate 20 0).


(** A block of five weights in three bytes; weight 3 is the high nibble
    of the second byte, 0xA. *)
Definition int4_example : INT4Weights.t :=
  INT4Weights.mk [0x21; 0xA3; 0x07] 5 3 0x3F800000 0.

(** A container of two layers with hidden_size 1: header (magic,
    version 1, num_layers 2, hidden_size 1, num_heads 1, vocab_size 1,
    max_seq_len 1, intermediate_size 1) and a zero checksum offset. *)
Definition model_file_example : list Z :=
  bytes_of_words LittleEndian [0x57544E54; 1; 2; 1; 1; 1; 1; 1; 0].

(** The loader after loadFromBinary on that file and allocateDDR on a
    region of 64 bytes at physical address 0x10000000. *)
Definition loader_example : WeightLoader.t :=
  match WeightLoader.loadFromBinary LittleEndian WeightLoader.init model_file_example with
  | Some (_, l) => snd (WeightLoader.allocateDDR l 0x10000000 0x7F000000 64)
  | None => WeightLoader.init
  end.

(** Three pushes on a queue of capacity 2 (the third is refused), two
    pops, a push that wraps the tail, and two more pops. *)
Definition queue_ops_example : list (@Queue.op Z) :=
  [Queue.Push 11; Queue.Push 12; Queue.Push 13; Queue.TryPop; Queue.TryPop;
   Queue.Push 14; Queue.TryPop; Queue.TryPop].


(** A task as the shell makes it, and the state the engine thread has
    when it calls runGeneration for it. *)
Definition task_example : Task.t := Task.mk 1 GENERATE "hi".

Definition generating_example : EngineState.t := EngineState.mk GENERATING 1 false false.

(** The queues and the driver when the engine thread enters its loop. *)
Definition world_example : Engine.world :=
  Engine.the_world (Engine.boot LittleEndian).


(** A prompt, the start of its generation, a /stop, and the pass of the
    loop that sees it. *)
Definition stop_schedule : list (option string) :=
  [Some "hello"%string; None; Some "/stop"%string; None].

(** The loader after loadFromBinary on the example container, before a
    region is allocated. *)
Definition loaded_example : WeightLoader.t :=
  match WeightLoader.loadFromBinary LittleEndian WeightLoader.init model_file_example with
  | Some (_, l) => l
  | None => WeightLoader.init
  end.

(** The engine idle at the head of its loop, with a task and a /reset
    waiting. *)
Definition idle_reset_example : Engine.system :=
  Engine.mkSystem Engine.AtLoopHead EngineState.init
    (Engine.shell_push
       (Engine.shell_push world_example (Engine.PushTask task_example))
       (Engine.PushCommand (Command.mk RESET)))
    (Engine.mkShell 2 false).

(** The engine idle with a task waiting and no command. *)
Definition idle_task_example : Engine.system :=
  Engine.mkSystem Engine.AtLoopHead EngineState.init
    (Engine.shell_push world_example (Engine.PushTask task_example))
    (Engine.mkShell 2 false).

(** The world of a generation when a /reset has been typed. *)
Definition reset_typed_example : Engine.world :=
  Engine.shell_push world_example (Engine.PushCommand (Command.mk RESET)).

(** The system after the lines of [lines] were typed and the engine did
    not run. *)
Definition typed (lines : list string) : Engine.system :=
  fold_left (fun s line => default s (Engine.shell_step line s)) lines
    (Engine.boot LittleEndian).

(** A handler initialised and started, with a callback on done that
    counts its calls. *)
Definition handler_example : InterruptHandler.t nat :=
  InterruptHandler.run_calls
    [InterruptHandler.CallOnDone (Some (fun _ n => S n));
     InterruptHandler.CallInit None;
     InterruptHandler.CallStart].

(** Twelve interrupts, a timeout and a short read between them. *)
Definition poll_events_example : list InterruptHandler.poll_event :=
  replicate 5 (InterruptHandler.PollReady true true)
  ++ [InterruptHandler.PollTimeout; InterruptHandler.PollReady true false]
  ++ replicate 7 (InterruptHandler.PollReady true true).





(** The thread after a schedule from the start (the start itself when
    the schedule cannot be run). *)
Definition thread_after (sched : list (option string)) : Thread.t :=
  default (Thread.boot LittleEndian)
    (Thread.run_schedule LittleEndian false sched (Thread.boot LittleEndian)).

(** A prompt and the start of its generation; then /quit and the pass
    of the generation loop that takes it. *)
Definition generating_schedule : list (option string) :=
  [Some "hello"%string; None].

Definition quit_schedule : list (option string) :=
  [Some "hello"%string; None; Some "/quit"%string; None].


(* ================================================================== *)
(** * Properties *)

Section ObjectRepresentation.

Lemma length_le_bytes n v : length (le_bytes n v) = n.
Proof. revert v; induction n as [|n IH]; intros v; simpl; [done|]. by rewrite IH. Qed.

Lemma le_bytes_range n v : Forall is_u8 (le_bytes n v).
Proof.
  revert v; induction n as [|n IH]; intros v; simpl; constructor; [|apply IH].
  unfold is_u8. change (2 ^ 8) with 256. apply Z.mod_pos_bound. lia.
Qed.

Lemma le_value_le_bytes n v :
  0 <= v < 256 ^ Z.of_nat n -> le_value (le_bytes n v) = v.
Proof.
  revert v; induction n as [|n IH]; intros v Hv.
  - simpl in *. lia.
  - cbn [le_bytes le_value]. rewrite IH.
    + pose proof (Z.div_mod v 256). lia.
    + rewrite Nat2Z.inj_succ, Z.pow_succ_r in Hv by lia.
      split; [apply Z.div_pos; lia|].
      apply Z.div_lt_upper_bound; lia.
Qed.

Lemma le_value_range bs :
  Forall is_u8 bs -> 0 <= le_value bs < 256 ^ Z.of_nat (length bs).
Proof.
  induction 1 as [|b bs Hb _ IH]; [simpl; lia|].
  cbn [le_value length]. rewrite Nat2Z.inj_succ, Z.pow_succ_r by lia.
  unfold is_u8 in Hb. change (2 ^ 8) with 256 in Hb. lia.
Qed.

Lemma le_bytes_le_value bs :
  Forall is_u8 bs -> le_bytes (length bs) (le_value bs) = bs.
Proof.
  induction 1 as [|b bs Hb Hbs IH]; [done|].
  unfold is_u8 in Hb. change (2 ^ 8) with 256 in Hb.
  cbn [le_value length le_bytes]. f_equal.
  - rewrite (Z.mul_comm 256), Z.mod_add by lia. by apply Z.mod_small.
  - rewrite (Z.mul_comm 256), Z.div_add by lia.
    rewrite Z.div_small by lia. simpl. apply IH.
Qed.

Variable host : endianness.

Lemma length_store n v : length (store host n v) = n.
Proof. destruct host; simpl; rewrite ?length_rev; apply length_le_bytes. Qed.

Lemma store_range n v : Forall is_u8 (store host n v).
Proof.
  destruct host; simpl; [apply le_bytes_range|].
  apply Forall_rev, le_bytes_range.
Qed.

Lemma load_store n v : 0 <= v < 256 ^ Z.of_nat n -> load host (store host n v) = v.
Proof.
  intros Hv. destruct host; simpl; rewrite ?rev_involutive;
    by apply le_value_le_bytes.
Qed.

Lemma store_load bs :
  Forall is_u8 bs -> store host (length bs) (load host bs) = bs.
Proof.
  intros Hbs. destruct host; simpl; [by apply le_bytes_le_value|].
  rewrite <- (length_rev bs), le_bytes_le_value by by apply Forall_rev.
  apply rev_involutive.
Qed.

Lemma load_range bs :
  Forall is_u8 bs -> 0 <= load host bs < 256 ^ Z.of_nat (length bs).
Proof.
  intros Hbs. destruct host; simpl; [by apply le_value_range|].
  rewrite <- (length_rev bs). by apply le_value_range, Forall_rev.
Qed.

End ObjectRepresentation.

Section WordArrays.

Variable host : endianness.

Lemma length_bytes_of_words ws :
  length (bytes_of_words host ws) = (4 * length ws)%nat.
Proof.
  induction ws as [|w ws IH]; [done|].
  cbn [bytes_of_words]. rewrite length_app, length_store, IH. simpl. lia.
Qed.

Lemma take_field (b rest : list Z) n : length b = n -> take n (b ++ rest) = b.
Proof. intros <-. by rewrite take_app_length. Qed.

Lemma drop_field (b rest : list Z) n k k' :
  length b = n -> k = (n + k')%nat -> drop k (b ++ rest) = drop k' rest.
Proof. intros <- ->. by rewrite drop_app_add. Qed.

(** Reading back the words that were laid out as bytes. *)
Lemma words_of_bytes_of_words ws rest :
  Forall is_u32 ws ->
  words_of_bytes host (length ws) (bytes_of_words host ws ++ rest) = ws.
Proof.
  induction 1 as [|w ws Hw _ IH]; [done|].
  cbn [bytes_of_words words_of_bytes length]. rewrite <- app_assoc.
  rewrite (take_field _ _ 4) by apply length_store.
  rewrite (drop_field _ _ 4 4 0) by (apply length_store || reflexivity).
  rewrite drop_0, IH, load_store; [done|].
  unfold is_u32 in Hw. change (256 ^ Z.of_nat 4) with (2 ^ 32). lia.
Qed.

(** Laying out the words that were read from bytes gives the bytes
    back. *)
Lemma bytes_of_words_of_bytes k bs :
  Forall is_u8 bs -> (4 * k <= length bs)%nat ->
  bytes_of_words host (words_of_bytes host k bs) = take (4 * k) bs.
Proof.
  revert bs; induction k as [|k IH]; intros bs Hbs Hlen; [done|].
  cbn [words_of_bytes bytes_of_words].
  rewrite IH by (rewrite ?length_drop; auto using Forall_drop; lia).
  assert (Hl : length (take 4 bs) = 4%nat) by (rewrite length_take; lia).
  rewrite <- Hl at 1. rewrite store_load by auto using Forall_take.
  replace (4 * S k)%nat with (4 + 4 * k)%nat by lia.
  by rewrite take_take_drop.
Qed.

Lemma words_of_bytes_app k bs rest :
  (4 * k <= length bs)%nat ->
  words_of_bytes host k (bs ++ rest) = words_of_bytes host k bs.
Proof.
  revert bs; induction k as [|k IH]; intros bs Hlen; [done|].
  cbn [words_of_bytes].
  rewrite take_app_le, drop_app_le by lia.
  rewrite IH by (rewrite length_drop; lia). done.
Qed.

Lemma length_words_of_bytes k bs : length (words_of_bytes host k bs) = k.
Proof. revert bs; induction k as [|k IH]; intros bs; simpl; [done|]. by rewrite IH. Qed.

Lemma bytes_of_words_range ws : Forall is_u8 (bytes_of_words host ws).
Proof.
  induction ws as [|w ws IH]; [constructor|].
  cbn [bytes_of_words]. apply Forall_app; split; [apply store_range|done].
Qed.

Lemma words_of_bytes_range k bs :
  Forall is_u8 bs -> (4 * k <= length bs)%nat ->
  Forall is_u32 (words_of_bytes host k bs).
Proof.
  revert bs; induction k as [|k IH]; intros bs Hbs Hlen; [constructor|].
  cbn [words_of_bytes]. constructor.
  - assert (Ht : Forall is_u8 (take 4 bs)) by auto using Forall_take.
    pose proof (load_range host (take 4 bs) Ht) as Hr.
    rewrite length_take in Hr.
    replace (4 `min` length bs)%nat with 4%nat in Hr by lia.
    exact Hr.
  - apply IH; [by apply Forall_drop|rewrite length_drop; lia].
Qed.

End WordArrays.

Section ConfigFraming.

Variable host : endianness.

Lemma ConfigIn_length_object_bytes c :
  length (ConfigIn.reserved c) = 20%nat ->
  length (ConfigIn.object_bytes host c) = ConfigIn.sizeof.
Proof.
  intros Hr. unfold ConfigIn.object_bytes.
  rewrite !length_app, !length_store, length_bytes_of_words, Hr. done.
Qed.

Lemma ConfigIn_object_bytes_range c :
  Forall is_u8 (ConfigIn.object_bytes host c).
Proof.
  unfold ConfigIn.object_bytes.
  repeat (apply Forall_app; split; [apply store_range|]).
  apply bytes_of_words_range.
Qed.

(** An object is determined by its bytes. *)
Lemma ConfigIn_of_bytes_object_bytes c rest :
  ConfigIn.wf c ->
  ConfigIn.of_bytes host (ConfigIn.object_bytes host c ++ rest) = c.
Proof.
  intros [].
  destruct c as [a1 a2 a3 f1 f2 f3 f4 f5 f6 f7 f8 f9 f10 f11 f12 rs].
  cbn [ConfigIn.input_buffer_addr ConfigIn.output_buffer_addr
       ConfigIn.kv_cache_addr ConfigIn.stride ConfigIn.max_tokens
       ConfigIn.batch_size ConfigIn.sequence_length ConfigIn.num_layers
       ConfigIn.hidden_size ConfigIn.num_heads ConfigIn.vocab_size
       ConfigIn.prompt_length ConfigIn.task_id ConfigIn.task_type
       ConfigIn.flags ConfigIn.reserved] in *.
  unfold ConfigIn.of_bytes, ConfigIn.object_bytes.
  rewrite <- !app_assoc.
  cbn [ConfigIn.input_buffer_addr ConfigIn.output_buffer_addr
       ConfigIn.kv_cache_addr ConfigIn.stride ConfigIn.max_tokens
       ConfigIn.batch_size ConfigIn.sequence_length ConfigIn.num_layers
       ConfigIn.hidden_size ConfigIn.num_heads ConfigIn.vocab_size
       ConfigIn.prompt_length ConfigIn.task_id ConfigIn.task_type
       ConfigIn.flags ConfigIn.reserved].
  f_equal;
    repeat (erewrite drop_field by (apply length_store || reflexivity));
    rewrite ?drop_0;
    try (rewrite take_field by apply length_store; by apply load_store).
  match goal with H : length rs = _ |- _ => rewrite <- H end.
  by apply words_of_bytes_of_words.
Qed.

End ConfigFraming.

(** C1. Unpacking the 38 words produced by packing a ConfigIn gives the
    ConfigIn back, every field included; what pack leaves in the word
    array depends on the ConfigIn only, not on what the array held. *)
Theorem ConfigIn_unpack_pack (host : endianness) (c self : ConfigIn.t) (words : list Z) :
  ConfigIn.wf c ->
  ConfigIn.unpack host self (ConfigIn.pack host c words) = c
  /\ length (ConfigIn.pack host c words) = 38%nat
  /\ Forall is_u32 (ConfigIn.pack host c words)
  /\ (forall words', ConfigIn.pack host c words' = ConfigIn.pack host c words).
Proof.
  intros Hc.
  assert (Hlen := ConfigIn_length_object_bytes host c (ConfigIn.wf_reserved_len c Hc)).
  assert (Hrange := ConfigIn_object_bytes_range host c).
  assert (Hpack : forall ws, ConfigIn.pack host c ws =
            words_of_bytes host 38 (ConfigIn.object_bytes host c)).
  { intros ws. unfold ConfigIn.pack, memcpy.
    rewrite take_ge by (rewrite Hlen; unfold ConfigIn.sizeof; lia).
    apply words_of_bytes_app. rewrite Hlen. unfold ConfigIn.sizeof. lia. }
  split; [|split; [|split]].
  - rewrite Hpack. unfold ConfigIn.unpack, memcpy.
    rewrite bytes_of_words_of_bytes
      by (auto; rewrite Hlen; unfold ConfigIn.sizeof; lia).
    rewrite !take_ge by (rewrite ?length_take, Hlen; unfold ConfigIn.sizeof; lia).
    by apply ConfigIn_of_bytes_object_bytes.
  - rewrite Hpack. apply length_words_of_bytes.
  - rewrite Hpack. apply words_of_bytes_range; [done|].
    rewrite Hlen. unfold ConfigIn.sizeof. lia.
  - intros ws'. by rewrite !Hpack.
Qed.

Lemma config_roundtrip_example_wf : ConfigIn.wf config_roundtrip_example.
Proof.
  constructor; try (unfold is_u64, is_u32; simpl; lia); try done.
  apply Forall_replicate. unfold is_u32. lia.
Qed.

Lemma ConfigIn_unpack_pack_witness :
  ConfigIn.unpack LittleEndian ConfigIn.init
    (ConfigIn.pack LittleEndian config_roundtrip_example (replicate 38 0))
  = config_roundtrip_example
  /\ length (ConfigIn.pack LittleEndian config_roundtrip_example (replicate 38 0)) = 38%nat
  /\ Forall is_u32 (ConfigIn.pack LittleEndian config_roundtrip_example (replicate 38 0))
  /\ (forall words', ConfigIn.pack LittleEndian config_roundtrip_example words'
        = ConfigIn.pack LittleEndian config_roundtrip_example (replicate 38 0)).
Proof.
  exact (ConfigIn_unpack_pack LittleEndian config_roundtrip_example ConfigIn.init
           (replicate 38 0) config_roundtrip_example_wf).
Defined.

(** ** INT4 blocks *)

Section Nibbles.

Local Open Scope bool_scope.

Lemma testbit_0x0F i : 0 <= i -> Z.testbit 0x0F i = (i <? 4).
Proof.
  intros Hi. change 0x0F with (Z.ones 4).
  by rewrite Z.testbit_ones_nonneg by lia.
Qed.

Lemma testbit_0xF0 i : 0 <= i -> Z.testbit 0xF0 i = (4 <=? i) && (i <? 8).
Proof.
  intros Hi. change 0xF0 with (Z.shiftl (Z.ones 4) 4).
  rewrite Z.shiftl_spec by lia.
  destruct (Z.leb_spec 4 i).
  - rewrite Z.testbit_ones_nonneg by lia. simpl.
    destruct (Z.ltb_spec (i - 4) 4), (Z.ltb_spec i 8); lia || reflexivity.
  - by rewrite Z.testbit_neg_r by lia.
Qed.

Lemma testbit_above m k i : 0 <= m < 2 ^ k -> k <= i -> Z.testbit m i = false.
Proof.
  intros Hm Hi.
  destruct (Z.eq_dec m 0) as [->|]; [apply Z.bits_0|].
  assert (0 <= k).
  { destruct (Z.le_gt_cases 0 k); [lia|]. rewrite Z.pow_neg_r in Hm; lia. }
  apply Z.bits_above_log2; [lia|].
  assert (Z.log2 m < k) by (apply Z.log2_lt_pow2; lia). lia.
Qed.

Ltac nibble_bits i :=
  apply Z.bits_inj'; intros i ?;
  repeat first
    [ rewrite Z.land_spec | rewrite Z.lor_spec
    | rewrite Z.shiftl_spec by lia | rewrite Z.shiftr_spec by lia
    | rewrite Z.testbit_mod_pow2 by lia
    | rewrite testbit_0x0F by lia | rewrite testbit_0xF0 by lia ].

(** Storing a nibble in the low half of a byte and reading it back. *)
Lemma low_nibble_stored old m :
  0 <= m < 16 -> Z.land (wrap8 (Z.lor (Z.land old 0xF0) m)) 0x0F = m.
Proof.
  intros Hm. unfold wrap8. nibble_bits i.
  destruct (Z.ltb_spec i 4), (Z.ltb_spec i 8), (Z.leb_spec 4 i); try lia; simpl;
    rewrite ?andb_false_r, ?andb_true_r, ?orb_false_r; simpl; try reflexivity.
  all: symmetry; apply (testbit_above m 4); lia.
Qed.

(** The same for the high half. *)
Lemma high_nibble_stored old m :
  0 <= m < 16 ->
  Z.land (Z.shiftr (wrap8 (Z.lor (Z.land old 0x0F) (Z.shiftl m 4))) 4) 0x0F = m.
Proof.
  intros Hm. unfold wrap8. nibble_bits i.
  destruct (Z.ltb_spec i 4), (Z.ltb_spec (i + 4) 4), (Z.ltb_spec (i + 4) 8);
    try lia; simpl;
    rewrite ?andb_false_r, ?andb_true_r, ?orb_false_r; simpl; try reflexivity.
  all: replace (i + 4 - 4) with i by lia; try reflexivity.
  all: symmetry; apply (testbit_above m 4); lia.
Qed.

Lemma nibble_range x : 0 <= Z.land x 0x0F < 16.
Proof.
  change 0x0F with (Z.ones 4). rewrite Z.land_ones by lia.
  apply Z.mod_pos_bound. lia.
Qed.

(** A check that passes on every integer of a short range holds on the
    range. *)
Lemma check_range (f : Z -> bool) (lo : Z) (len : nat) :
  forallb f (map (fun k => lo + Z.of_nat k) (seq 0 len)) = true ->
  forall n, lo <= n < lo + Z.of_nat len -> f n = true.
Proof.
  intros Hall n Hn. rewrite forallb_forall in Hall. apply Hall.
  apply in_map_iff. exists (Z.to_nat (n - lo)). split; [lia|].
  apply in_seq. lia.
Qed.

Lemma sign_extend4_cases n :
  0 <= n < 16 ->
  sign_extend4 n = (if Z.testbit n 3 then n - 16 else n).
Proof.
  intros Hn. apply Z.eqb_eq.
  by apply (check_range
              (fun n => sign_extend4 n =? (if Z.testbit n 3 then n - 16 else n)) 0 16).
Qed.

(** The low four bits of a value of the signed 4-bit range, sign
    extended, are the value. *)
Lemma sign_extend4_masked v :
  -8 <= v <= 7 -> sign_extend4 (wrap8 (Z.land v 0x0F)) = v.
Proof.
  intros Hv. apply Z.eqb_eq.
  apply (check_range (fun v => sign_extend4 (wrap8 (Z.land v 0x0F)) =? v) (-8) 16);
    [done|lia].
Qed.

Lemma masked_range v : 0 <= wrap8 (Z.land v 0x0F) < 16.
Proof.
  pose proof (nibble_range v). unfold wrap8. rewrite Z.mod_small; lia.
Qed.

End Nibbles.

Section INT4Blocks.

Import INT4Weights.

Lemma getWeight_nibble b idx :
  idx < num_weights b ->
  getWeight b idx = sign_extend4 <$> nibble b idx.
Proof.
  intros Hidx. unfold getWeight, nibble.
  destruct (Z.geb_spec idx (num_weights b)); [lia|].
  destruct (data b !! Z.to_nat (idx / 2)) as [byte|]; [|done].
  simpl. unfold sign_extend4. by destruct (idx mod 2 =? 1).
Qed.

Lemma allocated_in_bounds b idx :
  allocated b -> 0 <= idx < num_weights b ->
  (Z.to_nat (idx / 2) < length (data b))%nat.
Proof.
  intros [Hn Hs Hl _] Hidx.
  assert (idx / 2 < (num_weights b + 1) / 2).
  { apply Z.div_lt_upper_bound; [lia|].
    pose proof (Z.div_mod (num_weights b + 1) 2).
    pose proof (Z.mod_pos_bound (num_weights b + 1) 2). lia. }
  assert (0 <= idx / 2) by (apply Z.div_pos; lia).
  lia.
Qed.


Lemma setWeight_nibble b idx v :
  allocated b -> 0 <= idx < num_weights b ->
  exists b', setWeight b idx v = Some b'
    /\ num_weights b' = num_weights b
    /\ nibble b' idx =
         Some (wrap8 (Z.land (if (if v >? 7 then 7 else v) <? -8 then -8
                              else (if v >? 7 then 7 else v)) 0x0F)).
Proof.
  intros Hb Hidx. pose proof (allocated_in_bounds b idx Hb Hidx) as Hlt.
  unfold setWeight. destruct (Z.geb_spec idx (num_weights b)); [lia|].
  destruct (lookup_lt_is_Some_2 _ _ Hlt) as [old Hold]. rewrite Hold.
  eexists; split; [reflexivity|]. split; [done|].
  unfold nibble, with_data; cbn [data].
  rewrite list_lookup_insert_eq by done.
  set (m := wrap8 (Z.land _ 0x0F)).
  assert (0 <= m < 16) by apply masked_range.
  destruct (idx mod 2 =? 1); f_equal.
  - by apply high_nibble_stored.
  - by apply low_nibble_stored.
Qed.

End INT4Blocks.

(** C6. On an allocated block and an index below num_weights, setWeight
    followed by getWeight returns the value clamped to [-8, 7]; and a
    stored 4-bit value with bit 3 set is read sign extended, as a negative
    number. *)
Theorem INT4Weights_set_get (b : INT4Weights.t) (i v : Z) :
  INT4Weights.allocated b ->
  0 <= i < INT4Weights.num_weights b ->
  is_i8 v ->
  (exists b', INT4Weights.setWeight b i v = Some b'
     /\ INT4Weights.getWeight b' i = Some (clamp4 v))
  /\ (forall n, INT4Weights.nibble b i = Some n -> Z.testbit n 3 = true ->
        INT4Weights.getWeight b i = Some (n - 16) /\ n - 16 < 0).
Proof.
  intros Hb Hi Hv. split.
  - destruct (setWeight_nibble b i v Hb Hi) as (b' & Hset & Hnum & Hnib).
    exists b'. split; [done|].
    rewrite getWeight_nibble by lia. rewrite Hnib. simpl. f_equal.
    rewrite sign_extend4_masked.
    + unfold clamp4. destruct (Z.gtb_spec v 7), (Z.ltb_spec v (-8)); 
        try destruct (Z.ltb_spec 7 (-8)); lia.
    + destruct (Z.gtb_spec v 7); [done|]. destruct (Z.ltb_spec v (-8)); lia.
  - intros n Hn Hbit. rewrite getWeight_nibble, Hn by lia. simpl.
    assert (Hr : 0 <= n < 16).
    { unfold INT4Weights.nibble in Hn.
      destruct (INT4Weights.data b !! _); [|done].
      injection Hn as <-. destruct (_ =? _); apply nibble_range. }
    rewrite sign_extend4_cases, Hbit by done. split; [done|lia].
Qed.

Lemma INT4Weights_set_get_witness :
  (exists b', INT4Weights.setWeight int4_example 3 (-100) = Some b'
     /\ INT4Weights.getWeight b' 3 = Some (clamp4 (-100)))
  /\ (forall n, INT4Weights.nibble int4_example 3 = Some n -> Z.testbit n 3 = true ->
        INT4Weights.getWeight int4_example 3 = Some (n - 16) /\ n - 16 < 0).
Proof.
  apply INT4Weights_set_get.
  - apply INT4Weights.Build_allocated; [simpl; lia|reflexivity|reflexivity|].
    repeat constructor; unfold is_u8; simpl; lia.
  - simpl. lia.
  - unfold is_i8. lia.
Defined.

(** C10. At or beyond num_weights the accessors stop before touching the
    packed bytes: getWeight returns 0 and setWeight returns the block as it
    was, whatever the block holds and whatever the value. *)
Theorem INT4Weights_out_of_range (b : INT4Weights.t) (i v : Z) :
  INT4Weights.num_weights b <= i ->
  INT4Weights.getWeight b i = Some 0
  /\ INT4Weights.setWeight b i v = Some b.
Proof.
  intros Hi. unfold INT4Weights.getWeight, INT4Weights.setWeight.
  destruct (Z.geb_spec i (INT4Weights.num_weights b)); [done|lia].
Qed.

Lemma INT4Weights_out_of_range_witness :
  INT4Weights.getWeight int4_example 5 = Some 0
  /\ INT4Weights.setWeight int4_example 5 3 = Some int4_example.
Proof.
  apply INT4Weights_out_of_range. simpl. lia.
Defined.

(** ** FP32 to FP16 *)

Section Fp16.

Lemma land_low_bits x k : 0 <= k -> Z.land x (Z.ones k) = x mod 2 ^ k.
Proof. intros Hk. by apply Z.land_ones. Qed.

(** Fields that do not overlap are combined by addition. *)
Lemma lor_disjoint a b k :
  0 <= k -> 0 <= b < 2 ^ k -> Z.lor (a * 2 ^ k) b = a * 2 ^ k + b.
Proof.
  intros Hk Hb.
  assert (Hland : Z.land (a * 2 ^ k) b = 0).
  { apply Z.bits_inj'; intros i Hi. rewrite Z.land_spec, Z.bits_0.
    destruct (Z.lt_ge_cases i k).
    - by rewrite Z.mul_pow2_bits_low by lia.
    - rewrite (testbit_above b k i) by lia. apply andb_false_r. }
  by rewrite Z.add_nocarry_lxor, Z.lxor_lor.
Qed.

(** The rebiased exponent as the code computes it (unsigned 32-bit
    arithmetic narrowed to int16_t) is the mathematical one. *)
Lemma new_exp_exact e :
  0 <= e < 256 -> int16 (wrap32 (wrap32 (e - 127) + 15)) = e - 127 + 15.
Proof.
  intros He. unfold int16, to_signed, wrap32.
  rewrite Zplus_mod_idemp_l.
  change (2 ^ 32) with 4294967296. change (2 ^ 16) with 65536.
  change (2 ^ (16 - 1)) with 32768.
  destruct (Z.ltb_spec ((e - 127 + 15) mod 4294967296 mod 65536) 32768);
    Z.to_euclidean_division_equations; lia.
Qed.

Lemma fp32_fields bits :
  is_u32 bits ->
  Z.land (Z.shiftr bits 31) 0x1 = bits / 2 ^ 31
  /\ Z.land (Z.shiftr bits 23) 0xFF = (bits / 2 ^ 23) mod 2 ^ 8
  /\ Z.shiftr (Z.land bits 0x7FFFFF) 13 = (bits mod 2 ^ 23) / 2 ^ 13
  /\ 0 <= bits / 2 ^ 31 <= 1.
Proof.
  unfold is_u32. intros Hb.
  assert (H1 : Z.land (Z.shiftr bits 31) (Z.ones 1) = (bits / 2 ^ 31) mod 2 ^ 1)
    by (by rewrite land_low_bits, Z.shiftr_div_pow2 by lia).
  assert (H2 : Z.land (Z.shiftr bits 23) (Z.ones 8) = (bits / 2 ^ 23) mod 2 ^ 8)
    by (by rewrite land_low_bits, Z.shiftr_div_pow2 by lia).
  assert (H3 : Z.shiftr (Z.land bits (Z.ones 23)) 13 = (bits mod 2 ^ 23) / 2 ^ 13)
    by (by rewrite land_low_bits, Z.shiftr_div_pow2 by lia).
  change (Z.ones 1) with 0x1 in H1. change (Z.ones 8) with 0xFF in H2.
  change (Z.ones 23) with 0x7FFFFF in H3.
  rewrite H1, H2, H3. clear H1 H2 H3.
  repeat split; Z.to_euclidean_division_equations; lia.
Qed.

End Fp16.

(** C9. On every 32-bit pattern float_to_fp16 returns 0 when the rebiased
    exponent is at most 0, the infinity that keeps the sign when it is at
    least 31, and otherwise the 16-bit word with the sign of bit 31, the
    rebiased exponent in its five exponent bits and bits 22:13 of the input
    as its mantissa. *)
Theorem float_to_fp16_policy (bits : Z) :
  is_u32 bits ->
  let sign := Z.shiftr bits 31 in
  let new_exp := rebiased_exponent bits in
  let r := WeightLoader.float_to_fp16 bits in
  (new_exp <= 0 -> r = 0)
  /\ (31 <= new_exp -> r = Z.lor (Z.shiftl sign 15) 0x7C00)
  /\ (0 < new_exp < 31 ->
        0 <= r < 2 ^ 16
        /\ Z.testbit r 15 = Z.testbit bits 31
        /\ Z.land (Z.shiftr r 10) 0x1F = new_exp
        /\ Z.land r 0x3FF = Z.land (Z.shiftr bits 13) 0x3FF).
Proof.
  intros Hb sign new_exp r.
  destruct (fp32_fields bits Hb) as (Hs & He & Hm & Hs01).
  assert (Hexp : 0 <= Z.land (Z.shiftr bits 23) 0xFF < 256).
  { rewrite He. apply Z.mod_pos_bound. lia. }
  assert (Hsign : sign = bits / 2 ^ 31).
  { unfold sign. by rewrite Z.shiftr_div_pow2 by lia. }
  subst r. unfold WeightLoader.float_to_fp16.
  rewrite new_exp_exact by done.
  fold (rebiased_exponent bits). fold new_exp.
  rewrite Hs, <- Hsign, Hm.
  assert (Hshift : wrap32 (Z.shiftl sign 15) = sign * 2 ^ 15).
  { rewrite Z.shiftl_mul_pow2 by lia. unfold wrap32. apply Z.mod_small. lia. }
  split; [|split].
  - intros Hle. by destruct (Z.leb_spec new_exp 0); [|lia].
  - intros Hge. destruct (Z.leb_spec new_exp 0); [lia|].
    destruct (Z.geb_spec new_exp 31); [|lia].
    rewrite Hshift, Z.shiftl_mul_pow2 by lia.
    unfold wrap16. apply Z.mod_small.
    rewrite (lor_disjoint sign 0x7C00 15) by lia. lia.
  - intros Hmid. destruct (Z.leb_spec new_exp 0); [lia|].
    destruct (Z.geb_spec new_exp 31); [lia|].
    set (M := bits mod 2 ^ 23 / 2 ^ 13).
    assert (HM : 0 <= M < 2 ^ 10).
    { unfold M. change (2 ^ 23) with 8388608. change (2 ^ 13) with 8192.
      change (2 ^ 10) with 1024. Z.to_euclidean_division_equations; lia. }
    assert (Hr : wrap16 (Z.lor (Z.lor (wrap32 (Z.shiftl sign 15))
                                      (wrap32 (Z.shiftl new_exp 10))) M)
                 = sign * 2 ^ 15 + new_exp * 2 ^ 10 + M).
    { rewrite Hshift, Z.shiftl_mul_pow2 by lia.
      unfold wrap32. rewrite (Z.mod_small (new_exp * 2 ^ 10)) by lia.
      replace (sign * 2 ^ 15) with (sign * 2 ^ 5 * 2 ^ 10) by lia.
      rewrite <- !Z.shiftl_mul_pow2, <- Z.shiftl_lor by lia.
      rewrite !Z.shiftl_mul_pow2 by lia.
      rewrite (lor_disjoint sign new_exp 5) by lia.
      rewrite lor_disjoint by lia.
      unfold wrap16. rewrite Z.mod_small by lia. lia. }
    rewrite Hr. clear Hr.
    split; [lia|]. split; [|split].
    + rewrite !Z.testbit_eqb by lia. f_equal.
      rewrite <- Hsign.
      change (2 ^ 15) with 32768 in *. change (2 ^ 10) with 1024 in *.
      Z.to_euclidean_division_equations; lia.
    + change 0x1F with (Z.ones 5).
      rewrite land_low_bits, Z.shiftr_div_pow2 by lia.
      change (2 ^ 15) with 32768 in *. change (2 ^ 10) with 1024 in *.
      change (2 ^ 5) with 32.
      Z.to_euclidean_division_equations; lia.
    + change 0x3FF with (Z.ones 10).
      rewrite !land_low_bits, Z.shiftr_div_pow2 by lia.
      unfold M.
      change (2 ^ 15) with 32768 in *. change (2 ^ 10) with 1024 in *.
      change (2 ^ 23) with 8388608. change (2 ^ 13) with 8192.
      Z.to_euclidean_division_equations; lia.
Qed.

Lemma float_to_fp16_policy_witness :
  let bits := 0xC0490FDB in
  let sign := Z.shiftr bits 31 in
  let new_exp := rebiased_exponent bits in
  let r := WeightLoader.float_to_fp16 bits in
  (new_exp <= 0 -> r = 0)
  /\ (31 <= new_exp -> r = Z.lor (Z.shiftl sign 15) 0x7C00)
  /\ (0 < new_exp < 31 ->
        0 <= r < 2 ^ 16
        /\ Z.testbit r 15 = Z.testbit bits 31
        /\ Z.land (Z.shiftr r 10) 0x1F = new_exp
        /\ Z.land r 0x3FF = Z.land (Z.shiftr bits 13) 0x3FF).
Proof.
  apply (float_to_fp16_policy 0xC0490FDB). unfold is_u32. lia.
Defined.

(** ** Sizing the DDR region and layer addresses *)

Section DDRSize.

Import WeightLoader.

Lemma wrap64_add_l a b : wrap64 (wrap64 a + b) = wrap64 (a + b).
Proof. unfold wrap64. by rewrite Zplus_mod_idemp_l. Qed.

Lemma wrap64_add_r a b : wrap64 (a + wrap64 b) = wrap64 (a + b).
Proof. unfold wrap64. by rewrite Zplus_mod_idemp_r. Qed.

Lemma wrap64_sub a b : wrap64 (wrap64 a - wrap64 b) = wrap64 (a - b).
Proof. unfold wrap64. by rewrite <- Zminus_mod. Qed.

Lemma wrap64_idemp a : wrap64 (wrap64 a) = wrap64 a.
Proof. unfold wrap64. by rewrite Zmod_mod. Qed.

Lemma add_layer_size_sum total layer :
  add_layer_size total layer = wrap64 (total + layer_serialized_size layer).
Proof.
  unfold add_layer_size, layer_serialized_size.
  rewrite !wrap64_add_r.
  repeat (rewrite wrap64_add_l || rewrite <- Z.add_assoc).
  f_equal. lia.
Qed.

Lemma fold_left_step {A B} (f : A -> B -> A) (x : B) (l : list B) (a : A) :
  fold_left f (x :: l) a = fold_left f l (f a x).
Proof. reflexivity. Qed.

Lemma foldr_step {A B} (f : B -> A -> A) (x : B) (l : list B) (a : A) :
  foldr f a (x :: l) = f x (foldr f a l).
Proof. reflexivity. Qed.

Lemma fold_add_layer_size ls total :
  wrap64 (fold_left add_layer_size ls total)
  = wrap64 (total + foldr (fun layer acc => layer_serialized_size layer + acc) 0 ls).
Proof.
  revert total; induction ls as [|l ls IH]; intros total.
  - by rewrite Z.add_0_r.
  - rewrite fold_left_step, foldr_step, IH, add_layer_size_sum, wrap64_add_l, Z.add_assoc.
    reflexivity.
Qed.

Lemma fold_add_layer_size_snoc ls l total :
  fold_left add_layer_size (ls ++ [l]) total
  = add_layer_size (fold_left add_layer_size ls total) l.
Proof. by rewrite fold_left_app. Qed.

(** What calculateDDRSize computes is the required size of the staging
    contract, reduced to a size_t. *)
Lemma calculateDDRSize_required self :
  calculateDDRSize self = wrap64 (required_ddr (weights self)).
Proof.
  unfold calculateDDRSize, required_ddr.
  rewrite !wrap64_add_r, <- wrap64_add_l, fold_add_layer_size.
  rewrite Z.add_0_l.
  repeat (rewrite wrap64_add_l || rewrite <- Z.add_assoc).
  f_equal. lia.
Qed.

(** Consecutive layer addresses differ by the serialized size of the
    layer between them. *)
Lemma getLayerAddress_step self i layer :
  ModelWeights.layers (weights self) !! i = Some layer ->
  (S i < length (ModelWeights.layers (weights self)))%nat ->
  wrap64 (getLayerAddress self (Z.of_nat (S i)) - getLayerAddress self (Z.of_nat i))
  = wrap64 (layer_serialized_size layer).
Proof.
  intros Hl Hlt. unfold getLayerAddress, vsize.
  destruct (Z.geb_spec (Z.of_nat (S i)) (Z.of_nat (length (ModelWeights.layers (weights self)))));
    [lia|].
  destruct (Z.geb_spec (Z.of_nat i) (Z.of_nat (length (ModelWeights.layers (weights self)))));
    [lia|].
  rewrite !Nat2Z.id. rewrite (take_S_r _ _ _ Hl), fold_add_layer_size_snoc.
  rewrite add_layer_size_sum.
  set (base := fold_left _ _ _).
  rewrite wrap64_add_r, wrap64_sub. f_equal. lia.
Qed.

End DDRSize.

(** C8. allocateDDR fails exactly when the required size it computes
    exceeds the size of the region; the required size is the sum of the
    embeddings and lm_head at two bytes per element and, for every layer,
    the bytes of the six packed blocks and the four layer-norm vectors at
    two bytes per element, as a size_t. *)
Theorem allocateDDR_insufficient (self : WeightLoader.t) (phys_addr virt_addr size : Z) :
  (fst (WeightLoader.allocateDDR self phys_addr virt_addr size) = false
   <-> size < wrap64 (WeightLoader.required_ddr (WeightLoader.weights self)))
  /\ WeightLoader.calculateDDRSize self
     = wrap64 (WeightLoader.required_ddr (WeightLoader.weights self)).
Proof.
  split; [|apply calculateDDRSize_required].
  unfold WeightLoader.allocateDDR.
  rewrite calculateDDRSize_required. cbn [WeightLoader.weights].
  destruct (Z.gtb_spec (wrap64 (WeightLoader.required_ddr (WeightLoader.weights self))) size);
    simpl; split; intros; (done || lia).
Qed.


(** C5. On a loaded model of two layers with hidden_size 1 the two
    functions disagree: getLayerAddress puts 14 bytes between layer 0 and
    layer 1 and starts layer 0 at offset 4, while copyToDDR starts layer 0
    at offset 2 and writes 8 bytes for it. *)
Theorem getLayerAddress_copyToDDR_disagree :
  (fst <$> WeightLoader.loadFromBinary LittleEndian WeightLoader.init model_file_example)
    = Some true
  /\ WeightLoader.loaded loader_example = true
  /\ length (ModelWeights.layers (WeightLoader.weights loader_example)) = 2%nat
  /\ (fst <$> WeightLoader.copyToDDR LittleEndian loader_example (replicate 64 0))
    = Some true
  /\ WeightLoader.getLayerAddress loader_example 0 = 0x10000000 + 4
  /\ WeightLoader.getLayerAddress loader_example 1
     - WeightLoader.getLayerAddress loader_example 0 = 14
  /\ (snd <$> WeightLoader.staged_before LittleEndian loader_example (replicate 64 0) 0)
    = Some 2
  /\ (snd <$> WeightLoader.staged_before LittleEndian loader_example (replicate 64 0) 1)
    = Some (2 + 8).
Proof. vm_compute. repeat split; reflexivity. Qed.

(** ** The bounded queue *)

Section QueueRing.

Context {T : Type}.
Variable N : Z.
Hypothesis N_size_t : 0 < N < 2 ^ 64.
Variable dflt : T.

Import Queue.

Lemma wrap64_small x : 0 <= x <= N -> wrap64 x = x.
Proof. intros Hx. unfold wrap64. apply Z.mod_small. lia. Qed.

Lemma mod_same_small a b :
  0 <= a - b < N -> a mod N = b mod N -> a = b.
Proof.
  intros Hab Heq.
  assert (H0 : (a - b) mod N = 0) by (by rewrite Zminus_mod, Heq, Z.sub_diag, Zmod_0_l).
  rewrite Z.mod_small in H0 by lia. lia.
Qed.

Lemma slot_range a : 0 <= a mod N < N.
Proof. apply Z.mod_pos_bound. lia. Qed.

Lemma holds_init : holds N (init N dflt) [].
Proof.
  split; [|split; [done|simpl; lia]].
  constructor; simpl; rewrite ?length_replicate, ?Zmod_0_l; lia.
Qed.

Lemma push_full (q : Queue.t T) (x : T) : N <= count q -> push N q x = (false, q).
Proof. intros Hc. unfold push. by destruct (Z.geb_spec (count q) N); [|lia]. Qed.

Lemma push_room (q : Queue.t T) (items : list T) (x : T) :
  holds N q items -> count q < N ->
  exists q', push N q x = (true, q')
    /\ holds N q' (items ++ [x])
    /\ tail q' = (tail q + 1) mod N /\ head q' = head q
    /\ count q' = count q + 1.
Proof.
  intros ([Hlen Hcount Hhead Htail] & Hitems & Hslots) Hroom.
  unfold push. destruct (Z.geb_spec (count q) N); [lia|].
  pose proof (slot_range (head q + count q)) as Ht. rewrite <- Htail in Ht.
  rewrite !wrap64_small by lia.
  eexists; split; [reflexivity|]. split; [|done].
  split; [|split]; cbn [buffer head tail count].
  - constructor; cbn [buffer head tail count]; rewrite ?length_insert; try lia.
    rewrite Htail, Zplus_mod_idemp_l. f_equal. lia.
  - rewrite length_app. simpl. lia.
  - intros k Hk. rewrite length_app in Hk. simpl in Hk.
    destruct (decide (k = length items)) as [->|Hne].
    + rewrite Hitems, <- Htail, list_lookup_insert_eq by lia.
      by rewrite lookup_app_r, Nat.sub_diag by lia.
    + rewrite lookup_app_l by lia.
      rewrite list_lookup_insert_ne; [apply Hslots; lia|].
      rewrite Htail. intros Heq.
      pose proof (slot_range (head q + count q)).
      pose proof (slot_range (head q + Z.of_nat k)).
      apply Z2Nat.inj in Heq; [|lia|lia].
      apply mod_same_small in Heq; lia.
Qed.

Lemma pop_empty (q : Queue.t T) (item : T) : count q = 0 -> pop N q item = (false, item, q).
Proof. intros Hc. unfold pop. by rewrite Hc. Qed.

Lemma pop_item (q : Queue.t T) (x : T) (items : list T) (item : T) :
  holds N q (x :: items) ->
  exists q', pop N q item = (true, x, q')
    /\ holds N q' items
    /\ head q' = (head q + 1) mod N /\ tail q' = tail q
    /\ count q' = count q - 1.
Proof.
  intros ([Hlen Hcount Hhead Htail] & Hitems & Hslots).
  cbn [length] in Hitems.
  unfold pop. destruct (Z.eqb_spec (count q) 0); [lia|].
  pose proof (Hslots 0%nat ltac:(simpl; lia)) as H0.
  rewrite Z.add_0_r, Z.mod_small in H0 by lia. rewrite H0.
  rewrite !wrap64_small by lia.
  eexists; split; [reflexivity|]. split; [|done].
  pose proof (slot_range (head q + 1)).
  split; [|split]; cbn [buffer head tail count].
  - constructor; cbn [buffer head tail count]; try lia.
    rewrite Htail, Zplus_mod_idemp_l. f_equal. lia.
  - lia.
  - intros k Hk. rewrite Zplus_mod_idemp_l.
    replace (head q + 1 + Z.of_nat k) with (head q + Z.of_nat (S k)) by lia.
    apply (Hslots (S k)). simpl. lia.
Qed.

(** What was pushed is what was popped followed by what the ring
    holds. *)
Lemma run_holds ops :
  exists items,
    holds N (queue (run N dflt ops)) items
    /\ pushed (run N dflt ops) = popped (run N dflt ops) ++ items.
Proof.
  induction ops as [|o ops IH] using rev_ind.
  - exists []. split; [apply holds_init|done].
  - destruct IH as (items & Hq & Hfifo).
    unfold run in *. rewrite fold_left_app. cbn [fold_left].
    set (h := fold_left _ ops _) in *.
    destruct o as [x|]; cbn [run_op].
    + destruct (Z.lt_ge_cases (count (queue h)) N) as [Hroom|Hfull].
      * destruct (push_room _ _ x Hq Hroom) as (q' & -> & Hq' & _).
        exists (items ++ [x]). split; [done|].
        cbn [pushed popped]. by rewrite Hfifo, app_assoc.
      * rewrite push_full by done. by exists items.
    + unfold tryPop. destruct items as [|y items].
      * rewrite pop_empty by (destruct Hq as (_ & ? & _); simpl in *; lia).
        by exists [].
      * destruct (pop_item _ y items dflt Hq) as (q' & -> & Hq' & _).
        exists items. split; [done|].
        cbn [pushed popped]. by rewrite Hfifo, <- app_assoc.
Qed.

End QueueRing.

(** C7. After any sequence of push and tryPop on a queue of capacity N
    the items popped are a prefix of the items pushed; count is within
    [0, N], head and tail are within the buffer and tail is head + count
    modulo N; push returns false exactly when count = N and tryPop exactly
    when count = 0; a push that succeeds moves tail by one modulo N and a
    tryPop that succeeds moves head by one modulo N. *)
Theorem Queue_fifo {T : Type} (N : Z) (dflt : T) (ops : list (@Queue.op T)) :
  0 < N < 2 ^ 64 ->
  let h := Queue.run N dflt ops in
  let q := Queue.queue h in
  Queue.popped h `prefix_of` Queue.pushed h
  /\ Queue.ring N q
  /\ 0 <= Queue.tail q < N
  /\ (forall x, (Queue.push N q x).1 = false <-> Queue.count q = N)
  /\ (forall x, (Queue.tryPop N q x).1.1 = false <-> Queue.count q = 0)
  /\ (forall x, Queue.count q < N ->
        let q' := (Queue.push N q x).2 in
        Queue.tail q' = (Queue.tail q + 1) mod N
        /\ Queue.head q' = Queue.head q
        /\ Queue.count q' = Queue.count q + 1)
  /\ (forall x, 0 < Queue.count q ->
        let q' := (Queue.tryPop N q x).2 in
        Queue.head q' = (Queue.head q + 1) mod N
        /\ Queue.tail q' = Queue.tail q
        /\ Queue.count q' = Queue.count q - 1).
Proof.
  intros HN h q.
  destruct (run_holds N HN dflt ops) as (items & Hq & Hfifo).
  fold h in Hq, Hfifo. fold q in Hq.
  pose proof Hq as (Hring & Hlen & _). pose proof Hring as [_ Hcount _ Htail].
  split; [by exists items|]. split; [done|].
  split; [rewrite Htail; apply Z.mod_pos_bound; lia|].
  split; [|split; [|split]].
  - intros x. unfold Queue.push.
    destruct (Z.geb_spec (Queue.count q) N); simpl; split; intros; (done || lia).
  - intros x. unfold Queue.tryPop, Queue.pop.
    destruct (Z.eqb_spec (Queue.count q) 0); simpl; split; intros; (done || lia).
  - intros x Hroom.
    by destruct (push_room N HN q items x Hq Hroom) as (q' & -> & _ & ?).
  - intros x Hsome. destruct items as [|y items]; [simpl in Hlen; lia|].
    unfold Queue.tryPop.
    by destruct (pop_item N HN q y items x Hq) as (q' & -> & _ & ?).
Qed.

Lemma Queue_fifo_witness :
  let h := Queue.run 2 0 queue_ops_example in
  let q := Queue.queue h in
  Queue.popped h `prefix_of` Queue.pushed h
  /\ Queue.ring 2 q
  /\ 0 <= Queue.tail q < 2
  /\ (forall x, (Queue.push 2 q x).1 = false <-> Queue.count q = 2)
  /\ (forall x, (Queue.tryPop 2 q x).1.1 = false <-> Queue.count q = 0)
  /\ (forall x, Queue.count q < 2 ->
        let q' := (Queue.push 2 q x).2 in
        Queue.tail q' = (Queue.tail q + 1) mod 2
        /\ Queue.head q' = Queue.head q
        /\ Queue.count q' = Queue.count q + 1)
  /\ (forall x, 0 < Queue.count q ->
        let q' := (Queue.tryPop 2 q x).2 in
        Queue.head q' = (Queue.head q + 1) mod 2
        /\ Queue.tail q' = Queue.tail q
        /\ Queue.count q' = Queue.count q - 1).
Proof.
  apply (Queue_fifo 2 0 queue_ops_example). lia.
Defined.

(** ** The accelerator driver *)

Section Driver.

Variable host : endianness.

Import Accelerator.

(** Reading the status registers of the simulated register file gives
    back the words the object already has. *)
Lemma readStatus_zero_words a :
  status_words a = replicate 4 0 ->
  status_words (readStatus a) = replicate 4 0
  /\ status (readStatus a) = StatusOut.mk 0 0 0 0
  /\ token_counter (readStatus a) = token_counter a.
Proof.
  destruct a as [b c s cw sw ib ob kv tc]. cbn [status_words]. intros ->.
  by vm_compute.
Qed.

(** Nothing the interface offers writes the status words: they stay as
    the constructor zeroed them. *)
Lemma reachable_status_words a :
  reachable host a -> status_words a = replicate 4 0.
Proof.
  induction 1 as [|a i o k s m _ IH|a id len _ IH|a id tokens _ IH|a _ IH
                  |a token _ IH|a _ IH|a _ IH]; try done.
  - by apply readStatus_zero_words.
  - destruct (readStatus_zero_words a IH) as (Hw & Hs & _).
    unfold getNextToken. rewrite Hs. by cbn.
  - by apply readStatus_zero_words.
Qed.

(** So the status read back is never valid, and getNextToken returns
    false. *)
Lemma getNextToken_reachable a token :
  reachable host a -> (getNextToken a token).1 = (false, token).
Proof.
  intros Ha. pose proof (reachable_status_words a Ha) as Hw.
  destruct (readStatus_zero_words a Hw) as (_ & Hs & _).
  unfold getNextToken. rewrite Hs. by cbn.
Qed.

Lemma calls_reachable n a :
  reachable host a -> Forall (fun o => o.1 = false) (calls n a).
Proof.
  revert a; induction n as [|n IH]; intros a Ha; cbn [calls]; constructor.
  - unfold observe. cbn [fst]. by rewrite getNextToken_reachable.
  - apply IH. by constructor.
Qed.

Lemma no_double_count_silent last trace :
  Forall (fun o : bool * Z => o.1 = false) trace ->
  no_double_count last trace = true.
Proof.
  induction 1 as [|[y g] trace Hy _ IH]; [done|].
  simpl in Hy. subst y. exact IH.
Qed.







End Driver.




(** ** The engine *)

Section Generation.

Import Engine.


(** A streamed token is never taken for a marker: its text is one
    character, or starts with a bracket where the markers start with a
    line break. *)
Lemma detokenize_not_marker token :
  is_terminal_marker (detokenize token) = false
  /\ is_shutdown_marker (detokenize token) = false.
Proof.
  unfold detokenize, is_terminal_marker, is_shutdown_marker.
  destruct (token <? 128); [|done].
  cbn. by destruct (Ascii.eqb _ _).
Qed.

Lemma shell_push_ui evs w : ui (fold_left shell_push evs w) = ui w.
Proof.
  revert w; induction evs as [|ev evs IH]; intros w; [done|].
  cbn [fold_left]. rewrite IH.
  destruct ev as [task|cmd]; [|done].
  unfold shell_push, pushTask.
  destruct (Queue.full _ _); [done|]. by destruct (Queue.push _ _ _).
Qed.

(** One pass of the loop: it streams at most one token and goes on
    with the state as it was, or it returns having sent exactly one
    closing text. *)
Lemma runGeneration_pass_spec st w token_count :
  EngineState.status st = GENERATING ->
  EngineState.cancelCurrent st = false ->
  EngineState.resetRequested st = false ->
  match runGeneration_pass st w token_count with
  | Continue st' w' token_count' =>
      st' = st /\ taskQueue w' = taskQueue w
      /\ exists out, ui w' = ui w ++ out
           /\ count_markers is_terminal_marker out = 0%nat
           /\ count_markers is_shutdown_marker out = 0%nat
  | Return st' w' =>
      taskQueue w' = taskQueue w
      /\ EngineState.resetRequested st' = false
      /\ EngineState.currentTaskId st' = EngineState.currentTaskId st
      /\ exists out, ui w' = ui w ++ out
           /\ ((EngineState.status st' = SHUTTING_DOWN
                /\ count_markers is_terminal_marker out = 0%nat
                /\ count_markers is_shutdown_marker out = 1%nat)
               \/ (EngineState.status st' = GENERATING
                   /\ count_markers is_terminal_marker out = 1%nat
                   /\ count_markers is_shutdown_marker out = 0%nat))
  end.
Proof.
  destruct st as [s id c r]; simpl; intros -> -> ->.
  unfold runGeneration_pass.
  destruct (token_count <? MAX_TOKENS).
  2:{ cbn. repeat split; try done. exists [msg_max_tokens]. split; [done|]. by right. }
  unfold runGeneration_body.
  destruct (Queue.tryPop _ _ _) as [[popped cmd] q].
  destruct popped; [destruct cmd as [[]]|]; cbn.
  - repeat split; try done. exists [msg_aborted]. split; [done|]. by right.
  - repeat split; try done. exists [msg_aborted; msg_memory_cleared].
    split; [by rewrite <- app_assoc|]. by right.
  - repeat split; try done. exists [msg_aborted_shutdown]. split; [done|]. by left.
  - destruct (Accelerator.getNextToken _ _) as [[yielded tok] a].
    destruct yielded; [destruct (tok =? EOS_TOKEN)|]; cbn.
    + repeat split; try done. exists [msg_eos]. split; [done|]. by right.
    + repeat split; try done. exists [detokenize tok]. split; [done|].
      destruct (detokenize_not_marker tok) as [H1 H2]. cbn. by rewrite H1, H2.
    + repeat split; try done. exists []. by rewrite app_nil_r.
Qed.



Lemma shell_push_command_count evs w :
  0 < Queue.count (commandQueue w) ->
  0 < Queue.count (commandQueue (fold_left shell_push evs w)).
Proof.
  revert w; induction evs as [|ev evs IH]; intros w Hq; [done|].
  cbn [fold_left]. apply IH.
  destruct ev as [task|cmd].
  - unfold shell_push, pushTask.
    destruct (Queue.full _ _); [done|]. by destruct (Queue.push _ _ _).
  - unfold shell_push, Queue.push. cbn.
    destruct (Z.geb_spec (Queue.count (commandQueue w)) COMMAND_QUEUE_SIZE); [done|].
    cbn. unfold wrap64, COMMAND_QUEUE_SIZE in *. rewrite Z.mod_small; lia.
Qed.












End Generation.

Section GenerationRuns.

Variable host : endianness.
Variable char_is_signed : bool.

Import Engine.


End GenerationRuns.




(** ** The states of the engine thread *)

Section EngineStates.

Variable host : endianness.
Variable char_is_signed : bool.

Import Engine.

Lemma task_queue_size : 0 < TASK_QUEUE_SIZE < 2 ^ 64.
Proof. unfold TASK_QUEUE_SIZE. lia. Qed.

Lemma system_inv_boot : system_inv (boot host).
Proof.
  split; [simpl; lia|]. split; [|by left].
  exists []. split; [|constructor].
  apply holds_init, task_queue_size.
Qed.

Lemma shell_push_inv w ev items :
  Queue.holds TASK_QUEUE_SIZE (taskQueue w) items ->
  Forall (fun task => 1 <= Task.id task) items ->
  match ev with PushTask task => 1 <= Task.id task | PushCommand _ => True end ->
  exists items',
    Queue.holds TASK_QUEUE_SIZE (taskQueue (shell_push w ev)) items'
    /\ Forall (fun task => 1 <= Task.id task) items'.
Proof.
  intros Hq Hids Hev. destruct ev as [task|cmd]; [|by exists items].
  unfold shell_push, pushTask, Queue.full.
  destruct (Z.geb_spec (Queue.count (taskQueue w)) TASK_QUEUE_SIZE); [by exists items|].
  destruct (push_room TASK_QUEUE_SIZE task_queue_size (taskQueue w) items task Hq)
    as (q' & -> & Hq' & _); [lia|].
  exists (items ++ [task]). split; [done|].
  apply Forall_app. split; [done|]. by constructor.
Qed.

Lemma shell_step_inv line s s' :
  shell_step line s = Some s' -> system_inv s -> system_inv s'.
Proof.
  unfold shell_step. intros Hstep Hinv.
  pose proof Hinv as (Hnext & (items & Hq & Hids) & Hpc).
  destruct (quit (shell s)); [done|].
  destruct (String.eqb line EmptyString); [by injection Hstep as <-|].
  assert (Hcmd : forall cmd q n,
    Some (mkSystem (at_pc s) (state s)
            (shell_push (the_world s) (PushCommand cmd)) (mkShell n q)) = Some s' ->
    1 <= n -> system_inv s').
  { intros cmd q n [= <-] Hn. split; [done|]. split; [|done]. by exists items. }
  destruct (String.eqb line "/quit"); [by eapply Hcmd|].
  destruct (String.eqb line "/stop"); [by eapply Hcmd|].
  destruct (String.eqb line "/reset"); [by eapply Hcmd|].
  destruct (Z.geb_spec (nextTaskId (shell s)) (2 ^ 31 - 1)); [done|].
  injection Hstep as <-. split; [simpl; lia|]. split; [|done].
  cbn [the_world]. by apply (shell_push_inv _ (PushTask _) items).
Qed.

Lemma engine_step_inv s s' :
  engine_step host char_is_signed s = Some s' -> system_inv s -> system_inv s'.
Proof.
  unfold Engine.engine_step. intros Hstep (Hnext & (items & Hq & Hids) & Hpc).
  destruct s as [pc st w sh]. cbn [at_pc state the_world shell] in *.
  destruct pc as [|task token_count|]; [| |done].
  - destruct Hpc as [(Hs & Hid & Hr)|Hs]; rewrite Hs in Hstep.
    + destruct (Queue.tryPop COMMAND_QUEUE_SIZE _ _) as [[popped cmd] q].
      destruct popped.
      * unfold handleTopLevelCommand in Hstep.
        destruct cmd as [[]]; cbn in Hstep; injection Hstep as <-;
          (split; [done|]); (split; [by exists items|]); cbn; auto.
      * cbn [taskQueue with_commandQueue] in Hstep.
        destruct items as [|task items].
        -- unfold Queue.tryPop in Hstep. rewrite pop_empty in Hstep
             by (destruct Hq as (_ & ? & _); simpl in *; lia).
           injection Hstep as <-. split; [done|]. split; [by exists []|]. cbn. auto.
        -- unfold Queue.tryPop in Hstep.
           destruct (pop_item TASK_QUEUE_SIZE task_queue_size _ task items Task.init Hq)
             as (q' & Hpop & Hq' & _).
           rewrite Hpop in Hstep. cbn in Hstep. injection Hstep as <-.
           apply Forall_cons in Hids as [Hid1 Hids].
           split; [done|]. split; [by exists items|]. by cbn.
    + injection Hstep as <-. split; [done|]. split; [by exists items|]. done.
  - destruct Hpc as (Hs & Hid & Htask & Hc & Hr).
    pose proof (runGeneration_pass_spec st w token_count Hs Hc Hr) as Hpass.
    destruct (runGeneration_pass st w token_count) as [st1 w1 tc1|st1 w1];
      injection Hstep as <-.
    + destruct Hpass as (-> & Htq & _). split; [done|].
      split; [exists items; cbn [the_world]; by rewrite Htq|]. by cbn.
    + destruct Hpass as (Htq & Hr1 & Hid1 & out & _ & Hcase). split; [done|].
      split; [exists items; cbn [the_world]; by rewrite Htq|]. cbn [at_pc state].
      unfold after_generation.
      destruct Hcase as [(Hs1 & _)|(Hs1 & _)]; rewrite Hs1; [by right|].
      left. by cbn.
Qed.

Lemma reachable_inv s : reachable host char_is_signed s -> system_inv s.
Proof.
  induction 1 as [|s s' _ IH Hstep]; [apply system_inv_boot|].
  destruct Hstep as [s s' Hstep|line s s' Hstep].
  - by eapply engine_step_inv.
  - by eapply shell_step_inv.
Qed.

Lemma run_schedule_reachable sched s s' :
  reachable host char_is_signed s ->
  run_schedule host char_is_signed sched s = Some s' ->
  reachable host char_is_signed s'.
Proof.
  revert s; induction sched as [|[line|] sched IH]; intros s Hs Hrun; cbn in Hrun.
  - by injection Hrun as <-.
  - destruct (shell_step line s) as [s1|] eqn:H1; [|done].
    apply (IH s1); [|done]. eapply reachable_step; [done|]. by eapply step_shell.
  - destruct (Engine.engine_step host char_is_signed s) as [s1|] eqn:H1; [|done].
    apply (IH s1); [|done]. eapply reachable_step; [done|]. by eapply step_engine.
Qed.

(** A line read by main changes the queues and main's own variables,
    wherever the thread is. *)
Lemma shell_step_frame line s s' :
  shell_step line s = Some s' ->
  exists w' sh',
    s' = mkSystem (at_pc s) (state s) w' sh'
    /\ forall p st,
         shell_step line (mkSystem p st (the_world s) (shell s))
         = Some (mkSystem p st w' sh').
Proof.
  destruct s as [p0 st0 w sh]. unfold shell_step. cbn [shell the_world at_pc state].
  destruct (quit sh); [done|].
  destruct (String.eqb line EmptyString); [intros [= <-]; by eexists _, _|].
  destruct (String.eqb line "/quit"); [intros [= <-]; by eexists _, _|].
  destruct (String.eqb line "/stop"); [intros [= <-]; by eexists _, _|].
  destruct (String.eqb line "/reset"); [intros [= <-]; by eexists _, _|].
  destruct (nextTaskId sh >=? 2 ^ 31 - 1); [done|].
  intros [= <-]; by eexists _, _.
Qed.

Lemma thread_inv_boot : Thread.inv (Thread.boot host).
Proof. apply system_inv_boot. Qed.

Lemma thread_shell_step_inv line th th' :
  Thread.shell_step line th = Some th' -> Thread.inv th -> Thread.inv th'.
Proof.
  unfold Thread.shell_step, Thread.inv. destruct th as [s r]. cbn [Thread.sys Thread.returned].
  destruct (shell_step line s) as [s1|] eqn:Hstep; [|done]. intros [= <-].
  cbn [Thread.sys Thread.returned].
  destruct r; [|by eapply shell_step_inv].
  destruct (shell_step_frame line s s1 Hstep) as (w' & sh' & -> & Hframe).
  cbn [state the_world shell at_pc].
  intros (Hinv & Hst & Hr & Htask). split; [|done].
  eapply shell_step_inv; [apply Hframe|exact Hinv].
Qed.

Lemma thread_engine_step_inv th th' :
  Thread.engine_step host char_is_signed th = Some th' -> Thread.inv th -> Thread.inv th'.
Proof.
  unfold Thread.engine_step, Thread.inv. destruct th as [s r].
  cbn [Thread.sys Thread.returned].
  destruct r.
  { intros [= <-] (Hinv & _). exact Hinv. }
  destruct (at_pc s) as [|task token_count|] eqn:Hpc.
  - destruct (engine_step host char_is_signed s) as [s1|] eqn:Hstep; [|done].
    intros [= <-] Hinv. by eapply engine_step_inv.
  - intros Hstep Hinv.
    pose proof Hinv as (_ & _ & Hat). rewrite Hpc in Hat.
    destruct Hat as (Hs & Hid & Htask & Hc & Hr).
    pose proof (runGeneration_pass_spec (state s) (the_world s) token_count Hs Hc Hr)
      as Hpass.
    assert (Hcoarse : forall s1, engine_step host char_is_signed s = Some s1 ->
              system_inv s1) by (intros s1 H1; by eapply engine_step_inv).
    unfold engine_step in Hcoarse. rewrite Hpc in Hcoarse.
    destruct (runGeneration_pass (state s) (the_world s) token_count)
      as [st1 w1 tc1|st1 w1]; injection Hstep as <-; cbn [Thread.sys Thread.returned].
    + by apply Hcoarse.
    + cbn [state the_world shell at_pc].
      destruct Hpass as (_ & Hr1 & Hid1 & out & _ & Hcase).
      split; [by apply Hcoarse|].
      split; [destruct Hcase as [(? & _)|(? & _)]; [by right|by left]|].
      split; [done|]. exists task, token_count. rewrite Hid1. done.
  - destruct (engine_step host char_is_signed s) as [s1|] eqn:Hstep; [|done].
    intros [= <-] Hinv. by eapply engine_step_inv.
Qed.

Lemma thread_reachable_inv th :
  Thread.reachable host char_is_signed th -> Thread.inv th.
Proof.
  induction 1 as [|th th' _ IH Hstep]; [apply thread_inv_boot|].
  destruct Hstep as [th th' Hstep|line th th' Hstep].
  - by eapply thread_engine_step_inv.
  - by eapply thread_shell_step_inv.
Qed.

Lemma thread_run_schedule_reachable sched th th' :
  Thread.reachable host char_is_signed th ->
  Thread.run_schedule host char_is_signed sched th = Some th' ->
  Thread.reachable host char_is_signed th'.
Proof.
  revert th; induction sched as [|[line|] sched IH]; intros th Hth Hrun; cbn in Hrun.
  - by injection Hrun as <-.
  - destruct (Thread.shell_step line th) as [th1|] eqn:H1; [|done].
    apply (IH th1); [|done]. eapply Thread.reachable_step; [done|].
    by eapply Thread.step_shell.
  - destruct (Thread.engine_step host char_is_signed th) as [th1|] eqn:H1; [|done].
    apply (IH th1); [|done]. eapply Thread.reachable_step; [done|].
    by eapply Thread.step_engine.
Qed.

(** The states of [Engine.reachable] are states of the thread seen this
    way: a pass that returns is two steps here. *)
Lemma reachable_thread s :
  reachable host char_is_signed s ->
  Thread.reachable host char_is_signed (Thread.mk s false).
Proof.
  induction 1 as [|s s' Hs IH Hstep]; [constructor|].
  destruct Hstep as [s s' Hstep|line s s' Hstep].
  - unfold engine_step in Hstep.
    destruct (at_pc s) as [|task token_count|] eqn:Hpc.
    + eapply Thread.reachable_step; [exact IH|]. apply Thread.step_engine.
      unfold Thread.engine_step. cbn [Thread.sys Thread.returned]. rewrite Hpc.
      unfold engine_step. rewrite Hpc. by rewrite Hstep.
    + destruct (runGeneration_pass (state s) (the_world s) token_count)
        as [st1 w1 tc1|st1 w1] eqn:Hpass; injection Hstep as <-.
      * eapply Thread.reachable_step; [exact IH|]. apply Thread.step_engine.
        unfold Thread.engine_step. cbn [Thread.sys Thread.returned].
        by rewrite Hpc, Hpass.
      * eapply Thread.reachable_step.
        -- eapply Thread.reachable_step; [exact IH|]. apply Thread.step_engine.
           unfold Thread.engine_step. cbn [Thread.sys Thread.returned].
           rewrite Hpc, Hpass. reflexivity.
        -- apply Thread.step_engine. reflexivity.
    + done.
  - eapply Thread.reachable_step; [exact IH|]. apply (Thread.step_shell _ _ line).
    unfold Thread.shell_step. cbn [Thread.sys Thread.returned]. by rewrite Hstep.
Qed.

End EngineStates.

Lemma thread_after_reachable sched :
  Thread.reachable LittleEndian false (thread_after sched).
Proof.
  unfold thread_after.
  destruct (Thread.run_schedule _ _ _ _) as [th|] eqn:Hrun; cbn [default].
  - eapply thread_run_schedule_reachable; [apply Thread.reachable_boot|exact Hrun].
  - apply Thread.reachable_boot.
Qed.

(** C4, as the code has it.  At every state the engine thread reaches,
    the return of runGeneration before the if that follows it included:
    Generating implies that currentTaskId is set; Idle implies that
    currentTaskId is -1 and resetRequested is false; and no step leaves
    ShuttingDown, the if after runGeneration in particular.  Nothing is
    said of cancelCurrent in Idle.  The states of [Engine.reachable] are
    among them. *)
Theorem engine_state_invariants (host : endianness) (char_is_signed : bool)
    (th : Thread.t) :
  Thread.reachable host char_is_signed th ->
  let st := Engine.state (Thread.sys th) in
  (EngineState.status st = GENERATING -> EngineState.currentTaskId st <> -1)
  /\ (EngineState.status st = IDLE ->
        EngineState.currentTaskId st = -1 /\ EngineState.resetRequested st = false)
  /\ (forall th', Thread.step host char_is_signed th th' ->
        EngineState.status st = SHUTTING_DOWN ->
        EngineState.status (Engine.state (Thread.sys th')) = SHUTTING_DOWN)
  /\ (forall s, Engine.reachable host char_is_signed s ->
        Thread.reachable host char_is_signed (Thread.mk s false)).
Proof.
  intros Hth st. pose proof (thread_reachable_inv host char_is_signed th Hth) as Hinv.
  unfold Thread.inv in Hinv. subst st.
  destruct th as [s r]. cbn [Thread.sys Thread.returned] in *.
  assert (Hcases :
    (r = true
     /\ (EngineState.status (Engine.state s) = GENERATING
         \/ EngineState.status (Engine.state s) = SHUTTING_DOWN)
     /\ EngineState.currentTaskId (Engine.state s) <> -1)
    \/ (r = false /\ Engine.system_inv s)).
  { destruct r; [left|by right].
    destruct Hinv as (_ & Hst & _ & task & tc & _ & -> & ?). split; [done|].
    split; [done|lia]. }
  split; [|split; [|split]].
  - intros Hg. destruct Hcases as [(_ & _ & ?)|(_ & _ & _ & Hpc)]; [done|].
    destruct (Engine.at_pc s); [| |congruence].
    + destruct Hpc as [(? & _)|?]; congruence.
    + destruct Hpc as (_ & -> & ? & _). lia.
  - intros Hi. destruct Hcases as [(_ & [?|?] & _)|(_ & _ & _ & Hpc)]; try congruence.
    destruct (Engine.at_pc s); [|destruct Hpc; congruence|congruence].
    destruct Hpc as [(_ & ? & ?)|?]; [done|congruence].
  - intros th' Hstep Hsd.
    inversion Hstep as [th0 th0' Hengine|line th0 th0' Hshell]; subst th0 th0'.
    + unfold Thread.engine_step in Hengine. cbn [Thread.sys Thread.returned] in Hengine.
      destruct Hcases as [(-> & _)|(-> & _ & _ & Hpc)].
      * injection Hengine as <-. cbn. unfold Engine.after_generation. by rewrite Hsd.
      * destruct (Engine.at_pc s) eqn:Hat.
        -- unfold Engine.engine_step in Hengine. rewrite Hat, Hsd in Hengine.
           by injection Hengine as <-.
        -- destruct Hpc as (? & _). congruence.
        -- unfold Engine.engine_step in Hengine. by rewrite Hat in Hengine.
    + unfold Thread.shell_step in Hshell. cbn [Thread.sys Thread.returned] in Hshell.
      destruct (Engine.shell_step line s) as [s1|] eqn:Hline; [|done].
      injection Hshell as <-. cbn [Thread.sys].
      destruct (shell_step_frame line _ s1 Hline) as (w' & sh' & -> & _). done.
  - intros s0. apply reachable_thread.
Qed.

Lemma engine_state_invariants_witness :
  (EngineState.status (Engine.state (Thread.sys (thread_after generating_schedule)))
   = GENERATING
   /\ EngineState.currentTaskId
        (Engine.state (Thread.sys (thread_after generating_schedule))) <> -1)
  /\ (EngineState.status (Engine.state (Thread.sys (thread_after []))) = IDLE
      /\ EngineState.currentTaskId (Engine.state (Thread.sys (thread_after []))) = -1
      /\ EngineState.resetRequested (Engine.state (Thread.sys (thread_after [])))
         = false)
  /\ (Thread.returned (thread_after quit_schedule) = true
      /\ EngineState.status (Engine.state (Thread.sys (thread_after quit_schedule)))
         = SHUTTING_DOWN
      /\ forall th', Thread.step LittleEndian false (thread_after quit_schedule) th' ->
           EngineState.status (Engine.state (Thread.sys th')) = SHUTTING_DOWN).
Proof.
  pose proof (engine_state_invariants LittleEndian false (thread_after generating_schedule)
                (thread_after_reachable generating_schedule)) as (Hg & _).
  pose proof (engine_state_invariants LittleEndian false (thread_after [])
                (thread_after_reachable [])) as (_ & Hi & _).
  pose proof (engine_state_invariants LittleEndian false (thread_after quit_schedule)
                (thread_after_reachable quit_schedule)) as (_ & _ & Hsd & _).
  assert (H1 : EngineState.status
                 (Engine.state (Thread.sys (thread_after generating_schedule)))
               = GENERATING) by (vm_compute; reflexivity).
  assert (H2 : EngineState.status (Engine.state (Thread.sys (thread_after []))) = IDLE)
    by (vm_compute; reflexivity).
  assert (H3 : EngineState.status
                 (Engine.state (Thread.sys (thread_after quit_schedule)))
               = SHUTTING_DOWN) by (vm_compute; reflexivity).
  split; [split; [exact H1|exact (Hg H1)]|].
  split; [split; [exact H2|exact (Hi H2)]|].
  split; [vm_compute; reflexivity|]. split; [exact H3|].
  intros th' Hstep. exact (Hsd th' Hstep H3).
Defined.

(** C4 as stated fails after a generation is stopped: the engine is back
    in Idle, with no current task, and cancelCurrent is still true. *)
Lemma idle_with_cancel_flag :
  match Engine.run_schedule LittleEndian false stop_schedule (Engine.boot LittleEndian) with
  | Some s =>
      EngineState.status (Engine.state s) = IDLE
      /\ EngineState.currentTaskId (Engine.state s) = -1
      /\ EngineState.cancelCurrent (Engine.state s) = true
  | None => False
  end
  /\ (forall s,
        Engine.run_schedule LittleEndian false stop_schedule (Engine.boot LittleEndian)
        = Some s ->
        Engine.reachable LittleEndian false s).
Proof.
  split.
  - vm_compute. repeat split; reflexivity.
  - intros s Hrun.
    eapply run_schedule_reachable; [apply Engine.reachable_boot|exact Hrun].
Qed.

(* ================================================================== *)
(** * Further properties of the code *)

(** ** Configuration words *)

Section ConfigWords.

Lemma le_bytes_app n m v :
  le_bytes (n + m) v = le_bytes n v ++ le_bytes m (v / 256 ^ Z.of_nat n).
Proof.
  revert v; induction n as [|n IH]; intros v.
  - simpl. by rewrite Z.div_1_r.
  - cbn [Nat.add le_bytes app]. rewrite IH. f_equal. f_equal. f_equal.
    rewrite Nat2Z.inj_succ, Z.pow_succ_r, Z.div_div by lia. done.
Qed.

Lemma le_bytes_mod n v : le_bytes n (v mod 256 ^ Z.of_nat n) = le_bytes n v.
Proof.
  revert v; induction n as [|n IH]; intros v; [done|].
  cbn [le_bytes]. rewrite Nat2Z.inj_succ, Z.pow_succ_r by lia.
  assert (0 < 256 ^ Z.of_nat n) by (apply Z.pow_pos_nonneg; lia).
  f_equal.
  - rewrite Z.rem_mul_r by lia.
    rewrite (Z.mul_comm 256 (_ mod _)), Z.mod_add by lia. by rewrite Z.mod_mod by lia.
  - rewrite <- (IH (v / 256)). f_equal.
    rewrite Z.rem_mul_r by lia.
    rewrite Z.add_comm, (Z.mul_comm 256 (_ mod _)), Z.div_add_l by lia.
    rewrite (Z.div_small (v mod 256)) by (apply Z.mod_pos_bound; lia).
    by rewrite Z.add_0_r.
Qed.

(** A 64-bit member is laid out as its two halves, in the order of the
    host. *)
Lemma store_address_words host addr :
  store host 8 addr = bytes_of_words host (address_words host addr).
Proof.
  change 8%nat with (4 + 4)%nat. unfold store, address_words.
  destruct host; cbn [bytes_of_words store]; rewrite app_nil_r, le_bytes_app.
  - by rewrite (le_bytes_mod 4).
  - by rewrite rev_app_distr, (le_bytes_mod 4).
Qed.

Lemma bytes_of_words_app host ws1 ws2 :
  bytes_of_words host (ws1 ++ ws2) = bytes_of_words host ws1 ++ bytes_of_words host ws2.
Proof.
  induction ws1 as [|w ws1 IH]; [done|].
  cbn [app bytes_of_words]. by rewrite IH, app_assoc.
Qed.

Lemma object_bytes_layout host c :
  ConfigIn.object_bytes host c = bytes_of_words host (config_layout host c).
Proof.
  unfold ConfigIn.object_bytes, config_layout.
  rewrite !bytes_of_words_app, !store_address_words.
  cbn [bytes_of_words]. by rewrite <- !app_assoc.
Qed.

Lemma address_words_range host addr :
  is_u64 addr -> Forall is_u32 (address_words host addr).
Proof.
  unfold is_u64, is_u32. intros Ha.
  assert (0 <= addr mod 2 ^ 32 < 2 ^ 32) by (apply Z.mod_pos_bound; lia).
  assert (0 <= addr / 2 ^ 32 < 2 ^ 32).
  { split; [apply Z.div_pos; lia|]. apply Z.div_lt_upper_bound; lia. }
  destruct host; repeat constructor; lia.
Qed.

Lemma config_layout_range host c :
  ConfigIn.wf c ->
  Forall is_u32 (config_layout host c) /\ length (config_layout host c) = 38%nat.
Proof.
  intros []. unfold config_layout. split.
  - repeat (apply Forall_app; split; [by apply address_words_range|]).
    apply Forall_app. split; [|done].
    repeat (apply Forall_cons; split; [done|]). constructor.
  - rewrite !length_app. destruct host; simpl; lia.
Qed.

(** What pack leaves in the array, whatever the array held. *)
Lemma ConfigIn_pack_layout_eq host c words :
  ConfigIn.wf c -> ConfigIn.pack host c words = config_layout host c.
Proof.
  intros Hc. destruct (config_layout_range host c Hc) as [Hrange Hlen].
  unfold ConfigIn.pack, memcpy.
  rewrite object_bytes_layout.
  rewrite take_ge by (rewrite length_bytes_of_words, Hlen; lia).
  rewrite <- Hlen. by apply words_of_bytes_of_words.
Qed.

End ConfigWords.

(** X1. pack writes the members in declaration order, one word per
    32-bit member and two per address, the halves of an address in the
    order of the host: low word first on a little-endian host, high word
    first on a big-endian one.  From word 6 on the words are the 32-bit
    members themselves, on either host. *)
Theorem ConfigIn_pack_layout (host : endianness) (c : ConfigIn.t) (words : list Z) :
  ConfigIn.wf c ->
  ConfigIn.pack host c words = config_layout host c
  /\ drop 6 (ConfigIn.pack host c words)
     = [ConfigIn.stride c; ConfigIn.max_tokens c; ConfigIn.batch_size c;
        ConfigIn.sequence_length c; ConfigIn.num_layers c; ConfigIn.hidden_size c;
        ConfigIn.num_heads c; ConfigIn.vocab_size c; ConfigIn.prompt_length c;
        ConfigIn.task_id c; ConfigIn.task_type c; ConfigIn.flags c]
       ++ ConfigIn.reserved c.
Proof.
  intros Hc. rewrite ConfigIn_pack_layout_eq by done. split; [done|].
  unfold config_layout, address_words. by destruct host.
Qed.

Lemma ConfigIn_pack_layout_witness :
  let c := config_roundtrip_example in
  ConfigIn.pack BigEndian c (replicate 38 0) = config_layout BigEndian c
  /\ drop 6 (ConfigIn.pack BigEndian c (replicate 38 0))
     = [ConfigIn.stride c; ConfigIn.max_tokens c; ConfigIn.batch_size c;
        ConfigIn.sequence_length c; ConfigIn.num_layers c; ConfigIn.hidden_size c;
        ConfigIn.num_heads c; ConfigIn.vocab_size c; ConfigIn.prompt_length c;
        ConfigIn.task_id c; ConfigIn.task_type c; ConfigIn.flags c]
       ++ ConfigIn.reserved c.
Proof.
  apply (ConfigIn_pack_layout BigEndian config_roundtrip_example).
  constructor; try done. apply Forall_replicate. unfold is_u32. lia.
Defined.

(** X2. getAddress reads back what setAddress wrote, and setAddress
    changes the two words it names and no other. *)
Theorem ConfigIn_setAddress_getAddress (words : list Z) (start_word : nat) (addr : Z) :
  is_u64 addr ->
  (S start_word < length words)%nat ->
  ConfigIn.getAddress (ConfigIn.setAddress words start_word addr) start_word = Some addr
  /\ length (ConfigIn.setAddress words start_word addr) = length words
  /\ (forall j, j <> start_word -> j <> S start_word ->
        ConfigIn.setAddress words start_word addr !! j = words !! j).
Proof.
  unfold is_u64. intros Ha Hlen. unfold ConfigIn.getAddress, ConfigIn.setAddress.
  split; [|split].
  - rewrite list_lookup_insert_ne by lia.
    rewrite !list_lookup_insert_eq by (rewrite ?length_insert; lia).
    f_equal. unfold wrap32, wrap64.
    change 0xFFFFFFFF with (Z.ones 32).
    rewrite Z.land_ones, Z.shiftr_div_pow2, Z.shiftl_mul_pow2 by lia.
    assert (0 <= addr / 2 ^ 32 < 2 ^ 32).
    { split; [apply Z.div_pos; lia|]. apply Z.div_lt_upper_bound; lia. }
    rewrite Z.mod_mod, (Z.mod_small (addr / 2 ^ 32)) by lia.
    rewrite (Z.mod_small (addr / 2 ^ 32 * 2 ^ 32)) by lia.
    rewrite lor_disjoint by (try apply Z.mod_pos_bound; lia).
    pose proof (Z.div_mod addr (2 ^ 32)). lia.
  - by rewrite !length_insert.
  - intros j H1 H2. by rewrite !list_lookup_insert_ne by lia.
Qed.

Lemma ConfigIn_setAddress_getAddress_witness :
  ConfigIn.getAddress (ConfigIn.setAddress (replicate 38 0) 2 0x1122334455667788) 2
  = Some 0x1122334455667788
  /\ length (ConfigIn.setAddress (replicate 38 0) 2 0x1122334455667788)
     = length (replicate 38 0 : list Z)
  /\ (forall j, j <> 2%nat -> j <> 3%nat ->
        ConfigIn.setAddress (replicate 38 0) 2 0x1122334455667788 !! j
        = replicate 38 0 !! j).
Proof.
  apply ConfigIn_setAddress_getAddress; [unfold is_u64; lia|simpl; lia].
Defined.

(** X3. On a little-endian host getAddress finds the three addresses in
    the packed words at words 0, 2 and 4; on a big-endian host it finds
    each address with its halves exchanged. *)
Theorem ConfigIn_pack_getAddress (c : ConfigIn.t) (words : list Z) :
  ConfigIn.wf c ->
  let swap a := (a mod 2 ^ 32) * 2 ^ 32 + a / 2 ^ 32 in
  ConfigIn.getAddress (ConfigIn.pack LittleEndian c words) 0
    = Some (ConfigIn.input_buffer_addr c)
  /\ ConfigIn.getAddress (ConfigIn.pack LittleEndian c words) 2
    = Some (ConfigIn.output_buffer_addr c)
  /\ ConfigIn.getAddress (ConfigIn.pack LittleEndian c words) 4
    = Some (ConfigIn.kv_cache_addr c)
  /\ ConfigIn.getAddress (ConfigIn.pack BigEndian c words) 0
    = Some (swap (ConfigIn.input_buffer_addr c))
  /\ ConfigIn.getAddress (ConfigIn.pack BigEndian c words) 2
    = Some (swap (ConfigIn.output_buffer_addr c))
  /\ ConfigIn.getAddress (ConfigIn.pack BigEndian c words) 4
    = Some (swap (ConfigIn.kv_cache_addr c)).
Proof.
  intros Hc swap. rewrite !ConfigIn_pack_layout_eq by done.
  destruct Hc as [H1 H2 H3]. unfold is_u64 in *.
  assert (Hjoin : forall a, 0 <= a < 2 ^ 64 ->
    Z.lor (wrap64 (Z.shiftl (a / 2 ^ 32) 32)) (a mod 2 ^ 32) = a).
  { intros a Ha. unfold wrap64. rewrite Z.shiftl_mul_pow2 by lia.
    assert (0 <= a / 2 ^ 32 < 2 ^ 32).
    { split; [apply Z.div_pos; lia|]. apply Z.div_lt_upper_bound; lia. }
    rewrite Z.mod_small by lia.
    rewrite lor_disjoint by (try apply Z.mod_pos_bound; lia).
    pose proof (Z.div_mod a (2 ^ 32)). lia. }
  assert (Hswap : forall a, 0 <= a < 2 ^ 64 ->
    Z.lor (wrap64 (Z.shiftl (a mod 2 ^ 32) 32)) (a / 2 ^ 32) = swap a).
  { intros a Ha. unfold wrap64, swap. rewrite Z.shiftl_mul_pow2 by lia.
    assert (0 <= a / 2 ^ 32 < 2 ^ 32).
    { split; [apply Z.div_pos; lia|]. apply Z.div_lt_upper_bound; lia. }
    assert (0 <= a mod 2 ^ 32 < 2 ^ 32) by (apply Z.mod_pos_bound; lia).
    rewrite Z.mod_small by lia. by rewrite lor_disjoint by lia. }
  unfold ConfigIn.getAddress, config_layout, address_words; cbn [app lookup list_lookup].
  by rewrite !Hjoin, !Hswap by done.
Qed.

Lemma ConfigIn_pack_getAddress_witness :
  let swap a := (a mod 2 ^ 32) * 2 ^ 32 + a / 2 ^ 32 in
  let c := config_roundtrip_example in
  let words := replicate 38 0 in
  ConfigIn.getAddress (ConfigIn.pack LittleEndian c words) 0
    = Some (ConfigIn.input_buffer_addr c)
  /\ ConfigIn.getAddress (ConfigIn.pack LittleEndian c words) 2
    = Some (ConfigIn.output_buffer_addr c)
  /\ ConfigIn.getAddress (ConfigIn.pack LittleEndian c words) 4
    = Some (ConfigIn.kv_cache_addr c)
  /\ ConfigIn.getAddress (ConfigIn.pack BigEndian c words) 0
    = Some (swap (ConfigIn.input_buffer_addr c))
  /\ ConfigIn.getAddress (ConfigIn.pack BigEndian c words) 2
    = Some (swap (ConfigIn.output_buffer_addr c))
  /\ ConfigIn.getAddress (ConfigIn.pack BigEndian c words) 4
    = Some (swap (ConfigIn.kv_cache_addr c)).
Proof.
  apply (ConfigIn_pack_getAddress config_roundtrip_example (replicate 38 0)).
  constructor; try done. apply Forall_replicate. unfold is_u32. lia.
Defined.

(** ** FP32 to FP16, further *)

Section Fp16Value.

(** The value float_to_fp16 returns, as arithmetic on the fields of the
    input. *)
Lemma float_to_fp16_value bits :
  is_u32 bits ->
  let sign := bits / 2 ^ 31 in
  let e := rebiased_exponent bits in
  let m := bits mod 2 ^ 23 / 2 ^ 13 in
  0 <= sign <= 1 /\ 0 <= m < 2 ^ 10 /\ -112 <= e <= 143
  /\ WeightLoader.float_to_fp16 bits =
       (if e <=? 0 then 0
        else if e >=? 31 then sign * 2 ^ 15 + 31 * 2 ^ 10
        else sign * 2 ^ 15 + e * 2 ^ 10 + m).
Proof.
  intros Hb sign e m.
  destruct (fp32_fields bits Hb) as (Hs & He & Hm & Hs01).
  assert (Hexp : 0 <= Z.land (Z.shiftr bits 23) 0xFF < 256).
  { rewrite He. apply Z.mod_pos_bound. lia. }
  assert (HM : 0 <= m < 2 ^ 10).
  { unfold m. change (2 ^ 23) with 8388608. change (2 ^ 13) with 8192.
    change (2 ^ 10) with 1024. Z.to_euclidean_division_equations; lia. }
  assert (Hrange : -112 <= e <= 143) by (unfold e, rebiased_exponent; lia).
  split; [done|]. split; [done|]. split; [done|].
  unfold WeightLoader.float_to_fp16.
  rewrite new_exp_exact by done. fold (rebiased_exponent bits). fold e.
  rewrite Hs, Hm. fold sign m.
  assert (Hshift : wrap32 (Z.shiftl sign 15) = sign * 2 ^ 15).
  { rewrite Z.shiftl_mul_pow2 by lia. unfold wrap32. apply Z.mod_small. lia. }
  rewrite Hshift.
  destruct (Z.leb_spec e 0); [done|].
  destruct (Z.geb_spec e 31).
  - rewrite (lor_disjoint sign 0x7C00 15) by lia.
    unfold wrap16. rewrite Z.mod_small by lia. lia.
  - rewrite Z.shiftl_mul_pow2 by lia.
    unfold wrap32. rewrite (Z.mod_small (e * 2 ^ 10)) by lia.
    replace (sign * 2 ^ 15) with (sign * 2 ^ 5 * 2 ^ 10) by lia.
    rewrite <- !Z.shiftl_mul_pow2, <- Z.shiftl_lor by lia.
    rewrite !Z.shiftl_mul_pow2 by lia.
    rewrite (lor_disjoint sign e 5) by lia.
    rewrite lor_disjoint by lia.
    unfold wrap16. rewrite Z.mod_small by lia. lia.
Qed.

End Fp16Value.

(** X7. float_to_fp16 returns a 16-bit word that is +0, an infinity or a
    normal number: never a NaN, a subnormal or -0.  An input whose
    exponent field is all ones (an infinity or a NaN) gives the infinity
    of its sign. *)
Theorem float_to_fp16_no_nan (bits : Z) :
  is_u32 bits ->
  let r := WeightLoader.float_to_fp16 bits in
  let exponent := (r / 2 ^ 10) mod 2 ^ 5 in
  let mantissa := r mod 2 ^ 10 in
  0 <= r < 2 ^ 16
  /\ (r = 0 \/ 1 <= exponent <= 30 \/ (exponent = 31 /\ mantissa = 0))
  /\ (Z.land (Z.shiftr bits 23) 0xFF = 255 ->
        r = (bits / 2 ^ 31) * 2 ^ 15 + 0x7C00).
Proof.
  intros Hb r exponent mantissa.
  destruct (float_to_fp16_value bits Hb) as (Hs & Hm & He & Hr).
  subst exponent mantissa r. rewrite Hr. clear Hr.
  change (2 ^ 16) with 65536. change (2 ^ 15) with 32768 in *.
  change (2 ^ 10) with 1024 in *. change (2 ^ 5) with 32.
  split; [|split].
  - destruct (Z.leb_spec (rebiased_exponent bits) 0); [lia|].
    destruct (Z.geb_spec (rebiased_exponent bits) 31); lia.
  - destruct (Z.leb_spec (rebiased_exponent bits) 0); [by left|].
    right. destruct (Z.geb_spec (rebiased_exponent bits) 31).
    + right. Z.to_euclidean_division_equations; lia.
    + left. Z.to_euclidean_division_equations; lia.
  - intros H255. unfold rebiased_exponent in *. rewrite H255. simpl. lia.
Qed.

Lemma float_to_fp16_no_nan_witness :
  let r := WeightLoader.float_to_fp16 0x7FC00000 in
  let exponent := (r / 2 ^ 10) mod 2 ^ 5 in
  let mantissa := r mod 2 ^ 10 in
  0 <= r < 2 ^ 16
  /\ (r = 0 \/ 1 <= exponent <= 30 \/ (exponent = 31 /\ mantissa = 0))
  /\ (Z.land (Z.shiftr 0x7FC00000 23) 0xFF = 255 ->
        r = (0x7FC00000 / 2 ^ 31) * 2 ^ 15 + 0x7C00).
Proof.
  apply (float_to_fp16_no_nan 0x7FC00000). unfold is_u32. lia.
Defined.

(** X8. float_to_fp16 keeps the order of the positive numbers: between
    two 32-bit patterns with the sign bit clear, the larger does not
    convert to a smaller 16-bit pattern. *)
Theorem float_to_fp16_monotone (x y : Z) :
  0 <= x <= y -> y < 2 ^ 31 ->
  WeightLoader.float_to_fp16 x <= WeightLoader.float_to_fp16 y.
Proof.
  intros Hxy Hy.
  assert (Hx32 : is_u32 x) by (unfold is_u32; lia).
  assert (Hy32 : is_u32 y) by (unfold is_u32; lia).
  destruct (float_to_fp16_value x Hx32) as (_ & _ & _ & ->).
  destruct (float_to_fp16_value y Hy32) as (_ & _ & _ & ->).
  destruct (fp32_fields x Hx32) as (_ & Hfx & _).
  destruct (fp32_fields y Hy32) as (_ & Hfy & _).
  unfold rebiased_exponent. rewrite Hfx, Hfy.
  rewrite (Z.div_small x (2 ^ 31)), (Z.div_small y (2 ^ 31)) by lia.
  rewrite (Z.mod_small (x / 2 ^ 23)), (Z.mod_small (y / 2 ^ 23))
    by (split; [apply Z.div_pos; lia|apply Z.div_lt_upper_bound; lia]).
  pose proof (Z.div_mod x (2 ^ 23) ltac:(lia)) as Hdx.
  pose proof (Z.div_mod y (2 ^ 23) ltac:(lia)) as Hdy.
  pose proof (Z.mod_pos_bound x (2 ^ 23) ltac:(lia)) as Hrx.
  pose proof (Z.mod_pos_bound y (2 ^ 23) ltac:(lia)) as Hry.
  assert (Hex : x / 2 ^ 23 <= y / 2 ^ 23) by (apply Z.div_le_mono; lia).
  set (ex := x / 2 ^ 23) in *. set (ey := y / 2 ^ 23) in *.
  set (rx := x mod 2 ^ 23) in *. set (ry := y mod 2 ^ 23) in *.
  assert (Hmx : 0 <= rx / 2 ^ 13 < 2 ^ 10).
  { split; [apply Z.div_pos; lia|apply Z.div_lt_upper_bound; lia]. }
  assert (Hmy : 0 <= ry / 2 ^ 13 < 2 ^ 10).
  { split; [apply Z.div_pos; lia|apply Z.div_lt_upper_bound; lia]. }
  assert (Hsame : ex = ey -> rx / 2 ^ 13 <= ry / 2 ^ 13).
  { intros Heq. apply Z.div_le_mono; lia. }
  destruct (Z.leb_spec (ex - 127 + 15) 0), (Z.leb_spec (ey - 127 + 15) 0);
    destruct (Z.geb_spec (ex - 127 + 15) 31), (Z.geb_spec (ey - 127 + 15) 31);
    lia.
Qed.

Lemma float_to_fp16_monotone_witness :
  WeightLoader.float_to_fp16 0x3F800000 <= WeightLoader.float_to_fp16 0x40490FDB.
Proof.
  apply float_to_fp16_monotone; lia.
Defined.

(** ** INT4 blocks, further *)

Section NibbleNeighbours.

Local Open Scope bool_scope.

Ltac byte_bits i :=
  apply Z.bits_inj'; intros i ?;
  repeat first
    [ rewrite Z.land_spec | rewrite Z.lor_spec
    | rewrite Z.shiftl_spec by lia | rewrite Z.shiftr_spec by lia
    | rewrite Z.testbit_mod_pow2 by lia
    | rewrite testbit_0x0F by lia | rewrite testbit_0xF0 by lia ].

(** Writing the low nibble of a byte keeps its high nibble. *)
Lemma high_nibble_kept old m :
  0 <= m < 16 ->
  Z.land (Z.shiftr (wrap8 (Z.lor (Z.land old 0xF0) m)) 4) 0x0F
  = Z.land (Z.shiftr old 4) 0x0F.
Proof.
  intros Hm. unfold wrap8. byte_bits i.
  destruct (Z.ltb_spec i 4), (Z.ltb_spec (i + 4) 8), (Z.leb_spec 4 (i + 4));
    try lia; simpl; rewrite ?andb_false_r, ?andb_true_r, ?orb_false_r; try reflexivity.
  rewrite (testbit_above m 4) by lia. by rewrite orb_false_r.
Qed.

(** Writing the high nibble keeps the low one. *)
Lemma low_nibble_kept old m :
  0 <= m < 16 ->
  Z.land (wrap8 (Z.lor (Z.land old 0x0F) (Z.shiftl m 4))) 0x0F = Z.land old 0x0F.
Proof.
  intros Hm. unfold wrap8. byte_bits i.
  destruct (Z.ltb_spec i 4), (Z.ltb_spec i 8); try lia; simpl;
    rewrite ?andb_false_r, ?andb_true_r, ?orb_false_r; try reflexivity.
  rewrite (Z.testbit_neg_r m) by lia. by rewrite orb_false_r.
Qed.

Lemma wrap8_range x : is_u8 (wrap8 x).
Proof. unfold is_u8, wrap8. apply Z.mod_pos_bound. lia. Qed.

Lemma sign_extend4_range n : 0 <= n < 16 -> -8 <= sign_extend4 n <= 7.
Proof.
  intros Hn.
  assert (H : (-8 <=? sign_extend4 n) && (sign_extend4 n <=? 7) = true)
    by (by apply (check_range (fun n => (-8 <=? sign_extend4 n) && (sign_extend4 n <=? 7)) 0 16)).
  apply andb_true_iff in H as [H1 H2]. lia.
Qed.

Lemma nibble_in_range b idx n : INT4Weights.nibble b idx = Some n -> 0 <= n < 16.
Proof.
  unfold INT4Weights.nibble. destruct (INT4Weights.data b !! _); [|done].
  intros [= <-]. destruct (_ =? _); apply nibble_range.
Qed.

End NibbleNeighbours.



(** X5. setWeight changes one weight only: every other weight of the
    block reads as before, also the one sharing the byte, and the block
    keeps its size, scale and zero point. *)
Theorem INT4Weights_set_other (b : INT4Weights.t) (i j v : Z) :
  INT4Weights.allocated b ->
  0 <= i < INT4Weights.num_weights b ->
  0 <= j -> j <> i ->
  exists b', INT4Weights.setWeight b i v = Some b'
    /\ INT4Weights.allocated b'
    /\ INT4Weights.num_weights b' = INT4Weights.num_weights b
    /\ INT4Weights.scale b' = INT4Weights.scale b
    /\ INT4Weights.zero_point b' = INT4Weights.zero_point b
    /\ INT4Weights.getWeight b' j = INT4Weights.getWeight b j.
Proof.
  intros Hb Hi Hj Hne. pose proof (allocated_in_bounds b i Hb Hi) as Hlt.
  unfold INT4Weights.setWeight.
  destruct (Z.geb_spec i (INT4Weights.num_weights b)); [lia|].
  destruct (lookup_lt_is_Some_2 _ _ Hlt) as [old Hold]. rewrite Hold.
  set (m := wrap8 (Z.land _ 0x0F)).
  assert (Hm : 0 <= m < 16) by apply masked_range.
  eexists; split; [reflexivity|].
  split; [|split; [done|split; [done|split; [done|]]]].
  - destruct Hb as [H1 H2 H3 H4]. constructor; cbn; try done.
    + by rewrite length_insert.
    + apply Forall_insert; [done|]. destruct (_ =? _); apply wrap8_range.
  - unfold INT4Weights.getWeight, INT4Weights.with_data.
    cbn [INT4Weights.num_weights INT4Weights.data].
    destruct (j >=? INT4Weights.num_weights b); [done|].
    destruct (decide (Z.to_nat (j / 2) = Z.to_nat (i / 2))) as [Heq|Hdiff].
    + rewrite Heq, list_lookup_insert_eq, Hold by done.
      assert (Hij : j / 2 = i / 2).
      { apply Z2Nat.inj; [apply Z.div_pos; lia|apply Z.div_pos; lia|done]. }
      assert (Hpar : j mod 2 <> i mod 2).
      { pose proof (Z.div_mod i 2). pose proof (Z.div_mod j 2). lia. }
      pose proof (Z.mod_pos_bound i 2). pose proof (Z.mod_pos_bound j 2).
      destruct (Z.eqb_spec (i mod 2) 1), (Z.eqb_spec (j mod 2) 1); try lia.
      * by rewrite low_nibble_kept.
      * by rewrite high_nibble_kept.
    + by rewrite list_lookup_insert_ne by done.
Qed.

Lemma INT4Weights_set_other_witness :
  exists b', INT4Weights.setWeight int4_example 2 (-3) = Some b'
    /\ INT4Weights.allocated b'
    /\ INT4Weights.num_weights b' = INT4Weights.num_weights int4_example
    /\ INT4Weights.scale b' = INT4Weights.scale int4_example
    /\ INT4Weights.zero_point b' = INT4Weights.zero_point int4_example
    /\ INT4Weights.getWeight b' 3 = INT4Weights.getWeight int4_example 3.
Proof.
  apply (INT4Weights_set_other int4_example 2 3 (-3)); try (simpl; lia).
  apply INT4Weights.Build_allocated; [simpl; lia|reflexivity|reflexivity|].
  repeat constructor; unfold is_u8; simpl; lia.
Defined.

(** X6. Whatever the bytes, a weight read by getWeight is in the signed
    4-bit range. *)
Theorem INT4Weights_getWeight_range (b : INT4Weights.t) (i w : Z) :
  INT4Weights.getWeight b i = Some w -> -8 <= w <= 7.
Proof.
  intros Hget. destruct (Z.lt_ge_cases i (INT4Weights.num_weights b)) as [Hlt|Hge].
  - rewrite getWeight_nibble in Hget by done.
    destruct (INT4Weights.nibble b i) as [n|] eqn:Hn; [|done].
    injection Hget as <-. apply sign_extend4_range. by eapply nibble_in_range.
  - unfold INT4Weights.getWeight in Hget.
    destruct (Z.geb_spec i (INT4Weights.num_weights b)); [|lia].
    injection Hget as <-. lia.
Qed.

Lemma INT4Weights_getWeight_range_witness : -8 <= -6 <= 7.
Proof.
  apply (INT4Weights_getWeight_range int4_example 3 (-6)). reflexivity.
Defined.

(** ** Loading and staging the weights, further *)

Section Loading.

Import WeightLoader.



Lemma wrap32_range x : 0 <= wrap32 x < 2 ^ 32.
Proof. unfold wrap32. apply Z.mod_pos_bound. lia. Qed.














End Loading.



(** X10. getLayerAddress returns 0 for an index that is no layer, and
    otherwise the physical base plus the f16 embeddings and the serialized
    sizes of the layers before it, as a 64-bit value. *)
Theorem getLayerAddress_sum (self : WeightLoader.t) (layer_idx : Z) :
  0 <= layer_idx ->
  let w := WeightLoader.weights self in
  (vsize (ModelWeights.layers w) <= layer_idx ->
     WeightLoader.getLayerAddress self layer_idx = 0)
  /\ (layer_idx < vsize (ModelWeights.layers w) ->
      WeightLoader.getLayerAddress self layer_idx
      = wrap64 (WeightLoader.ddr_weights_phys self
                + 2 * vsize (ModelWeights.token_embeddings w)
                + 2 * vsize (ModelWeights.position_embeddings w)
                + foldr (fun layer acc => WeightLoader.layer_serialized_size layer + acc) 0
                    (take (Z.to_nat layer_idx) (ModelWeights.layers w)))).
Proof.
  intros Hi w. unfold WeightLoader.getLayerAddress. fold w. split; intros Hlen.
  - by destruct (Z.geb_spec layer_idx (vsize (ModelWeights.layers w))); [|lia].
  - destruct (Z.geb_spec layer_idx (vsize (ModelWeights.layers w))); [lia|].
    rewrite <- wrap64_add_r, fold_add_layer_size, wrap64_add_r.
    rewrite Z.add_0_l.
    set (total := foldr _ _ _).
    unfold wrap64. change (2 ^ 64) with 18446744073709551616.
    Z.to_euclidean_division_equations. lia.
Qed.

Lemma getLayerAddress_sum_witness :
  let w := WeightLoader.weights loader_example in
  (vsize (ModelWeights.layers w) <= 1 ->
     WeightLoader.getLayerAddress loader_example 1 = 0)
  /\ (1 < vsize (ModelWeights.layers w) ->
      WeightLoader.getLayerAddress loader_example 1
      = wrap64 (WeightLoader.ddr_weights_phys loader_example
                + 2 * vsize (ModelWeights.token_embeddings w)
                + 2 * vsize (ModelWeights.position_embeddings w)
                + foldr (fun layer acc => WeightLoader.layer_serialized_size layer + acc) 0
                    (take (Z.to_nat 1) (ModelWeights.layers w)))).
Proof.
  apply (getLayerAddress_sum loader_example 1). lia.
Defined.

Section Staging.

Import WeightLoader.

Lemma drop_drop_eq {A} (l1 l2 : list A) n m :
  (n <= m)%nat -> drop n l1 = drop n l2 -> drop m l1 = drop m l2.
Proof.
  intros Hnm Heq. replace m with (n + (m - n))%nat by lia.
  by rewrite <- !drop_drop, Heq.
Qed.

Lemma take_take_eq {A} (l1 l2 : list A) n m :
  (m <= n)%nat -> take n l1 = take n l2 -> take m l1 = take m l2.
Proof.
  intros Hnm Heq.
  replace m with (m `min` n)%nat by lia.
  by rewrite <- !take_take, Heq.
Qed.

(** A copy of [n] bytes that the source has. *)
Lemma stages_bytes src n :
  0 <= n <= Z.of_nat (length src) -> stages (stage_bytes src n) n.
Proof.
  intros Hn ddr offset Hoff Hfit Hsize. unfold stage_bytes.
  destruct (Z.ltb_spec (Z.of_nat (length src)) n); [lia|].
  destruct (Z.ltb_spec (Z.of_nat (length ddr)) (offset + n)); [lia|]. cbn [orb].
  unfold wrap64. rewrite Z.mod_small by lia.
  eexists. split; [reflexivity|].
  assert (Hlt : length (take (Z.to_nat n) src) = Z.to_nat n) by (rewrite length_take; lia).
  assert (Hlo : length (take (Z.to_nat offset) ddr) = Z.to_nat offset)
    by (rewrite length_take; lia).
  rewrite Hlt. split; [|split].
  - rewrite !length_app, Hlt, Hlo, length_drop. lia.
  - rewrite app_assoc, drop_app_length'; [|rewrite length_app, Hlt, Hlo; lia].
    f_equal. lia.
  - by rewrite take_app_length' by done.
Qed.

(** Two stages in a row. *)
Lemma stages_bind f g n m :
  0 <= n -> 0 <= m -> stages f n -> stages g m ->
  stages (fun st => st' ← f st; g st') (n + m).
Proof.
  intros Hn Hm Hf Hg ddr offset Hoff Hfit Hsize.
  destruct (Hf ddr offset) as (ddr1 & Hf1 & Hlen1 & Hdrop1 & Htake1); [lia..|].
  destruct (Hg ddr1 (offset + n)) as (ddr2 & Hg2 & Hlen2 & Hdrop2 & Htake2);
    [lia|rewrite Hlen1; lia|rewrite Hlen1; lia|].
  exists ddr2. rewrite Hf1. cbn. rewrite Hg2, Z.add_assoc.
  split; [done|]. split; [lia|]. split.
  - rewrite Hdrop2. eapply drop_drop_eq; [|exact Hdrop1]. lia.
  - rewrite <- Htake1. eapply take_take_eq; [|exact Htake2]. lia.
Qed.

Lemma stages_ext f g n : (forall st, f st = g st) -> stages f n -> stages g n.
Proof.
  intros Hfg Hf ddr offset H1 H2 H3.
  destruct (Hf ddr offset H1 H2 H3) as (ddr' & ? & ?). exists ddr'. by rewrite <- Hfg.
Qed.

Lemma stages_nothing : stages Some 0.
Proof.
  intros ddr offset _ _ _. exists ddr. by rewrite Z.add_0_r.
Qed.

Lemma stages_fp16 host v : stages (stage_fp16 host v) (2 * vsize v).
Proof.
  induction v as [|val v IH].
  - apply (stages_ext Some); [done|apply stages_nothing].
  - replace (2 * vsize (val :: v)) with (2 + 2 * vsize v)
      by (unfold vsize; cbn [length]; lia).
    eapply stages_ext;
      [|apply (stages_bind (stage_bytes (store host 2 (float_to_fp16 val)) 2)
                 (stage_fp16 host v) 2 (2 * vsize v));
          [lia|unfold vsize; lia| |exact IH]].
    + intros st. cbn [stage_fp16]. by destruct (stage_bytes _ _ _).
    + apply stages_bytes. rewrite length_store. lia.
Qed.

Lemma stages_block b : block_readable b -> stages (stage_block b) (INT4Weights.data_size b).
Proof. intros Hb. by apply stages_bytes. Qed.

Lemma stages_layer host layer :
  layer_readable layer -> stages (stage_layer host layer) (staged_layer_size layer).
Proof.
  intros (Hq & Hk & Hv & Ho & Hu & Hd).
  pose proof Hq as [? _]. pose proof Hk as [? _]. pose proof Hv as [? _].
  pose proof Ho as [? _]. pose proof Hu as [? _]. pose proof Hd as [? _].
  assert (0 <= 2 * vsize (LayerWeights.ln1_weight layer)) by (unfold vsize; lia).
  unfold staged_layer_size.
  replace (_ + _ + _ + _ + _ + _ + _)
    with (INT4Weights.data_size (LayerWeights.q_weights layer)
          + (INT4Weights.data_size (LayerWeights.k_weights layer)
             + (INT4Weights.data_size (LayerWeights.v_weights layer)
                + (INT4Weights.data_size (LayerWeights.o_weights layer)
                   + (INT4Weights.data_size (LayerWeights.ffn_up layer)
                      + (INT4Weights.data_size (LayerWeights.ffn_down layer)
                         + 2 * vsize (LayerWeights.ln1_weight layer)))))))
    by lia.
  unfold stage_layer.
  repeat (apply stages_bind; [lia|lia|by apply stages_block|]).
  apply stages_fp16.
Qed.

Lemma staged_layer_size_nonneg layer : layer_readable layer -> 0 <= staged_layer_size layer.
Proof.
  intros ([? _] & [? _] & [? _] & [? _] & [? _] & [? _]).
  unfold staged_layer_size, vsize. lia.
Qed.

Lemma staged_layers_nonneg ls :
  Forall layer_readable ls ->
  0 <= foldr (fun layer acc => staged_layer_size layer + acc) 0 ls.
Proof.
  induction 1 as [|l ls Hl _ IH]; [done|].
  cbn [foldr]. pose proof (staged_layer_size_nonneg l Hl). lia.
Qed.

Lemma stages_layers host ls :
  Forall layer_readable ls ->
  stages (stage_layers host ls)
    (foldr (fun layer acc => staged_layer_size layer + acc) 0 ls).
Proof.
  induction 1 as [|l ls Hl Hls IH].
  - apply (stages_ext Some); [done|apply stages_nothing].
  - cbn [foldr].
    eapply stages_ext;
      [|apply (stages_bind (stage_layer host l) (stage_layers host ls));
          [by apply staged_layer_size_nonneg|by apply staged_layers_nonneg
          |by apply (stages_layer host)|exact IH]].
    intros st. cbn [stage_layers]. by destruct (stage_layer _ _ _).
Qed.

(** What copyToDDR stages is part of what calculateDDRSize counts. *)
Lemma copied_le_required w :
  Forall layer_readable (ModelWeights.layers w) ->
  0 <= copied_bytes w <= required_ddr w.
Proof.
  intros Hls. unfold copied_bytes, required_ddr.
  assert (0 <= foldr (fun layer acc => staged_layer_size layer + acc) 0 (ModelWeights.layers w)
          <= foldr (fun layer acc => layer_serialized_size layer + acc) 0 (ModelWeights.layers w)).
  { induction Hls as [|l ls Hl _ IH]; [done|]. cbn [foldr].
    pose proof (staged_layer_size_nonneg l Hl).
    assert (staged_layer_size l <= layer_serialized_size l); [|lia].
    unfold staged_layer_size, layer_serialized_size, vsize. lia. }
  unfold vsize. lia.
Qed.

End Staging.

(** X11. copyToDDR refuses, with the region untouched, when nothing is
    loaded or the region is null.  After allocateDDR has accepted a region
    of [size] bytes, copyToDDR on a loaded model whose blocks hold their
    data_size bytes stays inside the region: it returns true, reports
    2 bytes per token embedding plus, per layer, the six blocks and
    ln1_weight as copied, which is at most [size], keeps the length of the
    region and leaves every byte from that total on as it was. *)
Theorem copyToDDR_in_bounds (host : endianness) (self : WeightLoader.t)
    (phys_addr virt_addr size : Z) (ddr : list Z) :
  let self' := (WeightLoader.allocateDDR self phys_addr virt_addr size).2 in
  let w := WeightLoader.weights self in
  (WeightLoader.loaded self = false \/ virt_addr = 0 ->
     WeightLoader.copyToDDR host self' ddr = Some (false, (ddr, 0)))
  /\ (WeightLoader.loaded self = true -> virt_addr <> 0 ->
      Forall layer_readable (ModelWeights.layers w) ->
      WeightLoader.required_ddr w < 2 ^ 64 ->
      (WeightLoader.allocateDDR self phys_addr virt_addr size).1 = true ->
      size = Z.of_nat (length ddr) -> size < 2 ^ 64 ->
      exists ddr',
        WeightLoader.copyToDDR host self' ddr = Some (true, (ddr', copied_bytes w))
        /\ copied_bytes w <= size
        /\ length ddr' = length ddr
        /\ drop (Z.to_nat (copied_bytes w)) ddr' = drop (Z.to_nat (copied_bytes w)) ddr).
Proof.
  intros self' w. unfold WeightLoader.copyToDDR.
  assert (Hw : WeightLoader.weights self' = w) by (unfold self', WeightLoader.allocateDDR;
    by destruct (_ >? _)).
  assert (Hl : WeightLoader.loaded self' = WeightLoader.loaded self)
    by (unfold self', WeightLoader.allocateDDR; by destruct (_ >? _)).
  assert (Hv : WeightLoader.ddr_weights_virt self' = virt_addr)
    by (unfold self', WeightLoader.allocateDDR; by destruct (_ >? _)).
  rewrite Hl, Hv. split.
  - intros [->| ->]; [done|]. by destruct (WeightLoader.loaded self).
  - intros -> Hvirt Hls Hreq Hok Hsize Hsize64. cbn [negb].
    destruct (Z.eqb_spec virt_addr 0); [done|].
    pose proof (copied_le_required w Hls) as Hcopied.
    assert (Hfit : WeightLoader.required_ddr w <= size).
    { unfold WeightLoader.allocateDDR in Hok.
      rewrite calculateDDRSize_required in Hok. cbn [WeightLoader.weights] in Hok.
      fold w in Hok. unfold wrap64 in Hok. rewrite Z.mod_small in Hok by lia.
      destruct (Z.gtb_spec (WeightLoader.required_ddr w) size); [done|lia]. }
    unfold WeightLoader.staged_before. rewrite Hw, firstn_all.
    assert (Hstage : stages
              (fun st => st' ← WeightLoader.stage_fp16 host (ModelWeights.token_embeddings w) st;
                         WeightLoader.stage_layers host (ModelWeights.layers w) st')
              (copied_bytes w)).
    { apply stages_bind; [unfold vsize; lia|by apply staged_layers_nonneg
                         |apply stages_fp16|by apply stages_layers]. }
    destruct (Hstage ddr 0) as (ddr' & Hrun & Hlen & Hdrop & _); [lia|lia|lia|].
    rewrite Z.add_0_l in Hrun, Hdrop. cbn in Hrun. rewrite Hrun. cbn.
    exists ddr'. repeat split; (done || lia).
Qed.

Lemma copyToDDR_in_bounds_witness :
  exists ddr',
    WeightLoader.copyToDDR LittleEndian
      (WeightLoader.allocateDDR loaded_example 0x10000000 0x7F000000 64).2
      (replicate 64 0)
    = Some (true, (ddr', copied_bytes (WeightLoader.weights loaded_example)))
    /\ copied_bytes (WeightLoader.weights loaded_example) <= 64
    /\ length ddr' = length (replicate 64 0 : list Z)
    /\ drop (Z.to_nat (copied_bytes (WeightLoader.weights loaded_example))) ddr'
       = drop (Z.to_nat (copied_bytes (WeightLoader.weights loaded_example)))
           (replicate 64 0).
Proof.
  apply (proj2 (copyToDDR_in_bounds LittleEndian loaded_example
                  0x10000000 0x7F000000 64 (replicate 64 0))).
  - reflexivity.
  - done.
  - let layers := eval vm_compute in (ModelWeights.layers (WeightLoader.weights loaded_example)) in
    change (Forall layer_readable layers).
    repeat (apply Forall_cons; split;
            [unfold layer_readable, block_readable; simpl; lia|]).
    by apply Forall_nil.
  - by vm_compute.
  - reflexivity.
  - reflexivity.
  - lia.
Defined.

(** ** The bounded queue, further *)

Section QueueRuns.

Context {T : Type}.
Variable N : Z.
Hypothesis N_size_t : 0 < N < 2 ^ 64.
Variable dflt : T.

(** Pushing a run of items: the ones that fit are stored, in order, and
    the rest are refused. *)
Lemma push_run (xs : list T) (h : Queue.history) (items : list T) :
  Queue.holds N (Queue.queue h) items ->
  let kept := take (Z.to_nat N - length items) xs in
  let h' := fold_left (Queue.run_op N dflt) (map Queue.Push xs) h in
  Queue.holds N (Queue.queue h') (items ++ kept)
  /\ Queue.pushed h' = Queue.pushed h ++ kept
  /\ Queue.popped h' = Queue.popped h.
Proof.
  revert h items; induction xs as [|x xs IH]; intros h items Hq; cbn zeta.
  - rewrite take_nil, !app_nil_r. done.
  - cbn [map fold_left Queue.run_op].
    pose proof Hq as ([_ Hcount _ _] & Hlen & _).
    destruct (Z.lt_ge_cases (Queue.count (Queue.queue h)) N) as [Hroom|Hfull].
    + destruct (push_room N N_size_t (Queue.queue h) items x Hq Hroom)
        as (q' & -> & Hq' & _).
      specialize (IH (Queue.mkHistory q' (Queue.pushed h ++ [x]) (Queue.popped h))
                    (items ++ [x]) Hq').
      cbn zeta in IH. cbn [Queue.queue Queue.pushed Queue.popped] in IH.
      rewrite length_app in IH. cbn [length] in IH.
      replace (Z.to_nat N - length items)%nat with (S (Z.to_nat N - (length items + 1)))
        by lia.
      cbn [take]. destruct IH as (H1 & H2 & H3).
      rewrite <- !app_assoc in *. done.
    + rewrite push_full by done.
      replace (Z.to_nat N - length items)%nat with 0%nat by lia. cbn [take].
      specialize (IH (Queue.mkHistory (Queue.queue h) (Queue.pushed h) (Queue.popped h))
                    items Hq).
      cbn zeta in IH.
      replace (Z.to_nat N - length items)%nat with 0%nat in IH by lia.
      rewrite take_0 in IH. done.
Qed.

(** Popping [k] times: the oldest items come out, in order. *)
Lemma pop_run (k : nat) (h : Queue.history) (items : list T) :
  Queue.holds N (Queue.queue h) items ->
  let h' := fold_left (Queue.run_op N dflt) (replicate k Queue.TryPop) h in
  Queue.holds N (Queue.queue h') (drop k items)
  /\ Queue.pushed h' = Queue.pushed h
  /\ Queue.popped h' = Queue.popped h ++ take k items.
Proof.
  revert h items; induction k as [|k IH]; intros h items Hq; cbn zeta.
  - rewrite take_0, drop_0, app_nil_r. done.
  - cbn [replicate fold_left Queue.run_op]. unfold Queue.tryPop.
    destruct items as [|y items].
    + rewrite pop_empty by (destruct Hq as (_ & ? & _); simpl in *; lia).
      specialize (IH (Queue.mkHistory (Queue.queue h) (Queue.pushed h) (Queue.popped h))
                    [] Hq).
      cbn zeta in IH. rewrite take_nil, drop_nil in *. done.
    + destruct (pop_item N N_size_t (Queue.queue h) y items dflt Hq) as (q' & -> & Hq' & _).
      specialize (IH (Queue.mkHistory q' (Queue.pushed h) (Queue.popped h ++ [y]))
                    items Hq').
      cbn zeta in IH. cbn [Queue.queue Queue.pushed Queue.popped] in IH.
      cbn [take drop]. destruct IH as (H1 & H2 & H3).
      rewrite <- app_assoc in H3. done.
Qed.

End QueueRuns.

(** X12. After any sequence of push and tryPop, count (and size) is the
    number of items pushed and not yet popped; empty holds exactly when
    every pushed item was popped and full exactly when N items wait; a
    refused push leaves the queue as it was, and a tryPop on the empty
    queue leaves the queue and the caller's item as they were. *)
Theorem Queue_accounting {T : Type} (N : Z) (dflt : T) (ops : list (@Queue.op T)) :
  0 < N < 2 ^ 64 ->
  let h := Queue.run N dflt ops in
  let q := Queue.queue h in
  Queue.size q = Z.of_nat (length (Queue.pushed h)) - Z.of_nat (length (Queue.popped h))
  /\ (Queue.empty q = true <-> Queue.pushed h = Queue.popped h)
  /\ (Queue.full N q = true <->
        Z.of_nat (length (Queue.pushed h)) = Z.of_nat (length (Queue.popped h)) + N)
  /\ (forall x, Queue.full N q = true -> Queue.push N q x = (false, q))
  /\ (forall x, Queue.empty q = true -> Queue.tryPop N q x = (false, x, q)).
Proof.
  intros HN h q.
  destruct (run_holds N HN dflt ops) as (items & Hq & Hfifo).
  fold h in Hq, Hfifo. fold q in Hq.
  pose proof Hq as ([_ Hcount _ _] & Hlen & _).
  unfold Queue.size, Queue.empty, Queue.full.
  rewrite Hfifo, length_app.
  split; [lia|]. split; [|split; [|split]].
  - destruct (Z.eqb_spec (Queue.count q) 0) as [H0|H0]; split; intros H; try done.
    + destruct items; [by rewrite app_nil_r|simpl in Hlen; lia].
    + apply (f_equal length) in H. rewrite length_app in H. lia.
  - destruct (Z.geb_spec (Queue.count q) N); split; intros; (done || lia).
  - intros x Hfull. apply push_full.
    by destruct (Z.geb_spec (Queue.count q) N).
  - intros x Hempty. unfold Queue.tryPop. apply pop_empty.
    by destruct (Z.eqb_spec (Queue.count q) 0).
Qed.

Lemma Queue_accounting_witness :
  let h := Queue.run 2 0 queue_ops_example in
  let q := Queue.queue h in
  Queue.size q = Z.of_nat (length (Queue.pushed h)) - Z.of_nat (length (Queue.popped h))
  /\ (Queue.empty q = true <-> Queue.pushed h = Queue.popped h)
  /\ (Queue.full 2 q = true <->
        Z.of_nat (length (Queue.pushed h)) = Z.of_nat (length (Queue.popped h)) + 2)
  /\ (forall x, Queue.full 2 q = true -> Queue.push 2 q x = (false, q))
  /\ (forall x, Queue.empty q = true -> Queue.tryPop 2 q x = (false, x, q)).
Proof.
  apply (Queue_accounting 2 0 queue_ops_example). lia.
Defined.

(** X13. Pushing a run of items into the empty queue keeps the first N
    and refuses the rest; [k] pops then return the oldest [k] of the kept
    items, in the order they were pushed. *)
Theorem Queue_overflow_drops_newest {T : Type} (N : Z) (dflt : T) (xs : list T) (k : nat) :
  0 < N < 2 ^ 64 ->
  let h := Queue.run N dflt (map Queue.Push xs ++ replicate k Queue.TryPop) in
  Queue.pushed h = take (Z.to_nat N) xs
  /\ Queue.popped h = take k (take (Z.to_nat N) xs)
  /\ Queue.count (Queue.queue h) = Z.of_nat (length (drop k (take (Z.to_nat N) xs))).
Proof.
  intros HN h. subst h. unfold Queue.run. rewrite fold_left_app.
  pose proof (push_run N HN dflt xs (Queue.mkHistory (Queue.init N dflt) [] []) []
                (holds_init N HN dflt)) as Hpush.
  cbn zeta in Hpush. cbn [Queue.queue Queue.pushed Queue.popped length app] in Hpush.
  rewrite Nat.sub_0_r in Hpush. destruct Hpush as (Hq & Hpushed & Hpopped).
  pose proof (pop_run N HN dflt k _ _ Hq) as Hpop. cbn zeta in Hpop.
  destruct Hpop as (Hq' & Hpushed' & Hpopped').
  rewrite Hpushed', Hpopped', Hpushed, Hpopped. split; [done|]. split; [done|].
  by destruct Hq' as (_ & <- & _).
Qed.

Lemma Queue_overflow_drops_newest_witness :
  let h := Queue.run 3 0 (map Queue.Push [1; 2; 3; 4; 5] ++ replicate 2 Queue.TryPop) in
  Queue.pushed h = take (Z.to_nat 3) [1; 2; 3; 4; 5]
  /\ Queue.popped h = take 2 (take (Z.to_nat 3) [1; 2; 3; 4; 5])
  /\ Queue.count (Queue.queue h)
     = Z.of_nat (length (drop 2 (take (Z.to_nat 3) [1; 2; 3; 4; 5]))).
Proof.
  apply (Queue_overflow_drops_newest 3 0 [1; 2; 3; 4; 5] 2). lia.
Defined.

(** ** The accelerator driver, further *)

Section DriverConfig.

Variable host : endianness.

Lemma address_words_length addr : length (address_words host addr) = 2%nat.
Proof. by destruct host. Qed.

(** The words of the layout from word 6 on. *)
Lemma config_layout_fields c :
  drop 6 (config_layout host c)
  = [ConfigIn.stride c; ConfigIn.max_tokens c; ConfigIn.batch_size c;
     ConfigIn.sequence_length c; ConfigIn.num_layers c; ConfigIn.hidden_size c;
     ConfigIn.num_heads c; ConfigIn.vocab_size c; ConfigIn.prompt_length c;
     ConfigIn.task_id c; ConfigIn.task_type c; ConfigIn.flags c]
    ++ ConfigIn.reserved c.
Proof. unfold config_layout, address_words. by destruct host. Qed.

Lemma config_layout_lookup c j :
  config_layout host c !! (6 + j)%nat = drop 6 (config_layout host c) !! j.
Proof. by rewrite lookup_drop. Qed.


Lemma ConfigIn_init_wf : ConfigIn.wf ConfigIn.init.
Proof.
  constructor; try (unfold is_u64, is_u32; simpl; lia); try done.
  apply Forall_replicate. unfold is_u32. lia.
Qed.

Lemma configure_wf a i o k s m :
  ConfigIn.wf (Accelerator.config a) ->
  is_u64 i -> is_u64 o -> is_u64 k -> is_u32 s -> is_u32 m ->
  ConfigIn.wf (Accelerator.config (Accelerator.configure host a i o k s m)).
Proof. intros []. by constructor. Qed.

End DriverConfig.

(** X14. setTaskConfig on a driver with a well-formed configuration
    leaves the packed words equal to the layout of the new configuration,
    with prompt_len in word 14, the task id (as a 32-bit word) in word 15
    and 0 in word 16: the three words it writes to the device.  When the
    words were in step with the configuration before, no other word
    changes. *)
Theorem setTaskConfig_words (host : endianness) (a : Accelerator.t) (task_id prompt_len : Z) :
  ConfigIn.wf (Accelerator.config a) ->
  is_u32 prompt_len ->
  let a' := Accelerator.setTaskConfig host a task_id prompt_len in
  ConfigIn.wf (Accelerator.config a')
  /\ Accelerator.config_words a' = config_layout host (Accelerator.config a')
  /\ Accelerator.config_words a' !! 14%nat = Some prompt_len
  /\ Accelerator.config_words a' !! 15%nat = Some (wrap32 task_id)
  /\ Accelerator.config_words a' !! 16%nat = Some 0
  /\ (Accelerator.config_words a = config_layout host (Accelerator.config a) ->
      forall j, j <> 14%nat -> j <> 15%nat -> j <> 16%nat ->
        Accelerator.config_words a' !! j = Accelerator.config_words a !! j).
Proof.
  intros Hwf Hlen a'.
  assert (Hwf' : ConfigIn.wf (Accelerator.config a')).
  { destruct Hwf.
    constructor; cbn; first [done | apply wrap32_range | (unfold is_u32; lia)]. }
  assert (Hwords : Accelerator.config_words a' = config_layout host (Accelerator.config a')).
  { unfold a', Accelerator.setTaskConfig, Accelerator.with_config.
    cbn [Accelerator.config_words Accelerator.config].
    apply ConfigIn_pack_layout_eq. exact Hwf'. }
  split; [done|]. split; [done|]. rewrite Hwords.
  pose proof (config_layout_fields host (Accelerator.config a')) as Hf.
  assert (Hget : forall j,
    config_layout host (Accelerator.config a') !! (6 + j)%nat
    = drop 6 (config_layout host (Accelerator.config a')) !! j)
    by (intros; by rewrite lookup_drop).
  split; [etrans; [exact (Hget 8%nat)|by rewrite Hf]|].
  split; [etrans; [exact (Hget 9%nat)|by rewrite Hf]|].
  split; [etrans; [exact (Hget 10%nat)|by rewrite Hf]|].
  clear Hget Hf.
  intros Hsync j H14 H15 H16. rewrite Hsync.
  destruct (Nat.lt_ge_cases j 6) as [Hlt|Hge].
  - unfold config_layout, address_words. cbn [Accelerator.config a'
      Accelerator.setTaskConfig Accelerator.with_config ConfigIn.input_buffer_addr
      ConfigIn.output_buffer_addr ConfigIn.kv_cache_addr].
    destruct host; cbn [app];
      do 6 (destruct j as [|j]; [done|]); lia.
  - replace j with (6 + (j - 6))%nat by lia.
    rewrite !config_layout_lookup, !config_layout_fields.
    cbn [Accelerator.config a' Accelerator.setTaskConfig Accelerator.with_config
         ConfigIn.stride ConfigIn.max_tokens ConfigIn.batch_size ConfigIn.sequence_length
         ConfigIn.num_layers ConfigIn.hidden_size ConfigIn.num_heads ConfigIn.vocab_size
         ConfigIn.prompt_length ConfigIn.task_id ConfigIn.task_type ConfigIn.flags
         ConfigIn.reserved].
    remember (j - 6)%nat as k eqn:Hk.
    do 8 (destruct k as [|k]; [done|]).
    do 3 (destruct k as [|k]; [lia|]).
    done.
Qed.

Lemma setTaskConfig_words_witness :
  let a := Accelerator.configure LittleEndian Accelerator.init
             0x10000000 0x20000000 0x30000000 128 2048 in
  let a' := Accelerator.setTaskConfig LittleEndian a 7 12 in
  ConfigIn.wf (Accelerator.config a')
  /\ Accelerator.config_words a' = config_layout LittleEndian (Accelerator.config a')
  /\ Accelerator.config_words a' !! 14%nat = Some 12
  /\ Accelerator.config_words a' !! 15%nat = Some (wrap32 7)
  /\ Accelerator.config_words a' !! 16%nat = Some 0
  /\ (Accelerator.config_words a = config_layout LittleEndian (Accelerator.config a) ->
      forall j, j <> 14%nat -> j <> 15%nat -> j <> 16%nat ->
        Accelerator.config_words a' !! j = Accelerator.config_words a !! j).
Proof.
  apply (setTaskConfig_words LittleEndian
           (Accelerator.configure LittleEndian Accelerator.init
              0x10000000 0x20000000 0x30000000 128 2048) 7 12).
  - apply configure_wf; try (unfold is_u64, is_u32; lia). apply ConfigIn_init_wf.
  - unfold is_u32. lia.
Defined.

(** X15. configure stores the three addresses, the stride and the token
    budget, keeps the other members, and leaves the packed words equal to
    the layout of the result: stride in word 6, max_tokens in word 7, the
    words from 8 on as they were laid out before, and on a little-endian
    host the addresses where getAddress finds them.  The KV cache, the
    cached status, the status words, the input buffer and the token
    counter are as they were. *)
Theorem configure_words (host : endianness) (a : Accelerator.t)
    (input_addr output_addr kv_cache_addr stride max_tokens : Z) :
  ConfigIn.wf (Accelerator.config a) ->
  is_u64 input_addr -> is_u64 output_addr -> is_u64 kv_cache_addr ->
  is_u32 stride -> is_u32 max_tokens ->
  let a' := Accelerator.configure host a input_addr output_addr kv_cache_addr
              stride max_tokens in
  ConfigIn.wf (Accelerator.config a')
  /\ Accelerator.config_words a' = config_layout host (Accelerator.config a')
  /\ Accelerator.config_words a' !! 6%nat = Some stride
  /\ Accelerator.config_words a' !! 7%nat = Some max_tokens
  /\ drop 8 (Accelerator.config_words a') = drop 8 (config_layout host (Accelerator.config a))
  /\ (host = LittleEndian ->
      ConfigIn.getAddress (Accelerator.config_words a') 0 = Some input_addr
      /\ ConfigIn.getAddress (Accelerator.config_words a') 2 = Some output_addr
      /\ ConfigIn.getAddress (Accelerator.config_words a') 4 = Some kv_cache_addr)
  /\ Accelerator.kv_cache a' = Accelerator.kv_cache a
  /\ Accelerator.status a' = Accelerator.status a
  /\ Accelerator.status_words a' = Accelerator.status_words a
  /\ Accelerator.input_buffer a' = Accelerator.input_buffer a
  /\ Accelerator.token_counter a' = Accelerator.token_counter a.
Proof.
  intros Hwf Hi Ho Hk Hs Hm a'.
  assert (Hwf' : ConfigIn.wf (Accelerator.config a')) by by apply configure_wf.
  assert (Hwords : Accelerator.config_words a' = config_layout host (Accelerator.config a')).
  { unfold a', Accelerator.configure, Accelerator.with_config.
    cbn [Accelerator.config_words Accelerator.config].
    apply ConfigIn_pack_layout_eq. exact Hwf'. }
  split; [done|]. split; [done|]. rewrite Hwords.
  pose proof (config_layout_fields host (Accelerator.config a')) as Hf.
  pose proof (config_layout_fields host (Accelerator.config a)) as Hf0.
  assert (Hget : forall j,
    config_layout host (Accelerator.config a') !! (6 + j)%nat
    = drop 6 (config_layout host (Accelerator.config a')) !! j)
    by (intros; by rewrite lookup_drop).
  split; [etrans; [exact (Hget 0%nat)|by rewrite Hf]|].
  split; [etrans; [exact (Hget 1%nat)|by rewrite Hf]|].
  split.
  { assert (Hd : forall l : list Z, drop 8 l = drop 2 (drop 6 l))
      by (intros; by rewrite drop_drop).
    by rewrite !Hd, Hf, Hf0. }
  clear Hget Hf Hf0.
  split; [|done].
  intros ->.
  assert (Hjoin : forall x, is_u64 x ->
    Z.lor (wrap64 (Z.shiftl (x / 2 ^ 32) 32)) (x mod 2 ^ 32) = x).
  { unfold is_u64. intros x Hx. unfold wrap64. rewrite Z.shiftl_mul_pow2 by lia.
    assert (0 <= x / 2 ^ 32 < 2 ^ 32).
    { split; [apply Z.div_pos; lia|]. apply Z.div_lt_upper_bound; lia. }
    rewrite Z.mod_small by lia.
    rewrite lor_disjoint by (try apply Z.mod_pos_bound; lia).
    pose proof (Z.div_mod x (2 ^ 32)). lia. }
  unfold ConfigIn.getAddress, config_layout, address_words.
  cbn [app lookup list_lookup a' Accelerator.configure Accelerator.with_config
       Accelerator.config ConfigIn.input_buffer_addr ConfigIn.output_buffer_addr
       ConfigIn.kv_cache_addr].
  by rewrite !Hjoin.
Qed.

Lemma configure_words_witness :
  let a := Accelerator.init in
  let a' := Accelerator.configure LittleEndian a 0x10000000 0x20000000 0x30000000
              128 2048 in
  ConfigIn.wf (Accelerator.config a')
  /\ Accelerator.config_words a' = config_layout LittleEndian (Accelerator.config a')
  /\ Accelerator.config_words a' !! 6%nat = Some 128
  /\ Accelerator.config_words a' !! 7%nat = Some 2048
  /\ drop 8 (Accelerator.config_words a')
     = drop 8 (config_layout LittleEndian (Accelerator.config a))
  /\ (LittleEndian = LittleEndian ->
      ConfigIn.getAddress (Accelerator.config_words a') 0 = Some 0x10000000
      /\ ConfigIn.getAddress (Accelerator.config_words a') 2 = Some 0x20000000
      /\ ConfigIn.getAddress (Accelerator.config_words a') 4 = Some 0x30000000)
  /\ Accelerator.kv_cache a' = Accelerator.kv_cache a
  /\ Accelerator.status a' = Accelerator.status a
  /\ Accelerator.status_words a' = Accelerator.status_words a
  /\ Accelerator.input_buffer a' = Accelerator.input_buffer a
  /\ Accelerator.token_counter a' = Accelerator.token_counter a.
Proof.
  apply (configure_words LittleEndian Accelerator.init
           0x10000000 0x20000000 0x30000000 128 2048);
    try (unfold is_u64, is_u32; lia).
  apply ConfigIn_init_wf.
Defined.

(** X16. startInference copies the prompt into the input buffer up to
    the capacity of the buffer and drops the rest, while the prompt length
    it records in the configuration is the full number of tokens; it keeps
    the KV cache, sets the cached status to valid with no token generated,
    and the status words the register file answers from stay as they
    were. *)
Theorem startInference_input (host : endianness) (a : Accelerator.t)
    (task_id : Z) (tokens : list Z) :
  let a' := Accelerator.startInference host a task_id tokens in
  length (Accelerator.input_buffer a') = length (Accelerator.input_buffer a)
  /\ (forall i, (i < length tokens)%nat -> (i < length (Accelerator.input_buffer a))%nat ->
        Accelerator.input_buffer a' !! i = tokens !! i)
  /\ (forall i, (length tokens <= i)%nat ->
        Accelerator.input_buffer a' !! i = Accelerator.input_buffer a !! i)
  /\ ConfigIn.prompt_length (Accelerator.config a') = wrap32 (vsize tokens)
  /\ ConfigIn.task_id (Accelerator.config a') = wrap32 task_id
  /\ StatusOut.tokens_generated (Accelerator.status a') = 0
  /\ StatusOut.flags (Accelerator.status a') = 1
  /\ Accelerator.kv_cache a' = Accelerator.kv_cache a
  /\ Accelerator.status_words a' = Accelerator.status_words a.
Proof.
  intros a'. subst a'. unfold Accelerator.startInference.
  cbn [Accelerator.input_buffer Accelerator.with_status Accelerator.with_input_buffer
       Accelerator.writeReg Accelerator.setTaskConfig Accelerator.with_config
       Accelerator.config Accelerator.status Accelerator.kv_cache
       Accelerator.status_words StatusOut.pack_to_words StatusOut.tokens_generated
       StatusOut.flags ConfigIn.prompt_length ConfigIn.task_id].
  unfold Accelerator.fill_input.
  set (buffer := Accelerator.input_buffer a).
  split; [|split; [|split]]; [| | |done].
  - rewrite length_app, length_take, length_drop. lia.
  - intros i Ht Hb. rewrite lookup_app_l by (rewrite length_take; lia).
    by rewrite lookup_take_lt by lia.
  - intros i Hi. destruct (Nat.le_gt_cases (length buffer) (length tokens)).
    + rewrite drop_ge, app_nil_r by lia.
      rewrite lookup_take_ge by lia. symmetry. apply lookup_ge_None. lia.
    + rewrite take_ge by lia. rewrite lookup_app_r by lia.
      rewrite lookup_drop. f_equal. lia.
Qed.


(** X18. On a driver reached through its public interface the simulated
    register file never reports a valid status: getStatus returns the
    all-zero status, also right after startInference has marked the cached
    status valid, and isDone and isIdle are both true. *)
Theorem simulated_status_never_valid (host : endianness) (a : Accelerator.t)
    (task_id : Z) (tokens : list Z) :
  Accelerator.reachable host a ->
  (Accelerator.getStatus a).1 = StatusOut.init
  /\ StatusOut.isValid (Accelerator.getStatus a).1 = false
  /\ StatusOut.flags (Accelerator.status (Accelerator.startInference host a task_id tokens)) = 1
  /\ (Accelerator.getStatus (Accelerator.startInference host a task_id tokens)).1
     = StatusOut.init
  /\ Accelerator.isDone a = true
  /\ Accelerator.isIdle a = true.
Proof.
  intros Ha.
  assert (Hzero : forall b, Accelerator.reachable host b ->
            (Accelerator.getStatus b).1 = StatusOut.init).
  { intros b Hb. unfold Accelerator.getStatus. cbn [fst].
    by destruct (readStatus_zero_words b (reachable_status_words host b Hb)) as (_ & -> & _). }
  rewrite (Hzero a Ha). split; [done|]. split; [done|]. split; [done|].
  split; [|done]. apply Hzero. by constructor.
Qed.

Lemma simulated_status_never_valid_witness :
  let a := Accelerator.configure LittleEndian Accelerator.init
             0x10000000 0x20000000 0x30000000 128 2048 in
  (Accelerator.getStatus a).1 = StatusOut.init
  /\ StatusOut.isValid (Accelerator.getStatus a).1 = false
  /\ StatusOut.flags (Accelerator.status
                        (Accelerator.startInference LittleEndian a 1 [104; 105])) = 1
  /\ (Accelerator.getStatus (Accelerator.startInference LittleEndian a 1 [104; 105])).1
     = StatusOut.init
  /\ Accelerator.isDone a = true
  /\ Accelerator.isIdle a = true.
Proof.
  apply (simulated_status_never_valid LittleEndian
           (Accelerator.configure LittleEndian Accelerator.init
              0x10000000 0x20000000 0x30000000 128 2048) 1 [104; 105]).
  repeat constructor.
Defined.

(** ** The engine, further *)

Section Tokens.

Lemma char_to_u32_ascii cs c :
  (nat_of_ascii c < 128)%nat ->
  Engine.char_to_u32 cs c = Z.of_nat (nat_of_ascii c).
Proof.
  intros Hc. unfold Engine.char_to_u32. destruct cs; [|done].
  unfold int8, to_signed, wrap32.
  change (2 ^ 8) with 256. change (2 ^ (8 - 1)) with 128.
  rewrite (Z.mod_small (Z.of_nat (nat_of_ascii c)) 256) by lia.
  destruct (Z.ltb_spec (Z.of_nat (nat_of_ascii c)) 128); [|lia].
  apply Z.mod_small. lia.
Qed.

Lemma char_to_u32_high cs c :
  (128 <= nat_of_ascii c)%nat -> 128 <= Engine.char_to_u32 cs c < 2 ^ 32.
Proof.
  intros Hc. pose proof (nat_ascii_bounded c) as Hb.
  unfold Engine.char_to_u32. destruct cs; [|lia].
  unfold int8, to_signed, wrap32.
  change (2 ^ 8) with 256. change (2 ^ (8 - 1)) with 128.
  rewrite (Z.mod_small (Z.of_nat (nat_of_ascii c)) 256) by lia.
  destruct (Z.ltb_spec (Z.of_nat (nat_of_ascii c)) 128); [lia|].
  change (2 ^ 32) with 4294967296.
  Z.to_euclidean_division_equations; lia.
Qed.

End Tokens.

(** X19. tokenize gives one token per character.  A text of 7-bit
    characters is shown again as it was when its tokens are detokenized,
    whether plain char is signed or not; a character from 128 on becomes a
    token of at least 128, which detokenize shows as a bracketed number,
    not as the character. *)
Theorem detokenize_tokenize (char_is_signed : bool) (text : string) :
  length (Engine.tokenize char_is_signed text) = String.length text
  /\ (is_ascii text = true -> render (Engine.tokenize char_is_signed text) = text)
  /\ (forall c, (128 <= nat_of_ascii c)%nat ->
        Engine.detokenize (Engine.char_to_u32 char_is_signed c)
        = ("[T" ++ Engine.to_string (Engine.char_to_u32 char_is_signed c) ++ "]")%string).
Proof.
  split; [|split].
  - induction text as [|c text IH]; [done|]. cbn. by rewrite IH.
  - induction text as [|c text IH]; [done|].
    cbn [is_ascii Engine.tokenize]. intros [Hc Ht]%andb_true_iff.
    apply Nat.ltb_lt in Hc.
    unfold render in *. cbn [foldr]. rewrite (IH Ht).
    rewrite char_to_u32_ascii by done.
    unfold Engine.detokenize.
    destruct (Z.ltb_spec (Z.of_nat (nat_of_ascii c)) 128); [|lia].
    by rewrite Nat2Z.id, ascii_nat_embedding.
  - intros c Hc. pose proof (char_to_u32_high char_is_signed c Hc).
    unfold Engine.detokenize.
    by destruct (Z.ltb_spec (Engine.char_to_u32 char_is_signed c) 128); [lia|].
Qed.

Section Budget.

Import Engine.

Local Ltac closing_in :=
  unfold closing_texts;
  repeat first [apply list_elem_of_here | apply list_elem_of_further].

Local Ltac closes l :=
  exists l; split; [by rewrite <- ?app_assoc|]; split; [closing_in|done].

(** One pass of the generation loop, token by token. *)
Lemma runGeneration_pass_tokens st w token_count :
  EngineState.cancelCurrent st = false ->
  match runGeneration_pass st w token_count with
  | Continue st' w' token_count' =>
      st' = st /\ token_count < MAX_TOKENS
      /\ ((token_count' = token_count /\ ui w' = ui w)
          \/ (exists token, token <> EOS_TOKEN
                /\ token_count' = token_count + 1
                /\ ui w' = ui w ++ [detokenize token]))
  | Return st' w' =>
      exists closing, ui w' = ui w ++ closing /\ closing ∈ closing_texts
        /\ (closing = [msg_max_tokens] -> MAX_TOKENS <= token_count)
  end.
Proof.
  destruct st as [s id c r]; simpl; intros ->.
  unfold runGeneration_pass.
  destruct (Z.ltb_spec token_count MAX_TOKENS).
  2:{ cbn. exists [msg_max_tokens]. split; [done|]. split; [|done].
      closing_in. }
  unfold runGeneration_body.
  destruct (Queue.tryPop _ _ _) as [[popped cmd] q].
  destruct popped; [destruct cmd as [[]]; destruct r; cbn;
    first [closes [msg_aborted] | closes [msg_aborted; msg_memory_cleared]
          | closes [msg_aborted_shutdown]]|].
  - destruct r; cbn.
    + destruct (Accelerator.getNextToken _ _) as [[yielded tok] a].
      destruct yielded; [destruct (Z.eqb_spec tok EOS_TOKEN)|]; cbn.
      * exists [msg_eos]. split; [done|]. split; [closing_in|done].
      * split; [done|]. split; [done|]. right. by exists tok.
      * split; [done|]. split; [done|]. by left.
    + destruct (Accelerator.getNextToken _ _) as [[yielded tok] a].
      destruct yielded; [destruct (Z.eqb_spec tok EOS_TOKEN)|]; cbn.
      * exists [msg_eos]. split; [done|]. split; [closing_in|done].
      * split; [done|]. split; [done|]. right. by exists tok.
      * split; [done|]. split; [done|]. by left.
Qed.

Lemma runGeneration_loop_tokens fuel arrivals k st w token_count :
  EngineState.cancelCurrent st = false ->
  0 <= token_count <= MAX_TOKENS ->
  match runGeneration_loop fuel arrivals k st w token_count with
  | Continue st' w' token_count' =>
      exists tokens, ui w' = ui w ++ map detokenize tokens
        /\ Forall (fun token => token <> EOS_TOKEN) tokens
        /\ token_count' = token_count + Z.of_nat (length tokens)
        /\ token_count' <= MAX_TOKENS
  | Return st' w' =>
      exists tokens closing,
        ui w' = ui w ++ map detokenize tokens ++ closing
        /\ Forall (fun token => token <> EOS_TOKEN) tokens
        /\ token_count + Z.of_nat (length tokens) <= MAX_TOKENS
        /\ closing ∈ closing_texts
        /\ (closing = [msg_max_tokens] ->
              token_count + Z.of_nat (length tokens) = MAX_TOKENS)
  end.
Proof.
  revert k st w token_count.
  induction fuel as [|fuel IH]; intros k st w token_count Hc Htc; cbn [runGeneration_loop].
  - exists []. cbn. rewrite app_nil_r. repeat split; (done || lia).
  - pose proof (runGeneration_pass_tokens st (fold_left shell_push (arrivals k) w)
                  token_count Hc) as Hpass.
    rewrite shell_push_ui in Hpass.
    destruct (runGeneration_pass _ _ _) as [st1 w1 tc1|st1 w1].
    + destruct Hpass as (-> & Hlt & Hcase).
      assert (Htc1 : 0 <= tc1 <= MAX_TOKENS).
      { destruct Hcase as [[Ha _]|(tok0 & _ & Ha & _)]; lia. }
      specialize (IH (S k) st w1 tc1 Hc Htc1).
      assert (Hpre : exists pre, ui w1 = ui w ++ map detokenize pre
                /\ Forall (fun token => token <> EOS_TOKEN) pre
                /\ tc1 = token_count + Z.of_nat (length pre)).
      { destruct Hcase as [[-> ->]|(tok & Htok & -> & ->)].
        - exists []. cbn. rewrite app_nil_r. repeat split; (done || lia).
        - exists [tok]. cbn. repeat split; first [done | lia | by repeat constructor]. }
      destruct Hpre as (pre & Hui1 & Hpre & Hlen1).
      destruct (runGeneration_loop _ _ _ _ _ _) as [st2 w2 tc2|st2 w2].
      * destruct IH as (toks & Hui2 & Htoks & Hlen2 & Hle).
        exists (pre ++ toks). rewrite Hui2, Hui1, map_app, <- app_assoc, length_app.
        split; [done|]. split; [by apply Forall_app|]. lia.
      * destruct IH as (toks & closing & Hui2 & Htoks & Hle & Hin & Hmax).
        exists (pre ++ toks), closing.
        rewrite Hui2, Hui1, map_app, <- !app_assoc, length_app.
        split; [done|]. split; [by apply Forall_app|].
        split; [lia|]. split; [done|]. intros Hcl. specialize (Hmax Hcl). lia.
    + destruct Hpass as (closing & Hui & Hin & Hmax).
      exists [], closing. cbn. split; [done|]. split; [done|]. split; [lia|].
      split; [done|]. intros Hcl. specialize (Hmax Hcl). lia.
Qed.

End Budget.

(** X20. Whatever the driver yields and whatever the shell pushes, the
    output of runGeneration is the Generating text, then the texts of at
    most 50 tokens, none of them the EOS token, then, when it returns, one
    of its five closings: EOS, Aborted, Aborted followed by Memory cleared,
    the shutdown text, or Max tokens reached; and Max tokens reached closes
    it only after exactly 50 tokens. *)
Theorem runGeneration_budget (host : endianness) (char_is_signed : bool) (fuel : nat)
    (arrivals : nat -> list Engine.shell_event)
    (task : Task.t) (st : EngineState.t) (w : Engine.world) :
  match Engine.runGeneration host char_is_signed fuel arrivals task st w with
  | Engine.Continue _ w' token_count =>
      exists tokens,
        Engine.ui w' = Engine.ui w ++ Engine.msg_generating :: map Engine.detokenize tokens
        /\ Forall (fun token => token <> EOS_TOKEN) tokens
        /\ token_count = Z.of_nat (length tokens)
        /\ (length tokens <= 50)%nat
  | Engine.Return _ w' =>
      exists tokens closing,
        Engine.ui w' = Engine.ui w ++ Engine.msg_generating
                         :: map Engine.detokenize tokens ++ closing
        /\ Forall (fun token => token <> EOS_TOKEN) tokens
        /\ (length tokens <= 50)%nat
        /\ closing ∈ closing_texts
        /\ (closing = [Engine.msg_max_tokens] -> length tokens = 50%nat)
  end.
Proof.
  unfold Engine.runGeneration, Engine.runGeneration_enter.
  match goal with |- context [Engine.runGeneration_loop _ _ _ ?st1 ?w1 _] =>
    pose proof (runGeneration_loop_tokens fuel arrivals 0 st1 w1 0) as Hloop
  end.
  specialize (Hloop eq_refl ltac:(unfold Engine.MAX_TOKENS; lia)).
  cbn [Engine.ui Engine.sendOutputToUI Engine.with_accel] in Hloop.
  unfold Engine.MAX_TOKENS in Hloop.
  destruct (Engine.runGeneration_loop _ _ _ _ _ _) as [st2 w2 tc2|st2 w2].
  - destruct Hloop as (toks & Hui & Htoks & Hlen & Hle).
    exists toks. rewrite Hui, <- app_assoc. repeat split; (done || lia).
  - destruct Hloop as (toks & closing & Hui & Htoks & Hle & Hin & Hmax).
    exists toks, closing. rewrite Hui, <- app_assoc.
    repeat split; try (done || lia). intros Hcl. specialize (Hmax Hcl). lia.
Qed.

Section EngineSteps.

Variable host : endianness.
Variable char_is_signed : bool.

Import Engine.

Lemma command_queue_size : 0 < COMMAND_QUEUE_SIZE < 2 ^ 64.
Proof. unfold COMMAND_QUEUE_SIZE. lia. Qed.

Lemma tryPop_item {T : Type} (N : Z) (q : Queue.t T) (x : T) (items : list T) (item : T) :
  0 < N < 2 ^ 64 -> Queue.holds N q (x :: items) ->
  exists q', Queue.tryPop N q item = (true, x, q') /\ Queue.holds N q' items.
Proof.
  intros HN Hq. unfold Queue.tryPop.
  destruct (pop_item N HN q x items item Hq) as (q' & -> & Hq' & _). by exists q'.
Qed.

Lemma tryPop_nothing {T : Type} (N : Z) (q : Queue.t T) (item : T) :
  Queue.holds N q [] -> Queue.tryPop N q item = (false, item, q).
Proof.
  intros (_ & Hlen & _). unfold Queue.tryPop. apply pop_empty. simpl in Hlen. lia.
Qed.

Lemma after_generation_status st :
  EngineState.status (after_generation st) <> GENERATING.
Proof. by destruct st as [[] id c r]. Qed.

(** A pass of the generation loop that finds a command. *)
Lemma runGeneration_pass_pops st w token_count cmd rest :
  Queue.holds COMMAND_QUEUE_SIZE (commandQueue w) (cmd :: rest) ->
  token_count < MAX_TOKENS ->
  exists st' w',
    runGeneration_pass st w token_count = Return st' w'
    /\ Queue.holds COMMAND_QUEUE_SIZE (commandQueue w') rest
    /\ taskQueue w' = taskQueue w
    /\ EngineState.currentTaskId st' = EngineState.currentTaskId st
    /\ EngineState.cancelCurrent st' = true
    /\ match Command.type cmd with
       | STOP_CURRENT =>
           EngineState.status st' = EngineState.status st
           /\ EngineState.resetRequested st' = false
           /\ (if EngineState.resetRequested st
               then accel w' = Accelerator.reset (accel w)
                    /\ ui w' = ui w ++ [msg_aborted; msg_memory_cleared]
               else accel w' = accel w /\ ui w' = ui w ++ [msg_aborted])
       | RESET =>
           EngineState.status st' = EngineState.status st
           /\ EngineState.resetRequested st' = false
           /\ accel w' = Accelerator.reset (accel w)
           /\ ui w' = ui w ++ [msg_aborted; msg_memory_cleared]
       | SHUTDOWN =>
           EngineState.status st' = SHUTTING_DOWN
           /\ EngineState.resetRequested st' = EngineState.resetRequested st
           /\ accel w' = accel w
           /\ ui w' = ui w ++ [msg_aborted_shutdown]
       end.
Proof.
  intros Hq Htc. unfold runGeneration_pass.
  destruct (Z.ltb_spec token_count MAX_TOKENS); [|lia].
  unfold runGeneration_body.
  destruct (tryPop_item _ _ _ _ Command.init command_queue_size Hq) as (q' & -> & Hq').
  destruct st as [s id c r]. destruct cmd as [[]]; cbn.
  - destruct r; cbn; eexists _, _; (split; [reflexivity|]); cbn;
      rewrite <- ?app_assoc; done.
  - eexists _, _; (split; [reflexivity|]); cbn; rewrite <- ?app_assoc; done.
  - eexists _, _; (split; [reflexivity|]); cbn; done.
Qed.

(** A pass of the generation loop leaves the task queue alone, and so it
    does the command queue and the status when no command waits. *)
Lemma runGeneration_pass_queues st w token_count :
  match runGeneration_pass st w token_count with
  | Continue st' w' _ | Return st' w' =>
      taskQueue w' = taskQueue w
      /\ (Queue.holds COMMAND_QUEUE_SIZE (commandQueue w) [] \/ MAX_TOKENS <= token_count ->
            commandQueue w' = commandQueue w
            /\ EngineState.status st' = EngineState.status st)
  end.
Proof.
  unfold runGeneration_pass.
  destruct (Z.ltb_spec token_count MAX_TOKENS); [|by cbn].
  unfold runGeneration_body.
  destruct (Queue.tryPop _ _ _) as [[popped cmd] q] eqn:Hpop.
  assert (Hq : Queue.holds COMMAND_QUEUE_SIZE (commandQueue w) [] \/ MAX_TOKENS <= token_count ->
               popped = false /\ q = commandQueue w).
  { intros [Hq|?]; [|lia]. rewrite (tryPop_nothing _ _ _ Hq) in Hpop.
    by injection Hpop as <- _ <-. }
  destruct st as [s id c r].
  destruct popped; [destruct cmd as [[]]|]; cbn.
  - destruct r; cbn; (split; [done|]); by intros [[=] _]%Hq.
  - split; [done|]. by intros [[=] _]%Hq.
  - split; [done|]. by intros [[=] _]%Hq.
  - destruct c; cbn.
    + destruct r; cbn; (split; [done|]); by intros [_ ->]%Hq.
    + destruct (Accelerator.getNextToken _ _) as [[yielded tok] a].
      destruct yielded; [destruct (tok =? EOS_TOKEN)|]; cbn;
        (split; [done|]); by intros [_ ->]%Hq.
Qed.

(** The loop of the engine thread, idle, with a command waiting. *)
Lemma idle_pops_command s cmd rest :
  at_pc s = AtLoopHead ->
  EngineState.status (state s) = IDLE ->
  Queue.holds COMMAND_QUEUE_SIZE (commandQueue (the_world s)) (cmd :: rest) ->
  exists s',
    engine_step host char_is_signed s = Some s'
    /\ at_pc s' = AtLoopHead
    /\ shell s' = shell s
    /\ Queue.holds COMMAND_QUEUE_SIZE (commandQueue (the_world s')) rest
    /\ taskQueue (the_world s') = taskQueue (the_world s)
    /\ match Command.type cmd with
       | STOP_CURRENT =>
           state s' = state s
           /\ accel (the_world s') = accel (the_world s)
           /\ ui (the_world s') = ui (the_world s)
       | RESET =>
           state s' = state s
           /\ accel (the_world s') = Accelerator.reset (accel (the_world s))
           /\ ui (the_world s') = ui (the_world s) ++ [(nl ++ msg_memory_cleared)%string]
       | SHUTDOWN =>
           state s' = set_status (state s) SHUTTING_DOWN
           /\ accel (the_world s') = accel (the_world s)
           /\ ui (the_world s') = ui (the_world s)
       end.
Proof.
  destruct s as [pc st w sh]. cbn [at_pc state the_world shell].
  intros -> Hs Hq. unfold engine_step. cbn [at_pc state the_world shell]. rewrite Hs.
  destruct (tryPop_item _ _ _ _ Command.init command_queue_size Hq) as (q' & -> & Hq').
  unfold handleTopLevelCommand.
  destruct cmd as [[]]; cbn; eexists; (split; [reflexivity|]); by cbn.
Qed.

Lemma loop_head_exits s :
  at_pc s = AtLoopHead ->
  EngineState.status (state s) = SHUTTING_DOWN ->
  exists s', engine_step host char_is_signed s = Some s' /\ at_pc s' = Exited.
Proof.
  intros Hpc Hs. unfold engine_step. rewrite Hpc, Hs. by eexists.
Qed.

Lemma loop_head_reaches_exit cmds : forall s,
  at_pc s = AtLoopHead ->
  EngineState.status (state s) <> GENERATING ->
  Queue.holds COMMAND_QUEUE_SIZE (commandQueue (the_world s)) cmds ->
  Exists is_shutdown cmds ->
  exists n s', (n <= length cmds + 1)%nat
    /\ run_schedule host char_is_signed (replicate n None) s = Some s'
    /\ at_pc s' = Exited.
Proof.
  induction cmds as [|cmd rest IH]; intros s Hpc Hs Hq Hex; [by inversion Hex|].
  destruct (EngineState.status (state s)) eqn:Hst; [|done|].
  - destruct (idle_pops_command s cmd rest Hpc Hst Hq)
      as (s1 & Hstep & Hpc1 & _ & Hq1 & _ & Hcase).
    destruct (Command.type cmd) eqn:Hty.
    + destruct Hcase as (Hst1 & _).
      destruct (IH s1) as (n & s' & Hn & Hrun & Hexit); try done.
      * rewrite Hst1. congruence.
      * inversion Hex; subst; [unfold is_shutdown in *; congruence|done].
      * exists (S n), s'. cbn [replicate run_schedule length]. rewrite Hstep.
        split; [lia|done].
    + destruct Hcase as (Hst1 & _).
      destruct (IH s1) as (n & s' & Hn & Hrun & Hexit); try done.
      * rewrite Hst1. congruence.
      * inversion Hex; subst; [unfold is_shutdown in *; congruence|done].
      * exists (S n), s'. cbn [replicate run_schedule length]. rewrite Hstep.
        split; [lia|done].
    + destruct Hcase as (Hst1 & _).
      destruct (loop_head_exits s1 Hpc1) as (s2 & Hstep2 & Hexit); [by rewrite Hst1|].
      exists 2%nat, s2. cbn [replicate run_schedule length]. rewrite Hstep, Hstep2.
      split; [lia|done].
  - destruct (loop_head_exits s Hpc Hst) as (s1 & Hstep & Hexit).
    exists 1%nat, s1. cbn [replicate run_schedule length]. rewrite Hstep.
    split; [lia|done].
Qed.

Lemma generation_reaches_exit s task token_count cmds :
  at_pc s = InGeneration task token_count ->
  Queue.holds COMMAND_QUEUE_SIZE (commandQueue (the_world s)) cmds ->
  Exists is_shutdown cmds ->
  exists n s', (n <= length cmds + 2)%nat
    /\ run_schedule host char_is_signed (replicate n None) s = Some s'
    /\ at_pc s' = Exited.
Proof.
  intros Hpc Hq Hex.
  destruct (Z.lt_ge_cases token_count MAX_TOKENS) as [Hlt|Hge].
  - destruct cmds as [|cmd rest]; [by inversion Hex|].
    destruct (runGeneration_pass_pops (state s) (the_world s) token_count cmd rest Hq Hlt)
      as (st1 & w1 & Hpass & Hq1 & _ & _ & _ & Hcase).
    set (s1 := mkSystem AtLoopHead (after_generation st1) w1 (shell s)).
    assert (Hstep : engine_step host char_is_signed s = Some s1).
    { unfold engine_step. by rewrite Hpc, Hpass. }
    destruct (Command.type cmd) eqn:Hty.
    1,2: destruct (loop_head_reaches_exit rest s1) as (n & s' & Hn & Hrun & Hexit);
      [done|apply after_generation_status|done
      |inversion Hex; subst; [unfold is_shutdown in *; congruence|done]|];
      exists (S n), s'; cbn [replicate run_schedule length]; rewrite Hstep;
      split; [lia|done].
    destruct Hcase as (Hst1 & _).
    destruct (loop_head_exits s1 eq_refl) as (s2 & Hstep2 & Hexit).
    { cbn. unfold after_generation. by rewrite Hst1. }
    exists 2%nat, s2. cbn [replicate run_schedule length]. rewrite Hstep, Hstep2.
    split; [lia|done].
  - assert (Hstep : exists s1, engine_step host char_is_signed s = Some s1
              /\ at_pc s1 = AtLoopHead
              /\ EngineState.status (state s1) <> GENERATING
              /\ commandQueue (the_world s1) = commandQueue (the_world s)).
    { unfold engine_step. rewrite Hpc. unfold runGeneration_pass in *.
      destruct (Z.ltb_spec token_count MAX_TOKENS); [lia|].
      eexists; split; [reflexivity|]. cbn. split; [done|].
      split; [apply after_generation_status|done]. }
    destruct Hstep as (s1 & Hstep & Hpc1 & Hst1 & Hq1).
    destruct (loop_head_reaches_exit cmds s1) as (n & s' & Hn & Hrun & Hexit);
      [done|done|by rewrite Hq1|done|].
    exists (S n), s'. cbn [replicate run_schedule length]. rewrite Hstep.
    split; [lia|done].
Qed.

End EngineSteps.

Section TaskIds.

Variable host : endianness.
Variable char_is_signed : bool.

Import Engine.

Lemma ids_increasing_snoc lo items hi task :
  Task.id task = hi -> ids_increasing lo items hi ->
  ids_increasing lo (items ++ [task]) (hi + 1).
Proof.
  intros Hid. revert lo; induction items as [|t items IH]; intros lo; cbn.
  - lia.
  - intros [Hlo Hrest]. split; [done|]. by apply IH.
Qed.

Lemma ids_increasing_hi lo items hi hi' :
  hi <= hi' -> ids_increasing lo items hi -> ids_increasing lo items hi'.
Proof.
  intros Hhi. revert lo; induction items as [|t items IH]; intros lo; cbn.
  - lia.
  - intros [Hlo Hrest]. split; [done|]. by apply IH.
Qed.

Lemma ids_increasing_lo lo lo' items hi :
  lo' <= lo -> ids_increasing lo items hi -> ids_increasing lo' items hi.
Proof. destruct items as [|t items]; cbn; [lia|]. intros Hlo [H1 H2]. split; [lia|done]. Qed.

Lemma ids_increasing_bounds lo items hi :
  ids_increasing lo items hi ->
  lo <= hi /\ forall task, task ∈ items -> lo <= Task.id task < hi.
Proof.
  revert lo; induction items as [|t items IH]; intros lo; cbn.
  - split; [done|]. by intros task ?%elem_of_nil.
  - intros [Hlo [Hhi Hrest]%IH].
    split; [lia|]. intros task [->|Hin]%elem_of_cons; [lia|].
    specialize (Hrest task Hin). lia.
Qed.

Lemma ids_increasing_sorted lo items hi :
  ids_increasing lo items hi ->
  forall i j ti tj, (i < j)%nat -> items !! i = Some ti -> items !! j = Some tj ->
    Task.id ti < Task.id tj.
Proof.
  revert lo; induction items as [|t items IH]; intros lo; cbn; [done|].
  intros [Hlo Hrest] i j ti tj Hij Hi Hj.
  destruct j as [|j]; [lia|]. cbn in Hj.
  destruct i as [|i]; cbn in Hi.
  - injection Hi as <-.
    destruct (ids_increasing_bounds _ _ _ Hrest) as (_ & Hall).
    specialize (Hall tj). 
    assert (tj ∈ items) by (by eapply list_elem_of_lookup_2).
    specialize (Hall H). lia.
  - eapply (IH _ Hrest i j); [lia|done|done].
Qed.

Lemma task_ids_inv_boot : task_ids_inv (boot host).
Proof.
  split; [done|]. exists []. split; [apply holds_init, task_queue_size|]. by cbn.
Qed.

Lemma shell_step_task_ids line s s' :
  shell_step line s = Some s' -> task_ids_inv s -> task_ids_inv s'.
Proof.
  unfold shell_step. intros Hstep (Hpc & items & Hq & Hids).
  destruct (quit (shell s)); [done|].
  destruct (String.eqb line EmptyString); [injection Hstep as <-; split; eauto|].
  assert (Hcmd : forall cmd q,
    Some (mkSystem (at_pc s) (state s)
            (shell_push (the_world s) (PushCommand cmd)) (mkShell (nextTaskId (shell s)) q))
    = Some s' -> task_ids_inv s').
  { intros cmd q [= <-]. split; [done|]. by exists items. }
  destruct (String.eqb line "/quit"); [by eapply Hcmd|].
  destruct (String.eqb line "/stop"); [by eapply Hcmd|].
  destruct (String.eqb line "/reset"); [by eapply Hcmd|].
  destruct (Z.geb_spec (nextTaskId (shell s)) (2 ^ 31 - 1)); [done|].
  injection Hstep as <-. split; [done|].
  unfold least_waiting_id in *. cbn [the_world at_pc shell nextTaskId].
  unfold shell_push, pushTask, Queue.full.
  destruct (Z.geb_spec (Queue.count (taskQueue (the_world s))) TASK_QUEUE_SIZE).
  - exists items. split; [done|]. eapply ids_increasing_hi; [|done]. lia.
  - destruct (push_room TASK_QUEUE_SIZE task_queue_size (taskQueue (the_world s)) items
                (Task.mk (nextTaskId (shell s)) GENERATE line) Hq)
      as (q' & -> & Hq' & _); [lia|].
    eexists. split; [exact Hq'|]. by apply ids_increasing_snoc.
Qed.

Lemma engine_step_task_ids s s' :
  engine_step host char_is_signed s = Some s' -> task_ids_inv s -> task_ids_inv s'.
Proof.
  unfold engine_step, task_ids_inv, least_waiting_id.
  intros Hstep (Hpc & items & Hq & Hids).
  destruct s as [pc st w sh]. cbn [at_pc state the_world shell] in *.
  destruct pc as [|task token_count|]; [| |done].
  - destruct (EngineState.status st).
    + destruct (Queue.tryPop COMMAND_QUEUE_SIZE _ _) as [[popped cmd] q].
      destruct popped.
      * unfold handleTopLevelCommand in Hstep.
        destruct cmd as [[]]; cbn in Hstep; injection Hstep as <-;
          (split; [done|]); by exists items.
      * cbn [taskQueue with_commandQueue] in Hstep.
        destruct items as [|task items].
        -- rewrite (tryPop_nothing _ _ _ Hq) in Hstep.
           injection Hstep as <-. split; [done|]. by exists [].
        -- destruct (tryPop_item _ _ _ _ Task.init task_queue_size Hq) as (q' & Hpop & Hq').
           rewrite Hpop in Hstep. cbn in Hstep. injection Hstep as <-.
           destruct Hids as [Hid Hrest]. cbn. split; [done|]. by exists items.
    + injection Hstep as <-. split; [done|]. by exists items.
    + injection Hstep as <-. split; [done|]. by exists items.
  - pose proof (runGeneration_pass_queues st w token_count) as Hpass.
    destruct (runGeneration_pass st w token_count) as [st1 w1 tc1|st1 w1];
      injection Hstep as <-; destruct Hpass as (Htq & _); cbn [at_pc the_world shell].
    + split; [done|]. exists items. by rewrite Htq.
    + split; [done|]. exists items. rewrite Htq. split; [done|].
      eapply ids_increasing_lo; [|done]. lia.
Qed.

Lemma reachable_task_ids s : reachable host char_is_signed s -> task_ids_inv s.
Proof.
  induction 1 as [|s s' _ IH Hstep]; [apply task_ids_inv_boot|].
  destruct Hstep as [s s' Hstep|line s s' Hstep].
  - by eapply engine_step_task_ids.
  - by eapply shell_step_task_ids.
Qed.

(** What was typed is reached. *)
Lemma typed_reachable lines : reachable LittleEndian char_is_signed (typed lines).
Proof.
  unfold typed.
  assert (H : forall s, reachable LittleEndian char_is_signed s ->
            reachable LittleEndian char_is_signed
              (fold_left (fun s line => default s (shell_step line s)) lines s)).
  { induction lines as [|line lines IH]; intros s Hs; [done|].
    cbn [fold_left]. apply IH.
    destruct (shell_step line s) as [s1|] eqn:H1; [|done].
    eapply reachable_step; [done|]. by eapply step_shell. }
  apply H, reachable_boot.
Qed.

(** No Shutdown waits, and main pushes no more. *)
Lemma engine_step_no_shutdown s s' :
  engine_step host char_is_signed s = Some s' ->
  no_shutdown_pending s -> no_shutdown_pending s'.
Proof.
  unfold engine_step, no_shutdown_pending.
  intros Hstep (Hquit & Hst & Hpc & cmds & Hq & Hcmds).
  destruct s as [pc st w sh]. cbn [at_pc state the_world shell] in *.
  destruct pc as [|task token_count|]; [| |done].
  - destruct (EngineState.status st) eqn:Hs; [| |done].
    + destruct cmds as [|cmd rest].
      * rewrite (tryPop_nothing _ _ _ Hq) in Hstep.
        cbn [taskQueue with_commandQueue] in Hstep.
        destruct (Queue.tryPop TASK_QUEUE_SIZE _ _) as [[popped task] q].
        destruct popped; cbn in Hstep; injection Hstep as <-; cbn;
          (split; [done|]); (split; [congruence|]); (split; [done|]); by exists [].
      * destruct (tryPop_item _ _ _ _ Command.init command_queue_size Hq)
          as (q' & Hpop & Hq').
        rewrite Hpop in Hstep. apply Forall_cons in Hcmds as [Hcmd Hrest].
        unfold handleTopLevelCommand, is_shutdown in *.
        destruct cmd as [[]]; cbn in Hstep, Hcmd; [| |done];
          injection Hstep as <-; cbn;
          (split; [done|]); (split; [congruence|]); (split; [done|]); by exists rest.
    + injection Hstep as <-. cbn. split; [done|]. split; [congruence|].
      split; [done|]. by exists cmds.
  - assert (Hpass : match runGeneration_pass st w token_count with
                    | Continue st' w' _ | Return st' w' =>
                        EngineState.status st' = EngineState.status st
                        /\ exists cmds', Queue.holds COMMAND_QUEUE_SIZE (commandQueue w') cmds'
                             /\ Forall (fun cmd => ~ is_shutdown cmd) cmds'
                    end).
    { destruct (Z.lt_ge_cases token_count MAX_TOKENS) as [Hlt|Hge];
        [destruct cmds as [|cmd rest]|].
      - pose proof (runGeneration_pass_queues st w token_count) as H.
        destruct (runGeneration_pass _ _ _); destruct H as (_ & H);
          destruct (H (or_introl Hq)) as (Hcq & Hst');
          (split; [done|]); exists []; by rewrite Hcq.
      - destruct (runGeneration_pass_pops st w token_count cmd rest Hq Hlt)
          as (st1 & w1 & -> & Hq1 & _ & _ & _ & Hcase).
        apply Forall_cons in Hcmds as [Hcmd Hrest]. unfold is_shutdown in Hcmd.
        destruct (Command.type cmd); [| |done];
          (split; [by destruct Hcase|]); by exists rest.
      - pose proof (runGeneration_pass_queues st w token_count) as H.
        destruct (runGeneration_pass _ _ _); destruct H as (_ & H);
          destruct (H (or_intror Hge)) as (Hcq & Hst');
          (split; [done|]); exists cmds; by rewrite Hcq. }
    destruct (runGeneration_pass st w token_count) as [st1 w1 tc1|st1 w1];
      injection Hstep as <-; destruct Hpass as (Hst1 & Hcmds1); cbn.
    + split; [done|]. split; [congruence|]. done.
    + split; [done|]. split; [|done].
      unfold after_generation. destruct (EngineState.status st1) eqn:H1; cbn; congruence.
Qed.

Lemma run_schedule_no_shutdown sched : forall s s',
  no_shutdown_pending s ->
  run_schedule host char_is_signed sched s = Some s' ->
  no_shutdown_pending s'.
Proof.
  induction sched as [|[line|] sched IH]; intros s s' Hs Hrun; cbn in Hrun.
  - by injection Hrun as <-.
  - destruct Hs as (Hquit & _). unfold shell_step in Hrun. by rewrite Hquit in Hrun.
  - destruct (engine_step host char_is_signed s) as [s1|] eqn:H1; [|done].
    eapply IH; [|done]. by eapply engine_step_no_shutdown.
Qed.

End TaskIds.

Local Ltac holds_by_computation :=
  split; [constructor; vm_compute; done|];
  split; [vm_compute; reflexivity|];
  let k := fresh "k" in let Hk := fresh "Hk" in
  intros k Hk;
  repeat (destruct k as [|k]; [vm_compute; reflexivity|]);
  cbn in Hk; lia.

(** X21. A pass of the generation loop that finds a command waiting takes
    the oldest one, reads no token and returns.  Stop ends the generation
    with the Aborted text and leaves the driver, the KV cache with it, as
    it was; Reset ends it with Aborted and Memory cleared and the KV cache
    zeroed; Shutdown sends the shutdown text and sets the status to
    ShuttingDown.  The task queue and the current task id are not
    touched, cancelCurrent is left true and resetRequested false. *)
Theorem generation_command_effect (st : EngineState.t) (w : Engine.world)
    (token_count : Z) (cmd : Command.t) (rest : list Command.t) :
  Queue.holds Engine.COMMAND_QUEUE_SIZE (Engine.commandQueue w) (cmd :: rest) ->
  token_count < Engine.MAX_TOKENS ->
  EngineState.resetRequested st = false ->
  exists st' w',
    Engine.runGeneration_pass st w token_count = Engine.Return st' w'
    /\ Queue.holds Engine.COMMAND_QUEUE_SIZE (Engine.commandQueue w') rest
    /\ Engine.taskQueue w' = Engine.taskQueue w
    /\ EngineState.currentTaskId st' = EngineState.currentTaskId st
    /\ EngineState.cancelCurrent st' = true
    /\ EngineState.resetRequested st' = false
    /\ match Command.type cmd with
       | STOP_CURRENT =>
           EngineState.status st' = EngineState.status st
           /\ Engine.accel w' = Engine.accel w
           /\ Engine.ui w' = Engine.ui w ++ [Engine.msg_aborted]
       | RESET =>
           EngineState.status st' = EngineState.status st
           /\ Engine.accel w' = Accelerator.reset (Engine.accel w)
           /\ Engine.ui w' = Engine.ui w ++ [Engine.msg_aborted; Engine.msg_memory_cleared]
       | SHUTDOWN =>
           EngineState.status st' = SHUTTING_DOWN
           /\ Engine.accel w' = Engine.accel w
           /\ Engine.ui w' = Engine.ui w ++ [Engine.msg_aborted_shutdown]
       end.
Proof.
  intros Hq Htc Hr.
  destruct (runGeneration_pass_pops st w token_count cmd rest Hq Htc)
    as (st' & w' & Hpass & Hq' & Htq & Hid & Hc & Hcase).
  exists st', w'. rewrite Hr in Hcase.
  destruct (Command.type cmd); destruct Hcase as (? & ? & ? & ?);
    do 6 (split; [done|]); by split.
Qed.

Lemma generation_command_effect_witness :
  exists st' w',
    Engine.runGeneration_pass generating_example reset_typed_example 0
    = Engine.Return st' w'
    /\ Queue.holds Engine.COMMAND_QUEUE_SIZE (Engine.commandQueue w') []
    /\ Engine.taskQueue w' = Engine.taskQueue reset_typed_example
    /\ EngineState.currentTaskId st' = EngineState.currentTaskId generating_example
    /\ EngineState.cancelCurrent st' = true
    /\ EngineState.resetRequested st' = false
    /\ EngineState.status st' = EngineState.status generating_example
    /\ Engine.accel w' = Accelerator.reset (Engine.accel reset_typed_example)
    /\ Engine.ui w'
       = Engine.ui reset_typed_example ++ [Engine.msg_aborted; Engine.msg_memory_cleared].
Proof.
  apply (generation_command_effect generating_example reset_typed_example 0
           (Command.mk RESET) []).
  - holds_by_computation.
  - unfold Engine.MAX_TOKENS. lia.
  - reflexivity.
Defined.

(** X22. The idle engine takes a waiting command before any task: one
    step of its loop removes the oldest command and leaves the task queue
    alone, whatever waits there.  At idle Stop changes nothing, Reset
    zeroes the KV cache and sends the Memory cleared text, Shutdown sets
    the status to ShuttingDown; the thread stays at the head of its
    loop. *)
Theorem idle_command_first (host : endianness) (char_is_signed : bool)
    (s : Engine.system) (cmd : Command.t) (rest : list Command.t) :
  Engine.at_pc s = Engine.AtLoopHead ->
  EngineState.status (Engine.state s) = IDLE ->
  Queue.holds Engine.COMMAND_QUEUE_SIZE
    (Engine.commandQueue (Engine.the_world s)) (cmd :: rest) ->
  exists s',
    Engine.engine_step host char_is_signed s = Some s'
    /\ Engine.at_pc s' = Engine.AtLoopHead
    /\ Engine.shell s' = Engine.shell s
    /\ Queue.holds Engine.COMMAND_QUEUE_SIZE
         (Engine.commandQueue (Engine.the_world s')) rest
    /\ Engine.taskQueue (Engine.the_world s') = Engine.taskQueue (Engine.the_world s)
    /\ match Command.type cmd with
       | STOP_CURRENT =>
           Engine.state s' = Engine.state s
           /\ Engine.accel (Engine.the_world s') = Engine.accel (Engine.the_world s)
           /\ Engine.ui (Engine.the_world s') = Engine.ui (Engine.the_world s)
       | RESET =>
           Engine.state s' = Engine.state s
           /\ Engine.accel (Engine.the_world s')
              = Accelerator.reset (Engine.accel (Engine.the_world s))
           /\ Engine.ui (Engine.the_world s')
              = Engine.ui (Engine.the_world s)
                ++ [(Engine.nl ++ Engine.msg_memory_cleared)%string]
       | SHUTDOWN =>
           Engine.state s' = Engine.set_status (Engine.state s) SHUTTING_DOWN
           /\ Engine.accel (Engine.the_world s') = Engine.accel (Engine.the_world s)
           /\ Engine.ui (Engine.the_world s') = Engine.ui (Engine.the_world s)
       end.
Proof. apply idle_pops_command. Qed.

Lemma idle_command_first_witness :
  exists s',
    Engine.engine_step LittleEndian true idle_reset_example = Some s'
    /\ Engine.at_pc s' = Engine.AtLoopHead
    /\ Engine.shell s' = Engine.shell idle_reset_example
    /\ Queue.holds Engine.COMMAND_QUEUE_SIZE
         (Engine.commandQueue (Engine.the_world s')) []
    /\ Engine.taskQueue (Engine.the_world s')
       = Engine.taskQueue (Engine.the_world idle_reset_example)
    /\ Engine.state s' = Engine.state idle_reset_example
    /\ Engine.accel (Engine.the_world s')
       = Accelerator.reset (Engine.accel (Engine.the_world idle_reset_example))
    /\ Engine.ui (Engine.the_world s')
       = Engine.ui (Engine.the_world idle_reset_example)
         ++ [(Engine.nl ++ Engine.msg_memory_cleared)%string].
Proof.
  apply (idle_command_first LittleEndian true idle_reset_example (Command.mk RESET) []).
  - reflexivity.
  - reflexivity.
  - holds_by_computation.
Defined.

(** X23. The idle engine with no command waiting starts the oldest
    waiting task: one step of its loop removes it from the task queue,
    sets the status to Generating and currentTaskId to its id, clears
    cancelCurrent and resetRequested, sends the Generating text and starts
    the driver on the tokens of the prompt, with the token count at 0.
    With no task waiting either, the step changes nothing. *)
Theorem idle_starts_oldest_task (host : endianness) (char_is_signed : bool)
    (s : Engine.system) (tasks : list Task.t) :
  Engine.at_pc s = Engine.AtLoopHead ->
  EngineState.status (Engine.state s) = IDLE ->
  Queue.holds Engine.COMMAND_QUEUE_SIZE (Engine.commandQueue (Engine.the_world s)) [] ->
  Queue.holds Engine.TASK_QUEUE_SIZE (Engine.taskQueue (Engine.the_world s)) tasks ->
  exists s',
    Engine.engine_step host char_is_signed s = Some s'
    /\ Engine.shell s' = Engine.shell s
    /\ Engine.commandQueue (Engine.the_world s') = Engine.commandQueue (Engine.the_world s)
    /\ match tasks with
       | [] =>
           Engine.at_pc s' = Engine.AtLoopHead
           /\ Engine.state s' = Engine.state s
           /\ Engine.taskQueue (Engine.the_world s') = Engine.taskQueue (Engine.the_world s)
           /\ Engine.accel (Engine.the_world s') = Engine.accel (Engine.the_world s)
           /\ Engine.ui (Engine.the_world s') = Engine.ui (Engine.the_world s)
       | task :: rest =>
           Engine.at_pc s' = Engine.InGeneration task 0
           /\ Engine.state s' = EngineState.mk GENERATING (Task.id task) false false
           /\ Queue.holds Engine.TASK_QUEUE_SIZE
                (Engine.taskQueue (Engine.the_world s')) rest
           /\ Engine.accel (Engine.the_world s')
              = Accelerator.startInference host (Engine.accel (Engine.the_world s))
                  (Task.id task) (Engine.tokenize char_is_signed (Task.prompt task))
           /\ Engine.ui (Engine.the_world s')
              = Engine.ui (Engine.the_world s) ++ [Engine.msg_generating]
       end.
Proof.
  destruct s as [pc st w sh]. cbn [Engine.at_pc Engine.state Engine.the_world Engine.shell].
  intros -> Hs Hcq Htq. unfold Engine.engine_step.
  cbn [Engine.at_pc Engine.state Engine.the_world Engine.shell]. rewrite Hs.
  rewrite (tryPop_nothing _ _ _ Hcq).
  cbn [Engine.taskQueue Engine.with_commandQueue].
  destruct tasks as [|task rest].
  - rewrite (tryPop_nothing _ _ _ Htq). eexists; split; [reflexivity|]. by cbn.
  - destruct (tryPop_item _ _ _ _ Task.init task_queue_size Htq) as (q' & -> & Hq').
    eexists; split; [reflexivity|]. by cbn.
Qed.

Lemma idle_starts_oldest_task_witness :
  exists s',
    Engine.engine_step LittleEndian true idle_task_example = Some s'
    /\ Engine.shell s' = Engine.shell idle_task_example
    /\ Engine.commandQueue (Engine.the_world s')
       = Engine.commandQueue (Engine.the_world idle_task_example)
    /\ Engine.at_pc s' = Engine.InGeneration task_example 0
    /\ Engine.state s' = EngineState.mk GENERATING (Task.id task_example) false false
    /\ Queue.holds Engine.TASK_QUEUE_SIZE (Engine.taskQueue (Engine.the_world s')) []
    /\ Engine.accel (Engine.the_world s')
       = Accelerator.startInference LittleEndian
           (Engine.accel (Engine.the_world idle_task_example))
           (Task.id task_example) (Engine.tokenize true (Task.prompt task_example))
    /\ Engine.ui (Engine.the_world s')
       = Engine.ui (Engine.the_world idle_task_example) ++ [Engine.msg_generating].
Proof.
  apply (idle_starts_oldest_task LittleEndian true idle_task_example [task_example]).
  - reflexivity.
  - reflexivity.
  - holds_by_computation.
  - holds_by_computation.
Defined.

(** X24. At every state the system reaches the waiting tasks have
    strictly increasing ids in the order they wait, each from 1 on and
    below the next id main will give out; during a generation the id of
    the task being generated is from 1 on, below the next id, and below
    the id of every waiting task.  So the engine never starts a task a
    second time, nor one older than the one it runs. *)
Theorem task_ids_increase (host : endianness) (char_is_signed : bool)
    (s : Engine.system) :
  Engine.reachable host char_is_signed s ->
  exists items,
    Queue.holds Engine.TASK_QUEUE_SIZE (Engine.taskQueue (Engine.the_world s)) items
    /\ (forall i j ti tj, (i < j)%nat -> items !! i = Some ti -> items !! j = Some tj ->
          Task.id ti < Task.id tj)
    /\ (forall task, task ∈ items ->
          1 <= Task.id task < Engine.nextTaskId (Engine.shell s))
    /\ (forall current token_count,
          Engine.at_pc s = Engine.InGeneration current token_count ->
          1 <= Task.id current < Engine.nextTaskId (Engine.shell s)
          /\ forall task, task ∈ items -> Task.id current < Task.id task).
Proof.
  intros Hs.
  destruct (reachable_task_ids host char_is_signed s Hs) as (Hpc & items & Hq & Hids).
  exists items. split; [done|]. split; [by eapply ids_increasing_sorted|].
  destruct (ids_increasing_bounds _ _ _ Hids) as (Hle & Hall).
  unfold least_waiting_id in *.
  split.
  - intros task Hin. specialize (Hall task Hin).
    destruct (Engine.at_pc s); lia.
  - intros current token_count Heq. rewrite Heq in *.
    split; [lia|]. intros task Hin. specialize (Hall task Hin). lia.
Qed.

Lemma task_ids_increase_witness :
  exists items,
    Queue.holds Engine.TASK_QUEUE_SIZE
      (Engine.taskQueue (Engine.the_world (typed ["hello"; "there"]%string))) items
    /\ (forall i j ti tj, (i < j)%nat -> items !! i = Some ti -> items !! j = Some tj ->
          Task.id ti < Task.id tj)
    /\ (forall task, task ∈ items ->
          1 <= Task.id task
          < Engine.nextTaskId (Engine.shell (typed ["hello"; "there"]%string)))
    /\ (forall current token_count,
          Engine.at_pc (typed ["hello"; "there"]%string)
          = Engine.InGeneration current token_count ->
          1 <= Task.id current
          < Engine.nextTaskId (Engine.shell (typed ["hello"; "there"]%string))
          /\ forall task, task ∈ items -> Task.id current < Task.id task).
Proof.
  apply (task_ids_increase LittleEndian true (typed ["hello"; "there"]%string)).
  apply typed_reachable.
Defined.

(** X25. A Shutdown that waits in the command queue stops the engine
    thread: from any state the system reaches, with the shell quiet, the
    thread has left its loop after at most two steps more than there are
    commands waiting.  The commands before the Shutdown are taken one by
    one, a running generation is ended by the first of them. *)
Theorem shutdown_reaches_exit (host : endianness) (char_is_signed : bool)
    (s : Engine.system) (cmds : list Command.t) :
  Engine.reachable host char_is_signed s ->
  Queue.holds Engine.COMMAND_QUEUE_SIZE (Engine.commandQueue (Engine.the_world s)) cmds ->
  Exists is_shutdown cmds ->
  exists n s', (n <= length cmds + 2)%nat
    /\ Engine.run_schedule host char_is_signed (replicate n None) s = Some s'
    /\ Engine.at_pc s' = Engine.Exited
    /\ EngineState.status (Engine.state s') = SHUTTING_DOWN.
Proof.
  intros Hs Hq Hex.
  assert (Hgoal : exists n s', (n <= length cmds + 2)%nat
    /\ Engine.run_schedule host char_is_signed (replicate n None) s = Some s'
    /\ Engine.at_pc s' = Engine.Exited).
  { pose proof (reachable_inv host char_is_signed s Hs) as (_ & _ & Hpc).
    destruct (Engine.at_pc s) as [|task token_count|] eqn:Heq.
    - destruct (loop_head_reaches_exit host char_is_signed cmds s Heq)
        as (n & s' & Hn & Hrun & Hexit); [|done|done|].
      + destruct Hpc as [(-> & _)| ->]; done.
      + exists n, s'. split; [lia|done].
    - by eapply generation_reaches_exit.
    - exists 0%nat, s. split; [lia|done]. }
  destruct Hgoal as (n & s' & Hn & Hrun & Hexit).
  exists n, s'. split; [done|]. split; [done|]. split; [done|].
  assert (Hs' : Engine.reachable host char_is_signed s')
    by (by eapply run_schedule_reachable).
  pose proof (reachable_inv host char_is_signed s' Hs') as (_ & _ & Hpc).
  by rewrite Hexit in Hpc.
Qed.

Lemma shutdown_reaches_exit_witness :
  exists n s', (n <= length [Command.mk STOP_CURRENT; Command.mk SHUTDOWN] + 2)%nat
    /\ Engine.run_schedule LittleEndian true (replicate n None)
         (typed ["hello"; "/stop"; "/quit"]%string) = Some s'
    /\ Engine.at_pc s' = Engine.Exited
    /\ EngineState.status (Engine.state s') = SHUTTING_DOWN.
Proof.
  apply (shutdown_reaches_exit LittleEndian true
           (typed ["hello"; "/stop"; "/quit"]%string)
           [Command.mk STOP_CURRENT; Command.mk SHUTDOWN]).
  - apply typed_reachable.
  - holds_by_computation.
  - apply Exists_cons_tl, Exists_cons_hd. reflexivity.
Defined.

(** X26. main does not look at what commandQueue.push returns.  When ten
    commands wait, none of them a Shutdown, and /quit is typed, the
    Shutdown is dropped and main leaves its loop all the same: from then
    on no line is read, no Shutdown ever reaches the engine thread, and
    the thread never leaves its loop, whatever the schedule. *)
Theorem quit_dropped_when_full (host : endianness) (char_is_signed : bool)
    (s : Engine.system) (cmds : list Command.t) :
  Engine.quit (Engine.shell s) = false ->
  EngineState.status (Engine.state s) <> SHUTTING_DOWN ->
  Engine.at_pc s <> Engine.Exited ->
  Queue.holds Engine.COMMAND_QUEUE_SIZE (Engine.commandQueue (Engine.the_world s)) cmds ->
  length cmds = 10%nat ->
  Forall (fun cmd => ~ is_shutdown cmd) cmds ->
  exists s',
    Engine.shell_step "/quit" s = Some s'
    /\ Engine.commandQueue (Engine.the_world s') = Engine.commandQueue (Engine.the_world s)
    /\ Engine.quit (Engine.shell s') = true
    /\ (forall line, Engine.shell_step line s' = None)
    /\ forall sched s'',
         Engine.run_schedule host char_is_signed sched s' = Some s'' ->
         Engine.at_pc s'' <> Engine.Exited
         /\ EngineState.status (Engine.state s'') <> SHUTTING_DOWN.
Proof.
  intros Hquit Hst Hpc Hq Hlen Hcmds.
  pose proof Hq as (_ & Hcount & _).
  eexists. split.
  { unfold Engine.shell_step. rewrite Hquit. cbn. reflexivity. }
  cbn [Engine.the_world Engine.shell Engine.quit Engine.commandQueue
       Engine.with_commandQueue].
  assert (Hpush : (Queue.push Engine.COMMAND_QUEUE_SIZE
                     (Engine.commandQueue (Engine.the_world s))
                     (Command.mk SHUTDOWN)).2
                  = Engine.commandQueue (Engine.the_world s)).
  { rewrite push_full; [done|]. unfold Engine.COMMAND_QUEUE_SIZE. lia. }
  split; [done|]. split; [done|]. split; [done|].
  intros sched s'' Hrun.
  apply (run_schedule_no_shutdown host char_is_signed) in Hrun.
  - by destruct Hrun as (_ & ? & ? & _).
  - split; [done|]. split; [done|]. split; [done|].
    exists cmds. cbn [Engine.the_world Engine.commandQueue Engine.with_commandQueue].
    by rewrite Hpush.
Qed.

Lemma quit_dropped_when_full_witness :
  exists s',
    Engine.shell_step "/quit" (typed (replicate 10 "/stop"%string)) = Some s'
    /\ Engine.commandQueue (Engine.the_world s')
       = Engine.commandQueue (Engine.the_world (typed (replicate 10 "/stop"%string)))
    /\ Engine.quit (Engine.shell s') = true
    /\ (forall line, Engine.shell_step line s' = None)
    /\ forall sched s'',
         Engine.run_schedule LittleEndian true sched s' = Some s'' ->
         Engine.at_pc s'' <> Engine.Exited
         /\ EngineState.status (Engine.state s'') <> SHUTTING_DOWN.
Proof.
  apply (quit_dropped_when_full LittleEndian true (typed (replicate 10 "/stop"%string))
           (replicate 10 (Command.mk STOP_CURRENT))).
  - vm_compute. reflexivity.
  - vm_compute. done.
  - vm_compute. done.
  - holds_by_computation.
  - reflexivity.
  - repeat constructor; unfold is_shutdown; cbn; congruence.
Defined.

(** X27. A line that is not empty and not a command becomes a task with
    the next id, and the id is used up whether or not the task finds
    room: with fewer than 100 tasks waiting it is queued behind them, with
    100 waiting it is dropped and the queue stays as it was.  The command
    queue, the driver, the output and the engine's state are not
    touched. *)
Theorem prompt_line_queues_task (s : Engine.system) (line : string)
    (items : list Task.t) :
  Engine.quit (Engine.shell s) = false ->
  line ∉ [EmptyString; "/quit"; "/stop"; "/reset"]%string ->
  Engine.nextTaskId (Engine.shell s) < 2 ^ 31 - 1 ->
  Queue.holds Engine.TASK_QUEUE_SIZE (Engine.taskQueue (Engine.the_world s)) items ->
  exists s',
    Engine.shell_step line s = Some s'
    /\ Engine.shell s'
       = Engine.mkShell (Engine.nextTaskId (Engine.shell s) + 1) false
    /\ Engine.at_pc s' = Engine.at_pc s
    /\ Engine.state s' = Engine.state s
    /\ Engine.commandQueue (Engine.the_world s') = Engine.commandQueue (Engine.the_world s)
    /\ Engine.accel (Engine.the_world s') = Engine.accel (Engine.the_world s)
    /\ Engine.ui (Engine.the_world s') = Engine.ui (Engine.the_world s)
    /\ Queue.holds Engine.TASK_QUEUE_SIZE (Engine.taskQueue (Engine.the_world s'))
         (if (length items <? 100)%nat
          then items ++ [Task.mk (Engine.nextTaskId (Engine.shell s)) GENERATE line]
          else items).
Proof.
  intros Hquit Hline Hnext Hq.
  unfold Engine.shell_step. rewrite Hquit.
  repeat match goal with
         | |- context [String.eqb line ?x] =>
             destruct (String.eqb_spec line x) as [->|_];
             [exfalso; apply Hline;
              repeat first [apply list_elem_of_here | apply list_elem_of_further]|]
         end.
  destruct (Z.geb_spec (Engine.nextTaskId (Engine.shell s)) (2 ^ 31 - 1)); [lia|].
  eexists. split; [reflexivity|].
  cbn [Engine.shell Engine.at_pc Engine.state Engine.the_world].
  pose proof Hq as (_ & Hcount & _).
  unfold Engine.shell_push, Engine.pushTask, Queue.full.
  destruct (Z.geb_spec (Queue.count (Engine.taskQueue (Engine.the_world s)))
              Engine.TASK_QUEUE_SIZE) as [Hfull|Hroom]; unfold Engine.TASK_QUEUE_SIZE in *.
  - destruct (Nat.ltb_spec (length items) 100); [lia|]. by cbn.
  - destruct (Nat.ltb_spec (length items) 100); [|lia].
    destruct (push_room 100 task_queue_size (Engine.taskQueue (Engine.the_world s)) items
                (Task.mk (Engine.nextTaskId (Engine.shell s)) GENERATE line) Hq)
      as (q' & -> & Hq' & _); [lia|]. by cbn.
Qed.

Lemma prompt_line_queues_task_witness :
  exists s',
    Engine.shell_step "hi" (Engine.boot LittleEndian) = Some s'
    /\ Engine.shell s' = Engine.mkShell (1 + 1) false
    /\ Engine.at_pc s' = Engine.at_pc (Engine.boot LittleEndian)
    /\ Engine.state s' = Engine.state (Engine.boot LittleEndian)
    /\ Engine.commandQueue (Engine.the_world s')
       = Engine.commandQueue (Engine.the_world (Engine.boot LittleEndian))
    /\ Engine.accel (Engine.the_world s')
       = Engine.accel (Engine.the_world (Engine.boot LittleEndian))
    /\ Engine.ui (Engine.the_world s') = Engine.ui (Engine.the_world (Engine.boot LittleEndian))
    /\ Queue.holds Engine.TASK_QUEUE_SIZE (Engine.taskQueue (Engine.the_world s'))
         [Task.mk 1 GENERATE "hi"].
Proof.
  apply (prompt_line_queues_task (Engine.boot LittleEndian) "hi" []).
  - reflexivity.
  - intros Hin. repeat (apply elem_of_cons in Hin as [Hin|Hin]; [discriminate Hin|]).
    by apply elem_of_nil in Hin.
  - cbn. lia.
  - apply holds_init. unfold Engine.TASK_QUEUE_SIZE. lia.
Defined.

(** ** The interrupt handler *)

Section Interrupts.

Context {U : Type}.

Import InterruptHandler.

Lemma bit_set_testbit isr k :
  0 <= k -> bit_set isr (2 ^ k) = Z.testbit isr k.
Proof.
  intros Hk. unfold bit_set.
  assert (Hland : Z.land isr (2 ^ k) = if Z.testbit isr k then 2 ^ k else 0).
  { apply Z.bits_inj'. intros n Hn. rewrite Z.land_spec, Z.pow2_bits_eqb by done.
    destruct (Z.eqb_spec k n) as [->|Hne].
    - destruct (Z.testbit isr n); [by rewrite Z.pow2_bits_true|by rewrite Z.bits_0].
    - rewrite andb_false_r.
      destruct (Z.testbit isr k); [|by rewrite Z.bits_0].
      rewrite Z.pow2_bits_false; [done|lia]. }
  rewrite Hland. destruct (Z.testbit isr k); [|done].
  destruct (Z.eqb_spec (2 ^ k) 0); [|done].
  pose proof (Z.pow_pos_nonneg 2 k). lia.
Qed.

Lemma bit_set_low isr :
  bit_set isr 0x01 = Z.testbit isr 0 /\ bit_set isr 0x02 = Z.testbit isr 1
  /\ bit_set isr 0x04 = Z.testbit isr 2 /\ bit_set isr 0x08 = Z.testbit isr 3.
Proof.
  split; [|split; [|split]].
  - apply (bit_set_testbit isr 0). lia.
  - apply (bit_set_testbit isr 1). lia.
  - apply (bit_set_testbit isr 2). lia.
  - apply (bit_set_testbit isr 3). lia.
Qed.

Lemma count_bit_cons k isr isrs :
  count_bit k (isr :: isrs) = Z.b2z (Z.testbit isr k) + count_bit k isrs.
Proof.
  unfold count_bit. rewrite filter_cons.
  destruct (decide (Z.testbit isr k = true)) as [->|Hne]; cbn [length Z.b2z]; [lia|].
  destruct (Z.testbit isr k); [done|]. cbn. lia.
Qed.

Lemma wrap64_count c b n : wrap64 (wrap64 (c + b) + n) = wrap64 (c + (b + n)).
Proof. rewrite wrap64_add_l. f_equal. lia. Qed.

(** One status word handled. *)
Lemma handleInterrupt_counts (h : t U) isr u :
  let h' := (handleInterrupt h isr u).1 in
  done_count h' = (if Z.testbit isr 0 then wrap64 (done_count h + 1) else done_count h)
  /\ ready_count h' = (if Z.testbit isr 1 then wrap64 (ready_count h + 1) else ready_count h)
  /\ token_count h' = (if Z.testbit isr 2 then wrap64 (token_count h + 1) else token_count h)
  /\ error_count h' = (if Z.testbit isr 3 then wrap64 (error_count h + 1) else error_count h)
  /\ with_counts h' (total_interrupts h) (done_count h) (ready_count h) (token_count h)
       (error_count h) (sim_counter h) = h.
Proof.
  unfold handleInterrupt.
  destruct (bit_set_low isr) as (-> & -> & -> & ->).
  destruct h.
  destruct (Z.testbit isr 0), (Z.testbit isr 1), (Z.testbit isr 2), (Z.testbit isr 3);
    cbn; done.
Qed.

Lemma handleInterrupt_total (h : t U) isr u :
  total_interrupts (handleInterrupt h isr u).1 = total_interrupts h
  /\ sim_counter (handleInterrupt h isr u).1 = sim_counter h.
Proof.
  unfold handleInterrupt. destruct h.
  destruct (bit_set isr 1), (bit_set isr 2), (bit_set isr 4), (bit_set isr 8); by cbn.
Qed.

Lemma handleInterrupts_total isrs : forall (h : t U) u,
  total_interrupts (handleInterrupts h isrs u).1 = total_interrupts h
  /\ sim_counter (handleInterrupts h isrs u).1 = sim_counter h.
Proof.
  induction isrs as [|isr isrs IH]; intros h u; [done|].
  unfold handleInterrupts in *. cbn [fold_left fst snd].
  destruct (handleInterrupt_total h isr u) as (Ht & Hs).
  destruct (handleInterrupt h isr u) as [h1 u1]. cbn [fst snd] in *.
  destruct (IH h1 u1) as (-> & ->). done.
Qed.

Lemma handleInterrupt_state (h : t U) isr u :
  (handleInterrupt h isr u).2
  = (if Z.testbit isr 3 then invoke (on_error_callback h) ERROR else id)
      ((if Z.testbit isr 2 then invoke (on_token_callback h) TOKEN_READY else id)
         ((if Z.testbit isr 1 then invoke (on_ready_callback h) AP_READY else id)
            ((if Z.testbit isr 0 then invoke (on_done_callback h) AP_DONE else id) u))).
Proof.
  unfold handleInterrupt.
  destruct (bit_set_low isr) as (-> & -> & -> & ->).
  destruct h.
  destruct (Z.testbit isr 0), (Z.testbit isr 1), (Z.testbit isr 2), (Z.testbit isr 3);
    cbn; done.
Qed.

Lemma with_counts_frame (h h1 h2 : t U) :
  with_counts h1 (total_interrupts h) (done_count h) (ready_count h) (token_count h)
    (error_count h) (sim_counter h) = h ->
  with_counts h2 (total_interrupts h1) (done_count h1) (ready_count h1) (token_count h1)
    (error_count h1) (sim_counter h1) = h1 ->
  with_counts h2 (total_interrupts h) (done_count h) (ready_count h) (token_count h)
    (error_count h) (sim_counter h) = h.
Proof. destruct h, h1, h2. cbn. intros [= -> -> -> -> -> -> -> ->] [= -> -> -> -> -> -> -> ->]. done. Qed.

Lemma wrap64_u64 c : is_u64 c -> wrap64 c = c.
Proof. intros Hc. unfold wrap64. apply Z.mod_small. exact Hc. Qed.

Lemma wrap64_is_u64 c : is_u64 (wrap64 c).
Proof. unfold is_u64, wrap64. apply Z.mod_pos_bound. lia. Qed.

Lemma count_step c (b : bool) : is_u64 c ->
  (if b then wrap64 (c + 1) else c) = wrap64 (c + Z.b2z b)
  /\ is_u64 (if b then wrap64 (c + 1) else c).
Proof.
  intros Hc. destruct b; cbn [Z.b2z].
  - split; [done|apply wrap64_is_u64].
  - rewrite Z.add_0_r, wrap64_u64 by done. done.
Qed.

Lemma handleInterrupts_counts isrs : forall (h : t U) u,
  is_u64 (done_count h) -> is_u64 (ready_count h) ->
  is_u64 (token_count h) -> is_u64 (error_count h) ->
  let h' := (handleInterrupts h isrs u).1 in
  done_count h' = wrap64 (done_count h + count_bit 0 isrs)
  /\ ready_count h' = wrap64 (ready_count h + count_bit 1 isrs)
  /\ token_count h' = wrap64 (token_count h + count_bit 2 isrs)
  /\ error_count h' = wrap64 (error_count h + count_bit 3 isrs)
  /\ with_counts h' (total_interrupts h) (done_count h) (ready_count h) (token_count h)
       (error_count h) (sim_counter h) = h.
Proof.
  induction isrs as [|isr isrs IH]; intros h u Hd Hr Hk He; cbn zeta.
  - unfold handleInterrupts, count_bit. cbn.
    rewrite !Z.add_0_r, !wrap64_u64 by done. by destruct h.
  - unfold handleInterrupts in *. cbn [fold_left fst snd].
    destruct (handleInterrupt_counts h isr u) as (H0 & H1 & H2 & H3 & Hframe).
    destruct (count_step _ (Z.testbit isr 0) Hd) as (E0 & U0).
    destruct (count_step _ (Z.testbit isr 1) Hr) as (E1 & U1).
    destruct (count_step _ (Z.testbit isr 2) Hk) as (E2 & U2).
    destruct (count_step _ (Z.testbit isr 3) He) as (E3 & U3).
    rewrite <- H0 in E0, U0. rewrite <- H1 in E1, U1.
    rewrite <- H2 in E2, U2. rewrite <- H3 in E3, U3.
    destruct (handleInterrupt h isr u) as [h1 u1]. cbn [fst snd] in *.
    specialize (IH h1 u1 U0 U1 U2 U3). cbn zeta in IH.
    destruct IH as (I0 & I1 & I2 & I3 & Iframe).
    rewrite I0, I1, I2, I3, E0, E1, E2, E3, !count_bit_cons, !wrap64_count.
    do 4 (split; [done|]). by eapply with_counts_frame.
Qed.

Lemma rem_step c :
  0 <= c -> (c + 1 + 9) / 10 - (c + 9) / 10 = (if Z.rem c 10 =? 0 then 1 else 0).
Proof.
  intros Hc. rewrite Z.rem_mod_nonneg by lia.
  destruct (Z.eqb_spec (c mod 10) 0); Z.to_euclidean_division_equations; lia.
Qed.

Lemma service_sim (h : t U) u :
  0 <= sim_counter h < 2 ^ 31 - 1 ->
  let fired := Z.rem (sim_counter h) 10 =? 0 in
  service h u
  = Some (with_counts h (wrap64 (total_interrupts h + 1))
            (if fired then wrap64 (done_count h + 1) else done_count h)
            (ready_count h) (token_count h) (error_count h) (sim_counter h + 1),
          if fired then invoke (on_done_callback h) AP_DONE u else u).
Proof.
  intros Hc. cbn zeta. unfold service, readISR. cbn [sim_counter with_counts].
  destruct (Z.geb_spec (sim_counter h) (2 ^ 31 - 1)); [lia|].
  destruct h. by destruct (Z.rem _ 10 =? 0).
Qed.

(** X29. The service thread in the simulation build.  While running is
    set, timeouts, passes without POLLIN and short reads count nothing; a
    poll error ends the loop.  After [n] serviced interrupts the total has
    grown by [n] and the simulated status register has reported done on
    every tenth read, those where the static counter was a multiple of 10:
    done_count has grown by that many and the done callback, if there is
    one, has run that many times; ready, token and error are never
    reported. *)
Theorem irqServiceThread_simulation events : forall (h : t U) u,
  running h = true ->
  0 <= sim_counter h -> sim_counter h + serviced events < 2 ^ 31 ->
  is_u64 (total_interrupts h) -> is_u64 (done_count h) ->
  let n := serviced events in
  let fired := (sim_counter h + n + 9) / 10 - (sim_counter h + 9) / 10 in
  exists h' u',
    irqServiceThread events h u = Some (h', u')
    /\ h' = with_counts h (wrap64 (total_interrupts h + n)) (wrap64 (done_count h + fired))
              (ready_count h) (token_count h) (error_count h) (sim_counter h + n)
    /\ u' = Nat.iter (Z.to_nat fired) (invoke (on_done_callback h) AP_DONE) u.
Proof.
  assert (Hnn : forall evs : list poll_event, 0 <= serviced evs).
  { induction evs as [|[| |p nb] evs IH]; cbn; try lia. destruct (p && nb); lia. }
  assert (Hstay : forall (h : t U) u, is_u64 (total_interrupts h) -> is_u64 (done_count h) ->
            (h, u) = (with_counts h (wrap64 (total_interrupts h + 0))
                        (wrap64 (done_count h + ((sim_counter h + 0 + 9) / 10
                                                 - (sim_counter h + 9) / 10)))
                        (ready_count h) (token_count h) (error_count h) (sim_counter h + 0),
                      Nat.iter (Z.to_nat ((sim_counter h + 0 + 9) / 10
                                          - (sim_counter h + 9) / 10))
                        (invoke (on_done_callback h) AP_DONE) u)).
  { intros h u Ht Hd. rewrite !Z.add_0_r, Z.sub_diag, Z.add_0_r, !wrap64_u64 by done.
    by destruct h. }
  induction events as [|ev events IH]; intros h u Hrun Hc Hmax Ht Hd; cbn zeta.
  - cbn [serviced irqServiceThread]. eexists _, _. split; [reflexivity|].
    by injection (Hstay h u Ht Hd) as <- <-.
  - cbn [irqServiceThread]. rewrite Hrun.
    destruct ev as [| |pollin nb_ok]; cbn [serviced] in *.
    + eexists _, _. split; [reflexivity|]. by injection (Hstay h u Ht Hd) as <- <-.
    + by apply IH.
    + destruct (pollin && nb_ok); [|rewrite Z.add_0_l in *; by apply IH].
      pose proof (Hnn events) as Hn.
      rewrite service_sim by lia.
      set (b := Z.rem (sim_counter h) 10 =? 0).
      set (h1 := with_counts h _ _ _ _ _ _).
      set (u1 := if b then _ else u).
      destruct (IH h1 u1) as (h' & u' & -> & -> & ->).
      * by destruct h.
      * subst h1. cbn. lia.
      * subst h1. cbn. lia.
      * subst h1. cbn. apply wrap64_is_u64.
      * subst h1. cbn. destruct b; [apply wrap64_is_u64|done].
      * eexists _, _. split; [reflexivity|].
        pose proof (rem_step (sim_counter h) Hc) as Hstep. fold b in Hstep.
        assert (Hmono : 0 <= (sim_counter h + 1 + serviced events + 9) / 10
                             - (sim_counter h + 1 + 9) / 10)
          by (Z.to_euclidean_division_equations; lia).
        assert (Hdone : (if b then wrap64 (done_count h + 1) else done_count h)
                        = wrap64 (done_count h + (if b then 1 else 0))).
        { destruct b; [done|]. by rewrite Z.add_0_r, wrap64_u64. }
        subst h1 u1. cbn [with_counts total_interrupts done_count ready_count token_count
               error_count sim_counter on_done_callback uio_fd enabled running reg_base
               on_ready_callback on_token_callback on_error_callback].
        rewrite Hdone, !wrap64_add_l.
        replace (sim_counter h + 1 + serviced events)
          with (sim_counter h + (1 + serviced events)) in * by lia.
        replace (total_interrupts h + 1 + serviced events)
          with (total_interrupts h + (1 + serviced events)) by lia.
        set (f1 := (sim_counter h + (1 + serviced events) + 9) / 10
                   - (sim_counter h + 1 + 9) / 10) in *.
        replace ((sim_counter h + (1 + serviced events) + 9) / 10 - (sim_counter h + 9) / 10)
          with ((if b then 1 else 0) + f1) by (subst f1; lia).
        split.
        -- f_equal. f_equal. lia.
        -- destruct b.
           ++ rewrite Z2Nat.inj_add by lia. change (Z.to_nat 1) with 1%nat.
              by rewrite Nat.add_comm, Nat.iter_add.
           ++ by rewrite Z.add_0_l.
Qed.

Lemma run_calls_lifecycle (calls : list (call U)) :
  let h := run_calls calls in
  (running h = true -> enabled h = true)
  /\ with_lifecycle (with_callbacks h None None None None) (-1) false false None = new.
Proof.
  unfold run_calls. induction calls as [|c calls IH] using rev_ind; [done|].
  rewrite fold_left_app. cbn [fold_left]. cbn zeta in IH.
  destruct IH as (Hrun & Hframe).
  set (h := fold_left run_call calls new) in *.
  destruct h as [fd en run regs d r k e total dc rc kc ec sim].
  cbn in Hrun, Hframe. injection Hframe as -> -> -> -> -> ->.
  destruct c; cbn; unfold start, stop, init; cbn;
    destruct en, run; cbn; try (split; [done|done]); split; auto.
Qed.

End Interrupts.

(** X28. handleInterrupt looks at bits 0 to 3 of the status word and at
    nothing else.  Over any run of status words each of the four counters
    grows, modulo 2^64, by the number of words that had its bit set,
    whether or not a callback is registered; total_interrupts, the static
    counter of readISR, the flags and the callbacks stay as they were.  For one word the registered callbacks
    run in the order done, ready, token, error. *)
Theorem handleInterrupt_counts_bits {U : Type} (h : InterruptHandler.t U)
    (isrs : list Z) (u : U) :
  is_u64 (InterruptHandler.done_count h) ->
  is_u64 (InterruptHandler.ready_count h) ->
  is_u64 (InterruptHandler.token_count h) ->
  is_u64 (InterruptHandler.error_count h) ->
  let h' := (InterruptHandler.handleInterrupts h isrs u).1 in
  InterruptHandler.done_count h'
  = wrap64 (InterruptHandler.done_count h + InterruptHandler.count_bit 0 isrs)
  /\ InterruptHandler.ready_count h'
     = wrap64 (InterruptHandler.ready_count h + InterruptHandler.count_bit 1 isrs)
  /\ InterruptHandler.token_count h'
     = wrap64 (InterruptHandler.token_count h + InterruptHandler.count_bit 2 isrs)
  /\ InterruptHandler.error_count h'
     = wrap64 (InterruptHandler.error_count h + InterruptHandler.count_bit 3 isrs)
  /\ InterruptHandler.with_counts h' (InterruptHandler.total_interrupts h)
       (InterruptHandler.done_count h) (InterruptHandler.ready_count h)
       (InterruptHandler.token_count h) (InterruptHandler.error_count h)
       (InterruptHandler.sim_counter h) = h
  /\ InterruptHandler.total_interrupts h' = InterruptHandler.total_interrupts h
  /\ InterruptHandler.sim_counter h' = InterruptHandler.sim_counter h
  /\ (forall isr v,
        InterruptHandler.handleInterrupt h isr v
        = InterruptHandler.handleInterrupt h (Z.land isr 0x0F) v)
  /\ (forall isr v,
        (InterruptHandler.handleInterrupt h isr v).2
        = (if Z.testbit isr 3
           then InterruptHandler.invoke (InterruptHandler.on_error_callback h) ERROR
           else id)
            ((if Z.testbit isr 2
              then InterruptHandler.invoke (InterruptHandler.on_token_callback h) TOKEN_READY
              else id)
               ((if Z.testbit isr 1
                 then InterruptHandler.invoke (InterruptHandler.on_ready_callback h) AP_READY
                 else id)
                  ((if Z.testbit isr 0
                    then InterruptHandler.invoke (InterruptHandler.on_done_callback h) AP_DONE
                    else id) v)))).
Proof.
  intros Hd Hr Hk He h'.
  destruct (handleInterrupts_counts isrs h u Hd Hr Hk He) as (H0 & H1 & H2 & H3 & Hframe).
  destruct (handleInterrupts_total isrs h u) as (Htotal & Hsim).
  do 7 (split; [done|]). split.
  - intros isr v. unfold InterruptHandler.handleInterrupt.
    destruct (bit_set_low isr) as (-> & -> & -> & ->).
    destruct (bit_set_low (Z.land isr 0x0F)) as (-> & -> & -> & ->).
    rewrite !Z.land_spec.
    change (Z.testbit 15 0) with true. change (Z.testbit 15 1) with true.
    change (Z.testbit 15 2) with true. change (Z.testbit 15 3) with true.
    by rewrite !andb_true_r.
  - intros isr v. apply handleInterrupt_state.
Qed.

Lemma handleInterrupt_counts_bits_witness :
  let h' := (InterruptHandler.handleInterrupts handler_example [1; 3; 8; 16] 0%nat).1 in
  InterruptHandler.done_count h'
  = wrap64 (InterruptHandler.done_count handler_example
            + InterruptHandler.count_bit 0 [1; 3; 8; 16])
  /\ InterruptHandler.ready_count h'
     = wrap64 (InterruptHandler.ready_count handler_example
               + InterruptHandler.count_bit 1 [1; 3; 8; 16])
  /\ InterruptHandler.token_count h'
     = wrap64 (InterruptHandler.token_count handler_example
               + InterruptHandler.count_bit 2 [1; 3; 8; 16])
  /\ InterruptHandler.error_count h'
     = wrap64 (InterruptHandler.error_count handler_example
               + InterruptHandler.count_bit 3 [1; 3; 8; 16])
  /\ InterruptHandler.with_counts h' (InterruptHandler.total_interrupts handler_example)
       (InterruptHandler.done_count handler_example)
       (InterruptHandler.ready_count handler_example)
       (InterruptHandler.token_count handler_example)
       (InterruptHandler.error_count handler_example)
       (InterruptHandler.sim_counter handler_example) = handler_example
  /\ InterruptHandler.total_interrupts h'
     = InterruptHandler.total_interrupts handler_example
  /\ InterruptHandler.sim_counter h' = InterruptHandler.sim_counter handler_example
  /\ (forall isr v,
        InterruptHandler.handleInterrupt handler_example isr v
        = InterruptHandler.handleInterrupt handler_example (Z.land isr 0x0F) v)
  /\ (forall isr v,
        (InterruptHandler.handleInterrupt handler_example isr v).2
        = (if Z.testbit isr 3
           then InterruptHandler.invoke
                  (InterruptHandler.on_error_callback handler_example) ERROR
           else id)
            ((if Z.testbit isr 2
              then InterruptHandler.invoke
                     (InterruptHandler.on_token_callback handler_example) TOKEN_READY
              else id)
               ((if Z.testbit isr 1
                 then InterruptHandler.invoke
                        (InterruptHandler.on_ready_callback handler_example) AP_READY
                 else id)
                  ((if Z.testbit isr 0
                    then InterruptHandler.invoke
                           (InterruptHandler.on_done_callback handler_example) AP_DONE
                    else id) v)))).
Proof.
  apply (handleInterrupt_counts_bits handler_example [1; 3; 8; 16] 0%nat);
    unfold is_u64; cbn; lia.
Defined.

Lemma irqServiceThread_simulation_witness :
  let n := InterruptHandler.serviced poll_events_example in
  let fired := (InterruptHandler.sim_counter handler_example + n + 9) / 10
               - (InterruptHandler.sim_counter handler_example + 9) / 10 in
  exists h' u',
    InterruptHandler.irqServiceThread poll_events_example handler_example 0%nat
    = Some (h', u')
    /\ h' = InterruptHandler.with_counts handler_example
              (wrap64 (InterruptHandler.total_interrupts handler_example + n))
              (wrap64 (InterruptHandler.done_count handler_example + fired))
              (InterruptHandler.ready_count handler_example)
              (InterruptHandler.token_count handler_example)
              (InterruptHandler.error_count handler_example)
              (InterruptHandler.sim_counter handler_example + n)
    /\ u' = Nat.iter (Z.to_nat fired)
              (InterruptHandler.invoke
                 (InterruptHandler.on_done_callback handler_example) AP_DONE) 0%nat.
Proof.
  apply (irqServiceThread_simulation poll_events_example handler_example 0%nat).
  - reflexivity.
  - cbn. lia.
  - vm_compute. reflexivity.
  - unfold is_u64. cbn. lia.
  - unfold is_u64. cbn. lia.
Defined.

(** X30. Whatever the owner calls, in whatever order (init, start, stop,
    the four callback setters, the two manual enables): a handler that is
    running is enabled; start returns true exactly when the handler is
    enabled and leaves it running exactly then; stop leaves it neither
    running nor enabled, so that start fails until init is called again;
    and none of these calls changes a counter. *)
Theorem handler_lifecycle {U : Type} (calls : list (InterruptHandler.call U))
    (registers : option Z) :
  let h := InterruptHandler.run_calls calls in
  (InterruptHandler.isRunning h = true -> InterruptHandler.enabled h = true)
  /\ (InterruptHandler.start h).1 = InterruptHandler.enabled h
  /\ InterruptHandler.isRunning (InterruptHandler.start h).2 = InterruptHandler.enabled h
  /\ InterruptHandler.isRunning (InterruptHandler.stop h) = false
  /\ InterruptHandler.enabled (InterruptHandler.stop h) = false
  /\ (InterruptHandler.start (InterruptHandler.stop h)).1 = false
  /\ (InterruptHandler.start
        (InterruptHandler.init (InterruptHandler.stop h) registers).2).1 = true
  /\ InterruptHandler.getTotalInterrupts h = 0
  /\ InterruptHandler.getDoneCount h = 0
  /\ InterruptHandler.getReadyCount h = 0
  /\ InterruptHandler.getTokenCount h = 0
  /\ InterruptHandler.getErrorCount h = 0.
Proof.
  intros h. destruct (run_calls_lifecycle calls) as (Hrun & Hframe). fold h in Hrun, Hframe.
  destruct h as [fd en run regs d r k e total dc rc kc ec sim].
  cbn in Hrun, Hframe. injection Hframe as -> -> -> -> -> ->.
  unfold InterruptHandler.isRunning, InterruptHandler.start, InterruptHandler.stop,
    InterruptHandler.init.
  destruct en, run; cbn; repeat split; auto. discriminate (Hrun eq_refl).
Qed.
